(** * Arrow Flight CLI client: shallow embedding and verified properties

    The development follows the source modules of the client:

    - [FlightClient] (flight-client.js): descriptor construction
      ([getFlightInfo]), the streamed fetch ([doGet]), the two-phase
      query ([queryDataset]) and the liveness probe ([checkHealth]);
    - [LoadTester] (load-tester.js): the metrics computation
      ([calculateMetrics]), the bounded-concurrency loop
      ([runLoadTest]), the latter as a small event-loop machine with
      promises, reactions and a FIFO micro-task queue, and the single
      request it issues ([singleRequest]);
    - the command line (entry point): the tenant list of the load test
      ([loadTest_tenants]) and the query command ([cmdQuery]).

    Conventions.  A finite double is written as the rational it is
    ([Q]).  The sum and the quotients of [calculateMetrics] are
    rounded to binary64 with the Standard Library's [SpecFloat], and
    what is not finite has its own constructors in [number]; the
    readings of the clock and their differences are kept as exact
    rationals.  A Buffer is the sequence of its bytes, written as a
    [string] (one character per byte).  [undefined] / [null] / a
    missing field is [None]. *)

From Stdlib Require Import QArith Qround Sorted Lqa SpecFloat Ascii.
From stdpp Require Import base decidable option list strings pretty sorting.

Open Scope string_scope.
Open Scope list_scope.

(* ===================================================================== *)
(** * JavaScript values used by the client                                *)
(* ===================================================================== *)

(** A Number: a finite binary64 value, written as the rational it
    is, an infinity or NaN. *)
Inductive number : Type :=
| Num (q : Q)
| PInf
| NInf
| NaN.

(** What a binary64 number of the Standard Library's [SpecFloat] is
    as a [number]. *)
Definition number_of_float (f : spec_float) : number :=
  match f with
  | S754_zero _ => Num 0
  | S754_infinity false => PInf
  | S754_infinity true => NInf
  | S754_nan => NaN
  | S754_finite s m e =>
      let magnitude :=
        if (0 <=? e)%Z then inject_Z (Z.pos m * 2 ^ e)
        else Qmake (Z.pos m) (Z.to_pos (2 ^ (- e))) in
      Num (if s then - magnitude else magnitude)%Q
  end.

(** The quotient [a / d] of two positive integers, rounded to
    binary64 by [SpecFloat]: the integer quotient at the exponent of
    the result with the position of the remainder, then the rounding
    every [SpecFloat] operation ends with (to the nearest, ties to
    even, overflow to an infinity). *)
Definition divide64 (negative : bool) (a d : positive) : spec_float :=
  let '(m, e, l) := SFdiv_core_binary 53 1024 (Z.pos a) 0 (Z.pos d) 0 in
  binary_round_aux 53 1024 negative m e l.

(** The binary64 number nearest to the rational [q]: what an
    arithmetic operation returns when [q] is its exact result. *)
Definition round64 (q : Q) : number :=
  let r := Qred q in
  match Qnum r with
  | Z0 => Num 0
  | Z.pos a => number_of_float (divide64 false a (Qden r))
  | Z.neg a => number_of_float (divide64 true a (Qden r))
  end.
Arguments round64 : simpl never.

(** [a / b] on finite numbers: division by zero gives NaN or an
    infinity, never an exception; otherwise the exact quotient is
    rounded. *)
Definition js_div (a b : Q) : number :=
  if Qeq_bool b 0 then
    if Qeq_bool a 0 then NaN
    else if Qle_bool 0 a then PInf else NInf
  else round64 (a / b).

(** [a + b] for a finite [b]: the exact sum is rounded; an infinity
    or NaN on the left stays. *)
Definition js_add (a : number) (b : Q) : number :=
  match a with
  | Num x => round64 (x + b)
  | _ => a
  end.

(** [a / b] for a finite [b] and any [a]. *)
Definition js_div_number (a : number) (b : Q) : number :=
  match a with
  | Num x => js_div x b
  | PInf => if Qle_bool 0 b then PInf else NInf
  | NInf => if Qle_bool 0 b then NInf else PInf
  | NaN => NaN
  end.

(** [Math.floor] on a finite number. *)
Definition Math_floor (q : Q) : Z := Qfloor q.

(** The double written [0.95] is [double_095 / 2^52]. *)
Definition double_095 : Z := 4278419646001971.

(** [num], rounded to a multiple of [2^k], to the nearest and to the
    even quotient at a tie: the rounding of IEEE 754 arithmetic when
    [num] has [k] bits more than a double keeps. *)
Definition round_nearest_even (num k : Z) : Z :=
  if (k <=? 0)%Z then num
  else
    let q := (num / 2 ^ k)%Z in
    let rem := (num mod 2 ^ k)%Z in
    let half := (2 ^ (k - 1))%Z in
    let up :=
      if (half <? rem)%Z then true
      else if (rem <? half)%Z then false
      else Z.odd q in
    ((if up then q + 1 else q) * 2 ^ k)%Z.

(** [Math.floor(n * 0.95)] for an integer [n >= 0], as binary64
    arithmetic computes it: the exact product [n * double_095 / 2^52]
    is rounded to 53 significant bits, then floored. *)
Definition floor_times_095 (n : Z) : Z :=
  let exact := (n * double_095)%Z in
  let k := Z.max 0 (Z.log2 exact - 52) in
  (round_nearest_even exact k / 2 ^ 52)%Z.

(** [Array.prototype.reduce(f, init)]. *)
Definition Array_reduce {A B : Type} (f : B -> A -> B) (init : B) (l : list A) : B :=
  fold_left f l init.

(** [Array.prototype.sort(compareFn)]: the sort is stable, and [a] is
    placed before [b] when [compareFn(a, b)] is not positive.  Built
    from the right, an element is inserted in front of the first
    element it does not exceed. *)
Fixpoint sort_insert {A : Type} (compareFn : A -> A -> Q) (x : A) (l : list A) : list A :=
  match l with
  | [] => [x]
  | y :: t =>
      if Qle_bool (compareFn x y) 0 then x :: y :: t
      else y :: sort_insert compareFn x t
  end.

Definition Array_sort {A : Type} (compareFn : A -> A -> Q) (l : list A) : list A :=
  foldr (sort_insert compareFn) [] l.

(** ** Number to string *)

(** The value of the double nearest to the integer [a] (ties to even);
    [None] when that is an infinity. *)
Definition nearest_double (a : positive) : option Z :=
  match binary_normalize 53 1024 (Z.pos a) 0 false with
  | S754_finite _ m e =>
      Some (if (0 <=? e)%Z then Z.pos m * 2 ^ e else Z.pos m / 2 ^ (- e))%Z
  | _ => None
  end.

(** The decimal with the fewest significant digits that still denotes
    the double [x] (of [len] digits), the closest to [x] among those;
    [k] is the number of digits tried. *)
Fixpoint shortest_decimal (fuel k : nat) (x : Z) (len : nat) : Z :=
  match fuel with
  | 0 => x
  | S fuel' =>
      let scale := (10 ^ Z.of_nat (len - k))%Z in
      let s := (x / scale)%Z in
      let below := (s * scale)%Z in
      let above := ((s + 1) * scale)%Z in
      let denotes v := bool_decide (nearest_double (Z.to_pos v) = Some x) in
      match denotes below, denotes above with
      | true, true =>
          if (x - below <? above - x)%Z then below
          else if (above - x <? x - below)%Z then above
          else if Z.even s then below else above
      | true, false => below
      | false, true => above
      | false, false => shortest_decimal fuel' (S k) x len
      end
  end.

(** A digit string without its trailing zeros. *)
Definition strip_zeros (digits : string) : string :=
  let fix go (s : string) : string :=
    match s with
    | String "0" rest => go rest
    | _ => s
    end in
  String.rev (go (String.rev digits)).

(** [String(x)] for a double [x >= 2^53] with the integer value [x]:
    the shortest decimal, in plain digits below 10^21 and in exponent
    form from there. *)
Definition Number_toString_large (x : Z) : string :=
  let v := shortest_decimal 17 1 x (String.length (pretty x)) in
  let digits := pretty v in
  if (v <? 10 ^ 21)%Z then digits
  else
    match strip_zeros digits with
    | String d rest =>
        String d (if decide (rest = "") then "" else "." +:+ rest) +:+
        "e+" +:+ pretty (String.length digits - 1)
    | EmptyString => digits
    end.

(** [String(x)] for the double [x] nearest to the positive integer
    [a]: below 2^53 every integer is a double and prints as its own
    digits. *)
Definition Number_toString_magnitude (a : positive) : string :=
  if (Z.pos a <? 2 ^ 53)%Z then pretty (Z.pos a)
  else
    match nearest_double a with
    | Some x => Number_toString_large x
    | None => "Infinity"
    end.

(** [String(x)] for the double [x] nearest to the integer [n]. *)
Definition Number_toString (n : Z) : string :=
  match n with
  | Z0 => "0"
  | Z.pos a => Number_toString_magnitude a
  | Z.neg a => "-" +:+ Number_toString_magnitude a
  end.

(** A Buffer, as its bytes. *)
Definition Buffer : Type := string.

Definition Buffer_from (s : string) : Buffer := s.

Definition Buffer_length (b : Buffer) : nat := String.length b.

(** An [Error] object; only its [message] is ever read. *)
Record JsError : Type := mkError { message : string }.

(** State of a promise. *)
Inductive promise (A : Type) : Type :=
| Pending
| Fulfilled (v : A)
| Rejected (e : JsError).
Arguments Pending {A}.
Arguments Fulfilled {A} v.
Arguments Rejected {A} e.

(** [resolve(v)] / [reject(e)] of a promise executor: only the first
    call has an effect. *)
Definition settle {A : Type} (p new : promise A) : promise A :=
  match p with
  | Pending => new
  | _ => p
  end.

(* ===================================================================== *)
(** * Data model                                                          *)
(* ===================================================================== *)

Inductive Status : Type := Success | Error.

#[global] Instance Status_eq_dec : EqDecision Status.
Proof. solve_decision. Defined.

(** The object returned by [queryDataset].  The success branch sets
    [rows], [bytes] and the two phase latencies; the error branch sets
    [error]; both set [total_latency_ms]. *)
Record QueryResult : Type := mkQueryResult {
  status : Status;
  tenant_id : string;
  dataset : string;
  rows : option Z;
  bytes : option Z;
  metadata_latency_ms : option Q;
  transfer_latency_ms : option Q;
  total_latency_ms : Q;
  error : option string
}.

(** The object returned by [calculateMetrics]. *)
Record LoadTestMetrics : Type := mkMetrics {
  total_requests : nat;
  successful : nat;
  failed : nat;
  total_rows : Z;
  total_bytes : Z;
  duration_s : Q;
  throughput : number;
  avg_latency_ms : number;
  p95_latency_ms : option Q
}.

(* ===================================================================== *)
(** * flight-client.js                                                    *)
(* ===================================================================== *)

Module FlightClient.

(** ** Protocol messages *)

Inductive DescriptorType : Type := PATH.

Record FlightDescriptor : Type := mkDescriptor {
  type : DescriptorType;
  path : list Buffer
}.

Record Ticket : Type := mkTicket { ticket : Buffer }.

Record FlightEndpoint : Type := mkEndpoint { endpoint_ticket : Ticket }.

(** [endpoint] is [None] when the response carries no such field. *)
Record FlightInfo : Type := mkInfo { endpoint : option (list FlightEndpoint) }.

Record FlightData : Type := mkFlightData { data_body : option Buffer }.

(** An Arrow table, as far as the client looks at it. *)
Record Table : Type := mkTable { numRows : Z }.

(** The value [doGet] resolves with: [{ table, rows, bytes }]. *)
Record DoGetResult : Type := mkDoGetResult {
  dg_table : option Table;
  dg_rows : Z;
  dg_bytes : Z
}.

(** The [rows] argument as the command line supplies it: the result
    of [parseInt], which is NaN or the double nearest to an integer
    [n] (an infinity when [n] is out of the range of the doubles).
    [None] is [null]/[undefined]. *)
Inductive row_limit : Type :=
| RowsNaN
| RowsInt (n : Z).

(** Truthiness of [rows] in [if (rows)]. *)
Definition truthy (rows : option row_limit) : bool :=
  match rows with
  | None => false
  | Some RowsNaN => false
  | Some (RowsInt n) => negb (n =? 0)%Z
  end.

(** [String(rows)]. *)
Definition String_ (rows : option row_limit) : string :=
  match rows with
  | None => "null"
  | Some RowsNaN => "NaN"
  | Some (RowsInt n) => Number_toString n
  end.

(** ** The outside world of one client *)

(** Events of a server-streaming call, in the order they are emitted. *)
Inductive stream_event : Type :=
| OnData (flightData : FlightData)
| OnEnd
| OnError (err : JsError).

(** What the gateway and the Arrow decoder do; not part of the client.
    [GetFlightInfo] gives the final state of the unary call
    ([Pending]: the callback is never invoked), [DoGet] the events of
    the stream, [tableFromIPC] either throws or returns a table. *)
Record Gateway : Type := mkGateway {
  GetFlightInfo : FlightDescriptor -> promise FlightInfo;
  DoGet : Buffer -> list stream_event;
  tableFromIPC : Buffer -> JsError + Table
}.

Inductive rpc_call : Type :=
| CallGetFlightInfo (descriptor : FlightDescriptor)
| CallDoGet (t : Buffer).

(** Mutable surroundings: the k-th reading of [performance.now()] and
    the calls issued so far. *)
Record world : Type := mkWorld {
  clock : nat -> Q;
  reads : nat;
  calls : list rpc_call
}.

(** ** Control: return, throw, or stay suspended at an [await] *)

Inductive completion (A : Type) : Type :=
| Return (a : A)
| Throw (e : JsError)
| Never.
Arguments Return {A} a.
Arguments Throw {A} e.
Arguments Never {A}.

Definition M (A : Type) : Type := world -> completion A * world.

#[global] Instance M_ret : MRet M := fun A a w => (Return a, w).

#[global] Instance M_bind : MBind M := fun A B f m w =>
  match m w with
  | (Return a, w') => f a w'
  | (Throw e, w') => (Throw e, w')
  | (Never, w') => (Never, w')
  end.

Definition throw {A : Type} (e : JsError) : M A := fun w => (Throw e, w).

(** [try { body } catch (err) { handler }]. *)
Definition try_catch {A : Type} (body : M A) (handler : JsError -> M A) : M A :=
  fun w =>
    match body w with
    | (Throw e, w') => handler e w'
    | r => r
    end.

(** [await p]. *)
Definition await {A : Type} (p : promise A) : M A :=
  fun w =>
    match p with
    | Fulfilled v => (Return v, w)
    | Rejected e => (Throw e, w)
    | Pending => (Never, w)
    end.

(** [performance.now()]. *)
Definition performance_now : M Q :=
  fun w => (Return (clock w (reads w)),
            {| clock := clock w; reads := S (reads w); calls := calls w |}).

Definition issue (c : rpc_call) : M unit :=
  fun w => (Return tt,
            {| clock := clock w; reads := reads w; calls := calls w ++ [c] |}).

Section Client.

Variable gateway : Gateway.

(** ** getFlightInfo *)

(** The local [path] of [getFlightInfo]. *)
Definition descriptor_path (tenantId datasetName : string)
           (rows : option row_limit) : list Buffer :=
  let path := [Buffer_from tenantId; Buffer_from datasetName] in
  if truthy rows then path ++ [Buffer_from (String_ rows)] else path.

Definition getFlightInfo (tenantId datasetName : string)
           (rows : option row_limit) : M (promise FlightInfo) :=
  let descriptor :=
    {| type := PATH; path := descriptor_path tenantId datasetName rows |} in
  issue (CallGetFlightInfo descriptor);;
  mret (GetFlightInfo gateway descriptor).

(** ** doGet *)

(** The closure state of [doGet]: the [chunks] array and the
    promise under construction. *)
Record doGet_state : Type := mkDoGetState {
  chunks : list Buffer;
  outcome : promise DoGetResult
}.

(** [call.on('data', ...)] *)
Definition on_data (flightData : FlightData) (st : doGet_state) : doGet_state :=
  match data_body flightData with
  | Some body =>
      if decide (0 < Buffer_length body)%nat
      then {| chunks := chunks st ++ [body]; outcome := outcome st |}
      else st
  | None => st
  end.

(** The [for (const chunk of chunks)] loop; [inl] is the exception
    of a [tableFromIPC] that throws. *)
Fixpoint decode_loop (cs : list Buffer) (totalRows totalBytes : Z)
         (tables : list Table) : JsError + (Z * Z * list Table) :=
  match cs with
  | [] => inr (totalRows, totalBytes, tables)
  | chunk :: rest =>
      match tableFromIPC gateway chunk with
      | inl e => inl e
      | inr table =>
          decode_loop rest
                      (totalRows + numRows table)%Z
                      (totalBytes + Z.of_nat (Buffer_length chunk))%Z
                      (tables ++ [table])
      end
  end.

(** [call.on('end', ...)] *)
Definition on_end (st : doGet_state) : doGet_state :=
  let result :=
    if decide (length (chunks st) = 0)%nat
    then Fulfilled {| dg_table := None; dg_rows := 0; dg_bytes := 0 |}
    else
      match decode_loop (chunks st) 0 0 [] with
      | inl e => Rejected e
      | inr (totalRows, totalBytes, tables) =>
          Fulfilled {| dg_table := if decide (length tables = 1)%nat
                                   then head tables else None;
                       dg_rows := totalRows;
                       dg_bytes := totalBytes |}
      end in
  {| chunks := chunks st; outcome := settle (outcome st) result |}.

(** [call.on('error', ...)] *)
Definition on_error (err : JsError) (st : doGet_state) : doGet_state :=
  {| chunks := chunks st; outcome := settle (outcome st) (Rejected err) |}.

Definition doGet_handle (st : doGet_state) (ev : stream_event) : doGet_state :=
  match ev with
  | OnData flightData => on_data flightData st
  | OnEnd => on_end st
  | OnError err => on_error err st
  end.

(** The promise of [doGet] once the stream has emitted [events]. *)
Definition doGet_events (events : list stream_event) : promise DoGetResult :=
  outcome (fold_left doGet_handle events
                     {| chunks := []; outcome := Pending |}).

Definition doGet (t : Ticket) : M (promise DoGetResult) :=
  issue (CallDoGet (ticket t));;
  mret (doGet_events (DoGet gateway (ticket t))).

(** ** queryDataset *)

(** [!info.endpoint || info.endpoint.length === 0] *)
Definition no_endpoints (info : FlightInfo) : bool :=
  match endpoint info with
  | None => true
  | Some eps => bool_decide (length eps = 0)%nat
  end.

(** [info.endpoint[0].ticket]; reading it from a missing element
    throws. *)
Definition first_ticket (info : FlightInfo) : M Ticket :=
  match endpoint info with
  | Some (ep :: _) => mret (endpoint_ticket ep)
  | _ => throw (mkError "Cannot read properties of undefined (reading 'ticket')")
  end.

Definition queryDataset (tenantId dataset : string)
           (rows : option row_limit) : M QueryResult :=
  startTotal ← performance_now;
  try_catch
    (startMeta ← performance_now;
     p ← getFlightInfo tenantId dataset rows;
     info ← await p;
     t1 ← performance_now;
     let metaLatency := (t1 - startMeta)%Q in
     (if no_endpoints info
      then throw (mkError "No endpoints returned")
      else mret tt);;
     startTransfer ← performance_now;
     tk ← first_ticket info;
     q ← doGet tk;
     result ← await q;
     t2 ← performance_now;
     let transferLatency := (t2 - startTransfer)%Q in
     t3 ← performance_now;
     let totalLatency := (t3 - startTotal)%Q in
     mret {| status := Success;
             tenant_id := tenantId;
             dataset := dataset;
             rows := Some (dg_rows result);
             bytes := Some (dg_bytes result);
             metadata_latency_ms := Some metaLatency;
             transfer_latency_ms := Some transferLatency;
             total_latency_ms := totalLatency;
             error := None |})
    (fun err =>
       t ← performance_now;
       mret {| status := Error;
               tenant_id := tenantId;
               dataset := dataset;
               rows := None;
               bytes := None;
               metadata_latency_ms := None;
               transfer_latency_ms := None;
               total_latency_ms := (t - startTotal)%Q;
               error := Some (message err) |}).

End Client.

(** ** checkHealth *)

(** What the probe can observe: an event of the [ListFlights] stream,
    or the 5000 ms timer firing. *)
Inductive health_event : Type :=
| Stream (ev : stream_event)
| Timeout.

(** The closure state of [checkHealth]: the [healthy] flag, whether
    [call.cancel()] ran, and the promise under construction. *)
Record health_state : Type := mkHealth {
  healthy : bool;
  cancelled : bool;
  answer : promise bool
}.

Definition checkHealth_handle (st : health_state) (ev : health_event) : health_state :=
  match ev with
  | Stream (OnData _) =>
      {| healthy := true; cancelled := cancelled st; answer := answer st |}
  | Stream OnEnd =>
      {| healthy := healthy st; cancelled := cancelled st;
         answer := settle (answer st) (Fulfilled true) |}
  | Stream (OnError _) =>
      {| healthy := healthy st; cancelled := cancelled st;
         answer := settle (answer st) (Fulfilled false) |}
  | Timeout =>
      {| healthy := healthy st; cancelled := true;
         answer := settle (answer st) (Fulfilled (healthy st)) |}
  end.

Definition checkHealth_run (events : list health_event) : health_state :=
  fold_left checkHealth_handle events
            {| healthy := false; cancelled := false; answer := Pending |}.

(** The promise of [checkHealth] once [events] have happened. *)
Definition checkHealth (events : list health_event) : promise bool :=
  answer (checkHealth_run events).

End FlightClient.

(* ===================================================================== *)
(** * load-tester.js: metrics                                             *)
(* ===================================================================== *)

Module LoadTester.

(** [x || 0] for an optional count. *)
Definition or_zero (x : option Z) : Z := default 0%Z x.

(** [this.results.filter(r => r.status === 'Success')]. *)
Definition successful_of (results : list QueryResult) : list QueryResult :=
  filter (fun r => status r = Success) results.

(** [this.results.filter(r => r.status !== 'Success')]. *)
Definition failed_of (results : list QueryResult) : list QueryResult :=
  filter (fun r => status r <> Success) results.

(** The local [latencies]:
    [successful.map(r => r.total_latency_ms).sort((a, b) => a - b)]. *)
Definition latencies_of (results : list QueryResult) : list Q :=
  Array_sort (fun a b => (a - b)%Q) (total_latency_ms <$> successful_of results).

(** [Math.floor(latencies.length * 0.95)], with [0.95] read as the
    rational 95/100.  The double product floors to the same index for
    every length an array can have ([p95_index_binary64] below). *)
Definition p95_index (len : nat) : nat :=
  Z.to_nat (Math_floor (inject_Z (Z.of_nat len) * (95 # 100))%Q).

Definition calculateMetrics (results : list QueryResult) (duration : Q) : LoadTestMetrics :=
  let successful := successful_of results in
  let failed := failed_of results in
  let latencies := latencies_of results in
  let totalRows :=
    Array_reduce (fun sum r => (sum + or_zero (rows r))%Z) 0%Z successful in
  let totalBytes :=
    Array_reduce (fun sum r => (sum + or_zero (bytes r))%Z) 0%Z successful in
  let avgLatency :=
    if decide (0 < length latencies)%nat
    then js_div_number (Array_reduce js_add (Num 0) latencies)
                       (inject_Z (Z.of_nat (length latencies)))
    else Num 0 in
  let p95Latency :=
    if decide (0 < length latencies)%nat
    then latencies !! p95_index (length latencies)
    else Some 0%Q in
  {| total_requests := length results;
     successful := length successful;
     failed := length failed;
     total_rows := totalRows;
     total_bytes := totalBytes;
     duration_s := duration;
     throughput := js_div (inject_Z (Z.of_nat (length results))) duration;
     avg_latency_ms := avgLatency;
     p95_latency_ms := p95Latency |}.

(** ** runLoadTest as an event-loop machine

    One run is a sequence of atomic steps of the single JavaScript
    thread: a synchronous stretch of the [for] loop, one micro-task
    taken from the FIFO queue, or the completion of one request.  A
    promise is named by the index of its request.  The promise of a
    request is pending or fulfilled: the machine describes the runs
    in which no [singleRequest] throws, which it does only when the
    constructor of its client does. *)

Record config : Type := mkConfig {
  totalRequests : Z;
  tenants : list string;
  dataset_name : string;
  rows_limit : option FlightClient.row_limit;
  concurrency : Z
}.

(** Micro-tasks. *)
Inductive job : Type :=
| JFinally (p : nat)        (** [() => pending.delete(promise)] for promise [p] *)
| JRaceThen (r p : nat)     (** reaction of the [Promise.race] numbered [r] on [p] *)
| JAllThen (p : nat)        (** reaction of [Promise.all] on [p] *)
| JResume.                  (** continuation of [runLoadTest] behind its [await] *)

#[global] Instance job_eq_dec : EqDecision job.
Proof. solve_decision. Defined.

(** A promise is pending with its reactions in registration order,
    or fulfilled. *)
Inductive pstate : Type :=
| PPending (reactions : list job)
| PFulfilled (result : QueryResult).

(** One entry of [allPromises], with the tenant its request was
    given ([None]: [undefined]). *)
Record request : Type := mkRequest {
  req_tenant : option string;
  req_state : pstate
}.

(** Where [runLoadTest] itself stands. *)
Inductive control : Type :=
| Running                              (** inside the [for] loop, at its test *)
| AwaitRace (r : nat) (resolved : bool) (** at [await Promise.race(pending)] *)
| AwaitAll (remaining : nat)           (** at [await Promise.all(allPromises)] *)
| Finished (m : LoadTestMetrics).      (** returned *)

Record state : Type := mkState {
  i : nat;
  results : list QueryResult;
  pending : list nat;
  allPromises : list request;
  jobs : list job;
  ctl : control;
  startTime : Q
}.

Definition is_pending (rq : request) : bool :=
  match req_state rq with
  | PPending _ => true
  | PFulfilled _ => false
  end.

(** Requests admitted and not yet completed. *)
Definition outstanding (s : state) : list nat :=
  filter (fun p => is_pending <$> allPromises s !! p = Some true)
         (seq 0 (length (allPromises s))).

(** [p.then(reaction)]: registered if [p] is pending, queued at once
    if [p] is already fulfilled. *)
Definition then_ (reaction : job) (acc : list request * list job) (p : nat)
  : list request * list job :=
  match acc.1 !! p with
  | Some (mkRequest t (PPending rs)) =>
      (<[p := mkRequest t (PPending (rs ++ [reaction]))]> acc.1, acc.2)
  | Some (mkRequest _ (PFulfilled _)) => (acc.1, acc.2 ++ [reaction])
  | None => acc
  end.

(** [Promise.race(pending)]: one reaction on each member, in the
    iteration order of the Set. *)
Definition Promise_race (r : nat) (members : list nat)
           (acc : list request * list job) : list request * list job :=
  fold_left (fun a p => then_ (JRaceThen r p) a p) members acc.

(** [Promise.all(allPromises)]. *)
Definition Promise_all (acc : list request * list job) : list request * list job :=
  fold_left (fun a p => then_ (JAllThen p) a p) (seq 0 (length acc.1)) acc.

(** [pending.delete(promise)]. *)
Definition Set_delete (p : nat) (set : list nat) : list nat :=
  filter (fun q => q <> p) set.

(** [pending.add(promise)]. *)
Definition Set_add (p : nat) (set : list nat) : list nat :=
  if decide (p ∈ set) then set else set ++ [p].

Inductive label : Type :=
| LoopStep                                  (** the loop runs up to its next [await] or test *)
| RunJob (now : Q)                          (** the first micro-task runs; [now] is what
                                                [performance.now()] would read *)
| Complete (p : nat) (result : QueryResult). (** [singleRequest] of request [p] resolves *)

Section Run.

Variable cfg : config.

(** One pass through the loop body, or the exit to [Promise.all]. *)
Definition loop_step (s : state) : state :=
  if (Z.of_nat (i s) <? totalRequests cfg)%Z then
    let tenant := tenants cfg !! (i s mod length (tenants cfg)) in
    let promise := length (allPromises s) in
    let pending' := Set_add promise (pending s) in
    let all0 := allPromises s ++ [mkRequest tenant (PPending [])] in
    let '(all1, jobs1) := then_ (JFinally promise) (all0, jobs s) promise in
    if (concurrency cfg <=? Z.of_nat (length pending'))%Z then
      let '(all2, jobs2) := Promise_race (i s) pending' (all1, jobs1) in
      {| i := S (i s); results := results s; pending := pending';
         allPromises := all2; jobs := jobs2;
         ctl := AwaitRace (i s) false; startTime := startTime s |}
    else
      {| i := S (i s); results := results s; pending := pending';
         allPromises := all1; jobs := jobs1;
         ctl := Running; startTime := startTime s |}
  else
    let '(all1, jobs1) := Promise_all (allPromises s, jobs s) in
    let n := length (allPromises s) in
    {| i := i s; results := results s; pending := pending s;
       allPromises := all1;
       jobs := if decide (n = 0) then jobs1 ++ [JResume] else jobs1;
       ctl := AwaitAll n; startTime := startTime s |}.

(** The micro-task [j] runs; [rest] is the queue behind it. *)
Definition run_job (now : Q) (j : job) (rest : list job) (s : state) : state :=
  let s' := {| i := i s; results := results s; pending := pending s;
               allPromises := allPromises s; jobs := rest;
               ctl := ctl s; startTime := startTime s |} in
  match j, ctl s with
  | JFinally p, _ =>
      {| i := i s; results := results s; pending := Set_delete p (pending s);
         allPromises := allPromises s; jobs := rest;
         ctl := ctl s; startTime := startTime s |}
  | JRaceThen r _, AwaitRace r' false =>
      if decide (r = r') then
        {| i := i s; results := results s; pending := pending s;
           allPromises := allPromises s; jobs := rest ++ [JResume];
           ctl := AwaitRace r' true; startTime := startTime s |}
      else s'
  | JAllThen _, AwaitAll (S n) =>
      {| i := i s; results := results s; pending := pending s;
         allPromises := allPromises s;
         jobs := if decide (n = 0) then rest ++ [JResume] else rest;
         ctl := AwaitAll n; startTime := startTime s |}
  | JResume, AwaitRace _ true =>
      {| i := i s; results := results s; pending := pending s;
         allPromises := allPromises s; jobs := rest;
         ctl := Running; startTime := startTime s |}
  | JResume, AwaitAll 0 =>
      let duration := ((now - startTime s) / 1000)%Q in
      {| i := i s; results := results s; pending := pending s;
         allPromises := allPromises s; jobs := rest;
         ctl := Finished (calculateMetrics (results s) duration);
         startTime := startTime s |}
  | _, _ => s'
  end.

(** The async wrapper of request [p] receives [result]: it pushes it
    on [this.results] and its promise is fulfilled, which queues the
    reactions registered on it. *)
Definition complete (p : nat) (result : QueryResult) (s : state) : option state :=
  match allPromises s !! p with
  | Some (mkRequest t (PPending rs)) =>
      Some {| i := i s; results := results s ++ [result]; pending := pending s;
              allPromises := <[p := mkRequest t (PFulfilled result)]> (allPromises s);
              jobs := jobs s ++ rs;
              ctl := ctl s; startTime := startTime s |}
  | _ => None
  end.

(** One step; [None] when the step cannot happen in [s].  While the
    loop runs nothing else does; once it has returned nothing is
    left to observe. *)
Definition step (s : state) (l : label) : option state :=
  match l, ctl s with
  | LoopStep, Running => Some (loop_step s)
  | RunJob now, (AwaitRace _ _ | AwaitAll _) =>
      match jobs s with
      | j :: rest => Some (run_job now j rest s)
      | [] => None
      end
  | Complete p result, (AwaitRace _ _ | AwaitAll _) => complete p result s
  | _, _ => None
  end.

(** [runLoadTest] starts: [this.results = []], empty [pending] and
    [allPromises]. *)
Definition init (now : Q) : state :=
  {| i := 0; results := []; pending := []; allPromises := []; jobs := [];
     ctl := Running; startTime := now |}.

Fixpoint steps (s : state) (schedule : list label) : option state :=
  match schedule with
  | [] => Some s
  | l :: ls =>
      match step s l with
      | Some s' => steps s' ls
      | None => None
      end
  end.

(** The value [runLoadTest] returns when the run follows
    [schedule] and has returned by its end. *)
Definition runLoadTest (now : Q) (schedule : list label) : option LoadTestMetrics :=
  match steps (init now) schedule with
  | Some s => match ctl s with Finished m => Some m | _ => None end
  | None => None
  end.

End Run.

End LoadTester.

(* ===================================================================== *)
(** * Vocabulary of the statements                                        *)
(* ===================================================================== *)

(** Sum of a list of rationals, from the right. *)
Definition Qsum (l : list Q) : Q := foldr Qplus 0%Q l.

(** Rounding to binary64 leaves [x] as it is. *)
Definition exact64 (x : Q) : Prop :=
  exists y, round64 x = Num y /\ (y == x)%Q.

(** The latencies of the scenario, ascending. *)
Definition scenario_latencies : list Q :=
  [10; 20; 30; 40; 50; 60; 70; 80; 90; 100]%Q.

(** Ten successful results with total latencies 10, 20, ..., 100 ms,
    tenants "a" and "b" alternating by request, in an order of
    completion that differs from the order of submission. *)
Definition scenario_results : list QueryResult :=
  (fun '(t, lat) =>
     {| status := Success; tenant_id := t; dataset := "sales";
        rows := Some 1000%Z; bytes := Some 65536%Z;
        metadata_latency_ms := Some (lat / 4)%Q;
        transfer_latency_ms := Some (lat / 2)%Q;
        total_latency_ms := lat; error := None |})
  <$> [("b", 20%Q); ("a", 10%Q); ("a", 30%Q); ("a", 50%Q); ("b", 40%Q);
       ("a", 70%Q); ("b", 60%Q); ("b", 100%Q); ("b", 80%Q); ("a", 90%Q)].



(** ** Doubles, as the Standard Library specifies them *)

(** Integer part of a non-negative [spec_float]. *)
Definition sf_floor (f : spec_float) : option Z :=
  match f with
  | S754_zero _ => Some 0%Z
  | S754_finite false m e =>
      Some (if (0 <=? e)%Z then (Z.pos m * 2 ^ e)%Z else (Z.pos m / 2 ^ (- e))%Z)
  | _ => None
  end.

(** [Math.floor(n * 0.95)] with the binary64 product of [SpecFloat]. *)
Definition sf_floor_times_095 (n : positive) : option Z :=
  sf_floor (SFmul 53 1024 (S754_finite false n 0)
                  (S754_finite false 4278419646001971 (-52))).

(** ** Streams and their chunks *)

Import FlightClient.

(** Sum of a list of integers, from the right. *)
Definition Zsum (l : list Z) : Z := foldr Z.add 0%Z l.

(** Bytes carried by one stream message (none: 0). *)
Definition body_length (flightData : FlightData) : nat :=
  match data_body flightData with
  | Some body => Buffer_length body
  | None => 0
  end.

(** The data chunks of a stream: the non-empty bodies, in arrival order. *)
Definition data_chunks (datas : list FlightData) : list Buffer :=
  filter (fun body => 0 < Buffer_length body) (omap data_body datas).

(** The chunk is a well-formed serialized batch. *)
Definition decodes (gateway : Gateway) (chunk : Buffer) : Prop :=
  exists table, tableFromIPC gateway chunk = inr table.

(** Rows of one chunk, as decoded. *)
Definition row_count (gateway : Gateway) (chunk : Buffer) : Z :=
  match tableFromIPC gateway chunk with
  | inr table => numRows table
  | inl _ => 0
  end.

(** [res] accounts for every message of [datas]: rows over all its
    chunks, bytes over all its bodies. *)
Definition complete_result (gateway : Gateway) (datas : list FlightData)
           (res : DoGetResult) : Prop :=
  dg_rows res = Zsum (row_count gateway <$> data_chunks datas) /\
  dg_bytes res = Zsum (Z.of_nat ∘ body_length <$> datas).


(** ** A gateway to run examples against

    A chunk decodes when it starts with the byte "A" and then holds one
    row per further byte; the fetch stream carries two chunks and a
    message without body. *)
Definition example_decoder (chunk : Buffer) : JsError + Table :=
  if String.prefix "A" chunk
  then inr {| numRows := Z.of_nat (Buffer_length chunk) - 1 |}
  else inl (mkError "Invalid Arrow IPC stream").

Definition example_gateway (endpoints : list FlightEndpoint) : Gateway :=
  {| GetFlightInfo := fun _ => Fulfilled {| endpoint := Some endpoints |};
     DoGet := fun _ => [OnData {| data_body := Some "A1234" |};
                        OnData {| data_body := None |};
                        OnData {| data_body := Some "A56" |};
                        OnEnd];
     tableFromIPC := example_decoder |}.

Definition example_world : world :=
  {| clock := fun k => inject_Z (Z.of_nat k); reads := 0; calls := [] |}.

Import LoadTester.
(** ** The event-loop machine *)

(** Promise [p] is pending with reactions [rs]. *)
Definition pending_in (all : list request) (p : nat) (rs : list job) : Prop :=
  exists t, all !! p = Some (mkRequest t (PPending rs)).

(** Promise [p] is fulfilled. *)
Definition is_fulfilled (all : list request) (p : nat) : bool :=
  match all !! p with
  | Some (mkRequest _ (PFulfilled _)) => true
  | _ => false
  end.

Definition is_all_then (j : job) : bool :=
  match j with
  | JAllThen _ => true
  | _ => false
  end.

(** Number of [Promise.all] reactions in a queue. *)
Definition count_all (js : list job) : nat :=
  length (filter (fun j => is_all_then j) js).

(** In the queue [js], no reaction of race [r] runs before some member
    of [pend] has been deleted from it. *)
Fixpoint guarded (r : nat) (pend : list nat) (js : list job) : Prop :=
  match js with
  | [] => True
  | JFinally q :: t => q ∈ pend \/ guarded r pend t
  | JRaceThen r' _ :: t => r' <> r /\ guarded r pend t
  | _ :: t => guarded r pend t
  end.

(** The loop has left the [for] statement. *)
Definition loop_exited (c : control) : Prop :=
  match c with
  | AwaitAll _ | Finished _ => True
  | _ => False
  end.

(** [Promise.all] has not been called yet. *)
Definition before_all (c : control) : Prop :=
  match c with
  | Running | AwaitRace _ _ => True
  | _ => False
  end.

Section Invariants.

Variable cfg : config.

(** The test [pending.size >= this.concurrency] of the iteration that
    admits request [i s]. *)
Definition cap_reached (s : state) : bool :=
  (concurrency cfg <=? Z.of_nat (length (pending s ++ [i s])))%Z.

(** What every reachable state satisfies, whatever the cap. *)
Record coherent (s : state) : Prop := mkCoherent {
  coh_length : length (allPromises s) = i s;
  coh_bound : i s = 0 \/ (Z.of_nat (i s) <= totalRequests cfg)%Z;
  coh_exit : loop_exited (ctl s) -> (totalRequests cfg <= Z.of_nat (i s))%Z;
  coh_tenant : forall p, p < i s ->
    req_tenant <$> allPromises s !! p = Some (tenants cfg !! (p mod length (tenants cfg)));
  coh_pending_lt : forall p, p ∈ pending s -> p < i s;
  coh_nodup : NoDup (pending s);
  coh_reactions : forall p rs, pending_in (allPromises s) p rs ->
    p ∈ pending s /\ exists tl, rs = JFinally p :: tl /\ forall q, JFinally q ∉ tl;
  coh_finally : forall p, is_fulfilled (allPromises s) p = true -> p ∈ pending s ->
    JFinally p ∈ jobs s;
  coh_finally_fulfilled : forall p, JFinally p ∈ jobs s ->
    is_fulfilled (allPromises s) p = true;
  coh_race_fresh : forall r p, JRaceThen r p ∈ jobs s -> r < i s;
  coh_race_fresh_reg : forall q rs r p, pending_in (allPromises s) q rs ->
    JRaceThen r p ∈ rs -> r < i s;
  coh_race_registered : forall r, ctl s = AwaitRace r false ->
    forall p rs, pending_in (allPromises s) p rs -> JRaceThen r p ∈ rs;
  coh_results : length (results s) + length (outstanding s) = length (allPromises s);
  coh_no_all : before_all (ctl s) ->
    count_all (jobs s) = 0 /\
    forall p rs, pending_in (allPromises s) p rs -> count_all rs = 0;
  coh_all : forall n, ctl s = AwaitAll n ->
    n = length (outstanding s) + count_all (jobs s) /\
    forall p rs, pending_in (allPromises s) p rs -> count_all rs = 1;
  coh_finished : forall m, ctl s = Finished m ->
    length (results s) = Z.to_nat (totalRequests cfg) /\
    exists d, m = calculateMetrics (results s) d
}.

(** What the cap adds: [pending] never outgrows it, the loop only runs
    below it, and a race started at the cap cannot be answered before
    a deletion. *)
Record capped (s : state) : Prop := mkCapped {
  cap_le : (Z.of_nat (length (pending s)) <= concurrency cfg)%Z;
  cap_running :
    match ctl s with
    | Running | AwaitRace _ true => (Z.of_nat (length (pending s)) < concurrency cfg)%Z
    | _ => True
    end;
  cap_guard : forall r,
    ctl s = AwaitRace r false ->
    Z.of_nat (length (pending s)) = concurrency cfg ->
    guarded r (pending s) (jobs s)
}.

(** A scheduler: the loop runs when it can, then the micro-tasks in
    order, and only with an empty queue does the next request of
    [completions] complete.  [now] is the clock reading at the end. *)
Fixpoint drive (now : Q) (fuel : nat) (s : state)
         (completions : list (nat * QueryResult)) : list label :=
  match fuel with
  | 0 => []
  | S fuel' =>
      match ctl s with
      | Running => LoopStep :: drive now fuel' (loop_step cfg s) completions
      | Finished _ => []
      | _ =>
          match jobs s, completions with
          | j :: rest, _ => RunJob now :: drive now fuel' (run_job now j rest s) completions
          | [], (p, result) :: completions' =>
              match complete p result s with
              | Some s' => Complete p result :: drive now fuel' s' completions'
              | None => []
              end
          | [], [] => []
          end
      end
  end.

End Invariants.

(** ** Progress of a run: measure and liveness invariant *)

Section Liveness.
Variable cfg : config.

(** 1 while the function is suspended on a promise that no completed
    request has resolved yet. *)
Definition awaiting_answer (c : control) : nat :=
  match c with
  | AwaitRace _ false | AwaitAll (S _) => 1
  | _ => 0
  end.

(** How many more times the loop head can run. *)
Definition admissions_left (s : state) : nat :=
  (Z.to_nat (totalRequests cfg) - i s) +
  match ctl s with
  | AwaitAll _ | Finished _ => 0
  | _ => 1
  end.

(** A suspended function is never stuck: the promise it awaits is
    resolved and its continuation queued, or a reaction that resolves
    it is queued, or a request is still outstanding. *)
Record live (s : state) : Prop := mkLive {
  live_race : forall r, ctl s = AwaitRace r false ->
    (exists p, JRaceThen r p ∈ jobs s) \/ outstanding s <> [];
  live_resolved : forall r, ctl s = AwaitRace r true -> JResume ∈ jobs s;
  live_all : ctl s = AwaitAll 0 -> JResume ∈ jobs s
}.
End Liveness.

(** ** The scenario run: 10 requests, tenants "a" and "b", cap 3 *)

Definition scenario_cfg : config :=
  {| totalRequests := 10; tenants := ["a"; "b"]; dataset_name := "sales";
     rows_limit := None; concurrency := 3 |}.

(** The requests complete in the order of [scenario_results]. *)
Definition scenario_completions : list (nat * QueryResult) :=
  zip [1; 0; 2; 4; 3; 6; 5; 9; 7; 8] scenario_results.

Definition scenario_schedule : list label :=
  drive scenario_cfg 2000 200 (init 0) scenario_completions.

(* ===================================================================== *)
(** * load-tester.js: a single request                                    *)
(* ===================================================================== *)

(** [new FlightClient(uri)]: the constructor of the gRPC stub throws,
    or returns a client, which is given by the gateway it talks to.
    [service] is what it does for the [gatewayUri] of the tester. *)
Definition new_FlightClient (service : JsError + Gateway) : M Gateway :=
  match service with
  | inl e => throw e
  | inr gateway => mret gateway
  end.

(** [singleRequest]: a client of its own for the gateway, and the
    result of its [queryDataset]. *)
Definition singleRequest (service : JsError + Gateway) (tenantId dataset : string)
           (rows : option row_limit) : M QueryResult :=
  client ← new_FlightClient service;
  result ← queryDataset client tenantId dataset rows;
  mret result.

(* ===================================================================== *)
(** * The command line (entry point)                                      *)
(* ===================================================================== *)

(** ** Strings and arrays of the tenant list *)

(** [s.split(sep)] for a separator of one character. *)
Fixpoint String_split (sep : ascii) (s : string) : list string :=
  match s with
  | EmptyString => [""]
  | String c rest =>
      if Ascii.eqb c sep then "" :: String_split sep rest
      else
        match String_split sep rest with
        | piece :: pieces => String c piece :: pieces
        | [] => [String c ""]
        end
  end.

(** [pieces.join(sep)]. *)
Definition Array_join (sep : string) (pieces : list string) : string :=
  String.concat sep pieces.

(** The first [n] characters of [padString] repeated for ever; [cur]
    is what is left of the current repetition. *)
Fixpoint filler (n : nat) (padString cur : string) : string :=
  match n with
  | 0 => ""
  | S n' =>
      match cur with
      | String c rest => String c (filler n' padString rest)
      | EmptyString =>
          match padString with
          | String c rest => String c (filler n' padString rest)
          | EmptyString => ""
          end
      end
  end.

(** [s.padStart(targetLength, padString)]. *)
Definition padStart (targetLength : nat) (padString s : string) : string :=
  filler (targetLength - String.length s) padString padString +:+ s.

(** [Array.from({ length }, (_, i) => mapFn(i))] for a [length] that
    [parseInt] produced: NaN and negative lengths give the empty
    array, a length of 2^32 or more is a RangeError. *)
Definition Array_from_length {A : Type} (len : row_limit) (mapFn : nat -> A)
  : JsError + list A :=
  match len with
  | RowsNaN => inr []
  | RowsInt n =>
      if (n <? 2 ^ 32)%Z then inr (mapFn <$> seq 0 (Z.to_nat n))
      else inl (mkError "Invalid array length")
  end.

(** The name of the simulated tenant of index [i]:
    [`tenant_${String(i + 1).padStart(3, '0')}`]. *)
Definition tenant_name (i : nat) : string :=
  "tenant_" +:+ padStart 3 "0" (pretty (i + 1)).

(** [cmdLoadTest]: the local [tenants].  A tenant list that
    is given and not empty is split at its commas; otherwise
    [tenantsCount] names are generated. *)
Definition loadTest_tenants (tenantsList : option string) (tenantsCount : row_limit)
  : JsError + list string :=
  match tenantsList with
  | Some (String c rest) => inr (String_split "," (String c rest))
  | _ => Array_from_length tenantsCount tenant_name
  end.

(** ** The query command *)

(** A line written by [console.log] or by [console.error]. *)
Inductive output : Type :=
| ConsoleLog (line : string)
| ConsoleError (line : string).

(** How a command ends: it returns, [process.exit] ends the process,
    an exception escapes it, or it stays suspended at an [await]. *)
Inductive ending : Type :=
| Returned
| Exited (code : Z)
| Threw (e : JsError)
| Suspended.

Definition printBanner : list output :=
  [ConsoleLog "╭─────────────────────────────────╮";
   ConsoleLog "│ Arrow Flight Client (Node.js)   │";
   ConsoleLog "│ Multi-tenant Load Tester        │";
   ConsoleLog "╰─────────────────────────────────╯";
   ConsoleLog ""].

(** The options of the [query] command: [--gateway] has a default,
    [--rows] is absent or what [parseInt] made of it. *)
Record query_options : Type := mkQueryOptions {
  opt_gateway : string;
  opt_rows : option row_limit
}.

(** What [cmdQuery] leaves behind: how it ended, what it wrote, and
    the surroundings of its client. *)
Record command_run : Type := mkRun {
  run_ending : ending;
  run_output : list output;
  run_world : world
}.

Section Query_command.

(** The service at [options.gateway]: what it answers to the client,
    and what the probe of [checkHealth] observes.  The command is
    described from the point where its client has been constructed. *)
Variable gateway : Gateway.
Variable probe : list health_event.

(** The table printed for a successful result (cli-table3, with the
    number formats of [toLocaleString] and [toFixed]). *)
Variable render : QueryResult -> string.

(** The first two lines after the banner. *)
Definition query_header (tenant dataset : string) : list output :=
  printBanner ++
  [ConsoleLog ("Running single query for tenant: " +:+ tenant +:+ ", dataset: " +:+ dataset);
   ConsoleLog ""].

(** [`Error: ${result.error}`]. *)
Definition error_line (result : QueryResult) : string :=
  "Error: " +:+ default "undefined" (error result).

Definition cmdQuery (tenant dataset : string) (options : query_options) (w : world)
  : command_run :=
  let header := query_header tenant dataset in
  match checkHealth probe with
  | Pending => {| run_ending := Suspended; run_output := header; run_world := w |}
  | Rejected e => {| run_ending := Threw e; run_output := header; run_world := w |}
  | Fulfilled false =>
      {| run_ending := Exited 1;
         run_output :=
           header ++ [ConsoleError ("Error: Could not connect to Gateway at " +:+
                                    opt_gateway options)];
         run_world := w |}
  | Fulfilled true =>
      match queryDataset gateway tenant dataset (opt_rows options) w with
      | (Return result, w') =>
          {| run_ending := Returned;
             run_output :=
               header ++ [match status result with
                          | Success => ConsoleLog (render result)
                          | Error => ConsoleError (error_line result)
                          end];
             run_world := w' |}
      | (Throw e, w') => {| run_ending := Threw e; run_output := header; run_world := w' |}
      | (Never, w') => {| run_ending := Suspended; run_output := header; run_world := w' |}
      end
  end.

End Query_command.

(* ===================================================================== *)
(** * Vocabulary of the further statements                                *)
(* ===================================================================== *)

(** ** The protocol client *)

(** A rounding of the rationals: monotone, and 0 stays 0. *)
Definition monotone_rounding (fl : Q -> Q) : Prop :=
  (forall x y, (x <= y)%Q -> (fl x <= fl y)%Q) /\ (fl 0 == 0)%Q.

(** [performance.now()] never runs backwards. *)
Definition monotone_clock (w : world) : Prop :=
  forall j k, j <= k -> (clock w j <= clock w k)%Q.

(** The descriptor [getFlightInfo] sends. *)
Definition descriptor_of (tenantId datasetName : string) (limit : option row_limit)
  : FlightDescriptor :=
  {| type := PATH; path := descriptor_path tenantId datasetName limit |}.

(** The promise of the fetch [queryDataset] starts for the first
    endpoint of [info]. *)
Definition fetch_of (gateway : Gateway) (ep : FlightEndpoint) : promise DoGetResult :=
  doGet_events gateway (DoGet gateway (ticket (endpoint_ticket ep))).

(** The table a chunk decodes to, if it does. *)
Definition decoded (gateway : Gateway) (chunk : Buffer) : option Table :=
  match tableFromIPC gateway chunk with
  | inr table => Some table
  | inl _ => None
  end.

(** The event is not a data message with an empty or missing body. *)
Definition carries_data (ev : stream_event) : bool :=
  match ev with
  | OnData flightData => bool_decide (0 < body_length flightData)
  | _ => true
  end.

(** The event is a response unit of the stream. *)
Definition is_data (ev : health_event) : bool :=
  match ev with
  | Stream (OnData _) => true
  | _ => false
  end.

(** The event is the timer firing. *)
Definition is_timeout (ev : health_event) : bool :=
  match ev with
  | Timeout => true
  | _ => false
  end.

(** A gateway whose fetch stream breaks after one chunk. *)
Definition broken_gateway : Gateway :=
  {| GetFlightInfo := fun _ =>
       Fulfilled {| endpoint := Some [{| endpoint_ticket := {| ticket := "t1" |} |}] |};
     DoGet := fun _ => [OnData {| data_body := Some "A1234" |};
                        OnError (mkError "14 UNAVAILABLE")];
     tableFromIPC := example_decoder |}.

(** ** Metrics *)

(** Two results of a division denote the same number. *)
Definition number_eq (a b : number) : Prop :=
  match a, b with
  | Num x, Num y => (x == y)%Q
  | PInf, PInf | NInf, NInf | NaN, NaN => True
  | _, _ => False
  end.

(** The members of [l] that are at most, respectively at least, [x]. *)
Definition at_most (x : Q) (l : list Q) : list Q := filter (fun y => Qle_bool y x) l.
Definition at_least (x : Q) (l : list Q) : list Q := filter (fun y => Qle_bool x y) l.

(** The total latencies of the successful results, in collection order. *)
Definition successful_latencies (results : list QueryResult) : list Q :=
  total_latency_ms <$> successful_of results.

(** ** Runs *)

(** The results of the requests that complete in a schedule, in the
    order of their completion. *)
Definition completed (schedule : list label) : list QueryResult :=
  omap (fun l => match l with Complete _ result => Some result | _ => None end) schedule.

(** [cfg] with another concurrency cap. *)
Definition with_concurrency (c : Z) (cfg : config) : config :=
  {| totalRequests := totalRequests cfg; tenants := tenants cfg;
     dataset_name := dataset_name cfg; rows_limit := rows_limit cfg;
     concurrency := c |}.

(** The completion [l] delivers what [singleRequest] returns, with a
    client of [gateway], for the tenant of its request, the dataset
    and the row limit of the run. *)
Definition served_by (gateway : Gateway) (cfg : config) (s : state) (l : label) : Prop :=
  match l with
  | Complete p result =>
      exists t w,
        req_tenant <$> allPromises s !! p = Some (Some t) /\
        (singleRequest (inr gateway) t (dataset_name cfg) (rows_limit cfg) w).1 = Return result
  | _ => True
  end.

(** Every completion of the schedule, run from [s], is served by the
    gateway. *)
Fixpoint served (gateway : Gateway) (cfg : config) (s : state) (schedule : list label) : Prop :=
  match schedule with
  | [] => True
  | l :: ls =>
      served_by gateway cfg s l /\
      match step cfg s l with
      | Some s' => served gateway cfg s' ls
      | None => True
      end
  end.

(** The client of every request can be constructed, and the gateway
    answers each of them: for the tenant of every request of the run
    [singleRequest] returns a result, in some surroundings. *)
Definition answers (gateway : Gateway) (cfg : config) : Prop :=
  forall p, (Z.of_nat p < totalRequests cfg)%Z ->
    exists t w result,
      tenants cfg !! (p mod length (tenants cfg)) = Some t /\
      (singleRequest (inr gateway) t (dataset_name cfg) (rows_limit cfg) w).1 = Return result.

(** ** Tenant lists *)

(** The character [c] occurs in [s]. *)
Fixpoint occurs (c : ascii) (s : string) : bool :=
  match s with
  | EmptyString => false
  | String a rest => Ascii.eqb a c || occurs c rest
  end.

(** Number of occurrences of [c] in [s]. *)
Fixpoint occurrences (c : ascii) (s : string) : nat :=
  match s with
  | EmptyString => 0
  | String a rest => (if Ascii.eqb a c then 1 else 0) + occurrences c rest
  end.

(* ===================================================================== *)
(** * Properties of calculateMetrics                                      *)
(* ===================================================================== *)

Lemma sort_insert_perm {A : Type} (cmp : A -> A -> Q) (x : A) (l : list A) :
  sort_insert cmp x l ≡ₚ x :: l.
Proof.
  induction l as [|y t IH]; simpl; [done|].
  destruct (Qle_bool (cmp x y) 0); [done|].
  rewrite IH. apply Permutation_swap.
Qed.

Lemma Array_sort_perm {A : Type} (cmp : A -> A -> Q) (l : list A) :
  Array_sort cmp l ≡ₚ l.
Proof.
  induction l as [|x t IH]; simpl; [done|].
  rewrite sort_insert_perm. by f_equiv.
Qed.

Lemma sort_insert_HdRel (a x : Q) (l : list Q) :
  (a <= x)%Q -> HdRel Qle a l -> HdRel Qle a (sort_insert (fun u v => (u - v)%Q) x l).
Proof.
  intros Hax Hl. destruct l as [|y t]; simpl; [by constructor|].
  destruct (Qle_bool (x - y) 0); constructor; [done|].
  by inversion Hl.
Qed.

Lemma sort_insert_sorted (x : Q) (l : list Q) :
  Sorted Qle l -> Sorted Qle (sort_insert (fun u v => (u - v)%Q) x l).
Proof.
  induction 1 as [|y t Ht IH Hy]; simpl.
  - repeat constructor.
  - destruct (Qle_bool (x - y) 0) eqn:E.
    + apply Qle_bool_iff in E.
      constructor; [by constructor|]. constructor. lra.
    + constructor; [done|]. apply sort_insert_HdRel; [|done].
      destruct (Qlt_le_dec y x) as [Hlt|Hle]; [by apply Qlt_le_weak|].
      exfalso. assert (Qle_bool (x - y) 0 = true) as E'; [|congruence].
      apply Qle_bool_iff. lra.
Qed.

Lemma Array_sort_sorted (l : list Q) :
  Sorted Qle (Array_sort (fun u v => (u - v)%Q) l).
Proof.
  induction l as [|x t IH]; simpl; [constructor|].
  by apply sort_insert_sorted.
Qed.

Lemma reduce_Qplus (l : list Q) (acc : Q) :
  (Array_reduce (fun a b => a + b) acc l == acc + Qsum l)%Q.
Proof.
  unfold Array_reduce. revert acc.
  induction l as [|x t IH]; intros acc; simpl.
  - ring.
  - rewrite IH. ring.
Qed.

Lemma Qsum_perm (l1 l2 : list Q) : l1 ≡ₚ l2 -> (Qsum l1 == Qsum l2)%Q.
Proof.
  induction 1 as [|x l l' _ IH|x y l|l l' l'' _ IH1 _ IH2]; simpl.
  - reflexivity.
  - by rewrite IH.
  - ring.
  - by rewrite IH1.
Qed.

Lemma p95_index_floor (len : nat) :
  100 * p95_index len <= 95 * len < 100 * (p95_index len + 1).
Proof.
  unfold p95_index, Math_floor, Qfloor, Qmult, inject_Z.
  cbn [Qnum Qden].
  change (Z.pos (1 * 100)) with 100%Z.
  set (n := (Z.of_nat len * 95)%Z).
  pose proof (Z.div_mod n 100 ltac:(lia)) as Hdm.
  pose proof (Z.mod_pos_bound n 100 ltac:(lia)) as Hb.
  assert (0 <= n `div` 100)%Z by (apply Z.div_pos; lia).
  lia.
Qed.

Lemma p95_index_lt (len : nat) : 0 < len -> p95_index len < len.
Proof. pose proof (p95_index_floor len). lia. Qed.

Section Binary64.

Local Open Scope Z_scope.

Lemma round_nearest_even_close (num k : Z) :
  0 < k -> 0 <= num ->
  exists x r,
    num = x + r /\ 0 <= r < 2 ^ k /\
    x = num / 2 ^ k * 2 ^ k /\
    (round_nearest_even num k = x /\ 2 * r <= 2 ^ k \/
     round_nearest_even num k = x + 2 ^ k /\ 2 ^ k <= 2 * r).
Proof.
  intros Hk Hnum.
  assert (0 < 2 ^ k) as Hp by (apply Z.pow_pos_nonneg; lia).
  assert (2 ^ k = 2 * 2 ^ (k - 1)) as Hhalf.
  { rewrite <- Z.pow_succ_r by lia. f_equal. lia. }
  exists (num / 2 ^ k * 2 ^ k), (num mod 2 ^ k).
  pose proof (Z.div_mod num (2 ^ k) ltac:(lia)) as Hdm.
  pose proof (Z.mod_pos_bound num (2 ^ k) Hp) as Hb.
  split; [lia|]. split; [lia|]. split; [reflexivity|].
  unfold round_nearest_even.
  destruct (Z.leb_spec k 0) as [|_]; [lia|]. cbv zeta.
  destruct (Z.ltb_spec (2 ^ (k - 1)) (num mod 2 ^ k)).
  - right. split; [ring|lia].
  - destruct (Z.ltb_spec (num mod 2 ^ k) (2 ^ (k - 1))).
    + left. split; [ring|lia].
    + destruct (Z.odd (num / 2 ^ k)).
      * right. split; [ring|lia].
      * left. split; [ring|lia].
Qed.

Lemma floor_times_095_exact (n : Z) :
  0 <= n < 2 ^ 32 -> floor_times_095 n = 95 * n / 100.
Proof.
  intros Hn. unfold floor_times_095. cbv zeta.
  set (N := n * double_095).
  destruct (Z.eq_dec n 0) as [->|Hn0]; [reflexivity|].
  assert (0 < N) as HN by (unfold N, double_095; lia).
  pose proof (Z.log2_spec N HN) as Hlog.
  destruct (Z.max_spec 0 (Z.log2 N - 52)) as [[Hlt Hk]|[Hge Hk]]; rewrite Hk.
  - (* at least 54 bits: the product is rounded *)
    set (k := Z.log2 N - 52) in *.
    assert (Z.log2 N = k + 52) as HL by (unfold k; lia). rewrite HL in Hlog.
    assert (0 < 2 ^ k) as Hp by (apply Z.pow_pos_nonneg; lia).
    replace (k + 52 + 1) with (Z.succ (k + 52)) in Hlog by lia.
    rewrite Z.pow_succ_r, Z.pow_add_r in Hlog by lia.
    destruct (round_nearest_even_close N k Hlt ltac:(lia))
      as (x & r & HNx & Hr & Hx & Hround).
    set (V := round_nearest_even N k) in *. clearbody V.
    set (P := 2 ^ k) in *.
    change (2 ^ 32) with 4294967296 in Hn.
    change (2 ^ 52) with 4503599627370496 in *.
    pose proof (Z.div_mod (95 * n) 100 ltac:(lia)) as Hdm.
    pose proof (Z.mod_pos_bound (95 * n) 100 ltac:(lia)) as Hmb.
    set (a := 95 * n / 100) in *. set (m := (95 * n) mod 100) in *.
    symmetry. apply (Z.div_unique V 4503599627370496 a (V - 4503599627370496 * a)); [|ring].
    left.
    assert (N = n * 4278419646001971) as HNn by reflexivity.
    destruct (Z.eq_dec m 0) as [Hm0|Hm0].
    + (* 0.95 n is an integer: the product rounds up to it *)
      assert (exists j, n = 20 * j) as [j Hj].
      { exists (n / 20). pose proof (Z.div_mod n 20 ltac:(lia)).
        pose proof (Z.mod_pos_bound n 20 ltac:(lia)). lia. }
      assert (a = 19 * j) as Ha by lia.
      assert (k <= 52) as Hk52.
      { destruct (Z.le_gt_cases k 52) as [|Hgt]; [done|].
        assert (2 ^ 53 <= P) as HP53 by (apply Z.pow_le_mono_r; lia).
        change (2 ^ 53) with 9007199254740992 in HP53. lia. }
      assert (4503599627370496 = 2 ^ (52 - k) * P) as Hsplit.
      { unfold P. rewrite <- Z.pow_add_r by lia. replace (52 - k + k) with 52 by lia.
        reflexivity. }
      set (g := a * 2 ^ (52 - k)).
      assert (g * P = 4503599627370496 * a) as Hg by (unfold g; rewrite Hsplit; ring).
      assert (N = P * (g - 1) + (P - 4 * j)) as Hdecomp by lia.
      assert (N / P = g - 1) as Hq.
      { symmetry. apply (Z.div_unique N P (g - 1) (P - 4 * j)); [lia|done]. }
      assert (x = (g - 1) * P) as Hxg by (rewrite Hx, Hq; ring).
      destruct Hround as [[HV Hr2]|[HV Hr2]]; lia.
    + destruct Hround as [[HV Hr2]|[HV Hr2]]; lia.
  - (* at most 53 bits: the product is exact *)
    unfold round_nearest_even. cbn [Z.leb Z.compare].
    assert (Z.log2 N <= 52) as HL by lia.
    assert (N < 2 ^ 53) as HN53.
    { destruct Hlog as [_ Hlog]. eapply Z.lt_le_trans; [exact Hlog|].
      apply Z.pow_le_mono_r; lia. }
    change (2 ^ 53) with 9007199254740992 in HN53.
    assert (n = 1 \/ n = 2) as [->| ->] by (unfold N, double_095 in HN53; lia);
      reflexivity.
Qed.

(** The index of the code, computed in doubles, is the index of the
    model. *)
Lemma p95_index_binary64 (len : nat) :
  Z.of_nat len < 2 ^ 32 ->
  Z.to_nat (floor_times_095 (Z.of_nat len)) = p95_index len.
Proof.
  intros Hlen. rewrite floor_times_095_exact by lia.
  unfold p95_index, Math_floor, Qfloor, Qmult, inject_Z. cbn [Qnum Qden].
  change (Z.pos (1 * 100)) with 100. f_equal. f_equal. lia.
Qed.

(** [floor_times_095] against the multiplication of [SpecFloat], at
    lengths around the multiples of 20 and at the largest ones. *)
Lemma floor_times_095_SpecFloat :
  Forall (fun n => sf_floor_times_095 n = Some (floor_times_095 (Z.pos n)))
         [1; 2; 3; 19; 20; 21; 39; 40; 100; 1000; 20971520; 3999999980;
          4294967280; 4294967295]%positive.
Proof. repeat constructor. Qed.

End Binary64.

Lemma js_div_finite (a b : Q) : ~ (b == 0)%Q -> js_div a b = round64 (a / b).
Proof.
  intros Hb. unfold js_div.
  destruct (Qeq_bool b 0) eqn:E; [|done].
  by apply Qeq_bool_iff in E.
Qed.

(** Rounding does not see how a rational is written. *)
Lemma round64_Qeq (x y : Q) : (x == y)%Q -> round64 x = round64 y.
Proof. intros Hxy. unfold round64. by rewrite (Qred_complete x y Hxy). Qed.

Lemma round64_zero (x : Q) : (x == 0)%Q -> round64 x = Num 0.
Proof. intros Hx. by rewrite (round64_Qeq x 0 Hx). Qed.

Lemma reduce_js_add_Qeq (l l' : list Q) (acc : number) :
  Forall2 Qeq l l' -> Array_reduce js_add acc l = Array_reduce js_add acc l'.
Proof.
  unfold Array_reduce. intros Hl. revert acc.
  induction Hl as [|x y l l' Hxy _ IH]; intros acc; [done|].
  cbn [fold_left]. rewrite IH. f_equal.
  destruct acc as [a| | |]; cbn [js_add]; [|done..].
  apply round64_Qeq. by rewrite Hxy.
Qed.

Lemma latencies_of_perm (results : list QueryResult) :
  latencies_of results ≡ₚ total_latency_ms <$> filter (fun r => status r = Success) results.
Proof. apply Array_sort_perm. Qed.

Lemma scenario_latencies_distinct (x1 x2 : Q) :
  x1 ∈ scenario_latencies -> x2 ∈ scenario_latencies ->
  (x1 <= x2)%Q -> (x2 <= x1)%Q -> x1 = x2.
Proof.
  unfold scenario_latencies. intros H1 H2.
  repeat (apply elem_of_cons in H1 as [->|H1]); [..|by apply elem_of_nil in H1];
    repeat (apply elem_of_cons in H2 as [->|H2]); try (by apply elem_of_nil in H2);
    intros Ha Hb; try reflexivity; exfalso; revert Ha Hb; unfold Qle; simpl; lia.
Qed.

Lemma scenario_latencies_sorted : Sorted Qle scenario_latencies.
Proof.
  unfold scenario_latencies.
  repeat (constructor; [|try constructor; unfold Qle; simpl; lia]). constructor.
Qed.

#[local] Instance Qle_transitive : Transitive Qle.
Proof. intros x y z. apply Qle_trans. Qed.

Lemma reduce_js_add_exact (l : list Q) (a a' : Q) :
  (a' == a)%Q ->
  (forall k, k <= length l -> exact64 (a + Qsum (take k l))) ->
  exists s, Array_reduce js_add (Num a') l = Num s /\ (s == a + Qsum l)%Q.
Proof.
  unfold Array_reduce. revert a a'.
  induction l as [|x l IH]; intros a a' Ha Hex; cbn [fold_left].
  - exists a'. split; [done|]. rewrite Ha. unfold Qsum. cbn. ring.
  - destruct (Hex 1 ltac:(cbn; lia)) as (y & Hy & Hyx).
    cbn [take] in Hyx, Hy. rewrite take_0 in Hyx, Hy.
    assert (round64 (a' + x) = Num y) as Hstep.
    { rewrite <- Hy. apply round64_Qeq. rewrite Ha. unfold Qsum. cbn. ring. }
    cbn [js_add]. rewrite Hstep.
    destruct (IH (a + x)%Q y) as (s & Hs & Hsum).
    + rewrite Hyx. unfold Qsum. cbn. ring.
    + intros k Hk. destruct (Hex (S k) ltac:(cbn; lia)) as (z & Hz & Hzx).
      exists z. split.
      * rewrite <- Hz. apply round64_Qeq. cbn [take]. unfold Qsum. cbn [foldr]. ring.
      * rewrite Hzx. cbn [take]. unfold Qsum. cbn [foldr]. ring.
    + exists s. split; [done|]. rewrite Hsum. unfold Qsum. cbn [foldr]. ring.
Qed.

(** C1.  For every result collection, the latencies the metrics are
    computed from are the total latencies of the successful results,
    sorted ascending; the average is their sum divided by their
    number, both in binary64 arithmetic and the sum taken from the
    left over the sorted sequence (0 when there is none), which is the
    exact mean whenever no partial sum and not the quotient is changed
    by rounding; p95 is the element of the sorted sequence at index
    floor(0.95 * len), an index the sequence always has (0 when it is
    empty).  For a single successful result p95 is its latency, and
    whenever the successful latencies are 10, 20, ..., 100 in some
    order the average is 55 and p95 is 100. *)
Theorem calculateMetrics_latency_statistics (results : list QueryResult) (duration : Q) :
  let succ := total_latency_ms <$> filter (fun r => status r = Success) results in
  let sorted := latencies_of results in
  let m := calculateMetrics results duration in
  Sorted Qle sorted /\ sorted ≡ₚ succ /\
  avg_latency_ms m =
    match succ with
    | [] => Num 0
    | _ => js_div_number (Array_reduce js_add (Num 0) sorted)
                         (inject_Z (Z.of_nat (length succ)))
    end /\
  ((forall k, k <= length sorted -> exact64 (Qsum (take k sorted))) ->
   exact64 (Qsum succ / inject_Z (Z.of_nat (length succ))) ->
   exists avg, avg_latency_ms m = Num avg /\
     (avg == match succ with
             | [] => 0
             | _ => Qsum succ / inject_Z (Z.of_nat (length succ))
             end)%Q) /\
  (succ = [] -> p95_latency_ms m = Some 0%Q) /\
  (succ <> [] ->
   exists k x, 100 * k <= 95 * length succ < 100 * (k + 1) /\
               sorted !! k = Some x /\ p95_latency_ms m = Some x) /\
  (forall x, succ = [x] -> p95_latency_ms m = Some x) /\
  (succ ≡ₚ scenario_latencies ->
   (exists avg, avg_latency_ms m = Num avg /\ (avg == 55)%Q) /\
   p95_latency_ms m = Some 100%Q).
Proof.
  intros succ sorted m.
  assert (sorted ≡ₚ succ) as Hperm by apply latencies_of_perm.
  assert (Sorted Qle sorted) as Hsorted by apply Array_sort_sorted.
  assert (avg_latency_ms m =
          if decide (0 < length sorted)
          then js_div_number (Array_reduce js_add (Num 0) sorted)
                             (inject_Z (Z.of_nat (length sorted)))
          else Num 0) as Havg by reflexivity.
  assert (p95_latency_ms m =
          if decide (0 < length sorted)
          then sorted !! p95_index (length sorted) else Some 0%Q) as Hp by reflexivity.
  clearbody succ sorted m.
  assert (length sorted = length succ) as Hlen by by rewrite Hperm.
  assert (forall n : nat, 0 < n -> ~ (inject_Z (Z.of_nat n) == 0)%Q) as Hnz.
  { intros n Hn H0. unfold Qeq in H0. simpl in H0. lia. }
  assert (Hp95 : succ <> [] ->
     exists k x, 100 * k <= 95 * length succ < 100 * (k + 1) /\
                 sorted !! k = Some x /\ p95_latency_ms m = Some x).
  { intros Hne.
    assert (0 < length succ) as Hpos by (destruct succ; simpl; [done|lia]).
    destruct (lookup_lt_is_Some_2 sorted (p95_index (length sorted))) as [x Hx].
    { apply p95_index_lt. lia. }
    exists (p95_index (length sorted)), x.
    split; [rewrite Hlen; apply p95_index_floor|]. split; [done|].
    rewrite Hp. destruct (decide (0 < length sorted)); [done|lia]. }
  assert (Hmean : avg_latency_ms m =
     match succ with
     | [] => Num 0
     | _ => js_div_number (Array_reduce js_add (Num 0) sorted)
                          (inject_Z (Z.of_nat (length succ)))
     end).
  { rewrite Havg, Hlen. destruct succ as [|x t]; [done|].
    rewrite decide_True by (simpl; lia). done. }
  split; [done|]. split; [done|]. split; [done|].
  split; [|split; [|split; [done|split]]].
  - intros Hprefix Hquot. rewrite Hmean.
    destruct succ as [|x t] eqn:Es; [by exists 0%Q|]. rewrite <- Es in *.
    destruct (reduce_js_add_exact sorted 0 0 ltac:(reflexivity)) as (s & Hs & Hsum).
    { intros k Hk. destruct (Hprefix k Hk) as (y & Hy & Hyx).
      exists y. split; [rewrite <- Hy; apply round64_Qeq; ring|rewrite Hyx; ring]. }
    destruct Hquot as (y & Hy & Hyx).
    exists y. split; [|done].
    rewrite Hs. cbn [js_div_number]. rewrite js_div_finite.
    + rewrite <- Hy. apply round64_Qeq.
      rewrite Hsum, Qplus_0_l, (Qsum_perm _ _ Hperm). reflexivity.
    + apply Hnz. rewrite Es. simpl. lia.
  - intros Hnil. rewrite Hp.
    destruct (decide (0 < length sorted)) as [Hpos|Hz]; [|done].
    rewrite Hlen, Hnil in Hpos. simpl in Hpos. lia.
  - intros x Hx. destruct Hp95 as (k & y & Hk & Hy & ->); [by rewrite Hx|].
    rewrite Hx in Hk, Hperm. simpl in Hk. assert (k = 0) as -> by lia.
    apply Permutation_singleton_r in Hperm. rewrite Hperm in Hy. done.
  - intros Hscen.
    assert (length succ = 10) as Hten by by rewrite Hscen.
    assert (sorted = scenario_latencies) as Hs.
    { apply (Sorted_unique_strong Qle); [|done|apply scenario_latencies_sorted|].
      - intros x1 x2 H1 H2. apply scenario_latencies_distinct; [|done].
        by rewrite <- Hscen, <- Hperm.
      - by rewrite Hperm. }
    split.
    + rewrite Havg, Hs. eexists. split; [vm_compute; reflexivity|].
      vm_compute. reflexivity.
    + destruct Hp95 as (k & y & Hk & Hy & ->); [by destruct succ|].
      rewrite Hten in Hk. assert (k = 9) as -> by lia.
      rewrite Hs in Hy. by injection Hy as <-.
Qed.

Lemma calculateMetrics_latency_statistics_witness :
  (exists avg, avg_latency_ms (calculateMetrics scenario_results 2) = Num avg /\
               (avg == 55)%Q) /\
  p95_latency_ms (calculateMetrics scenario_results 2) = Some 100%Q.
Proof.
  apply (calculateMetrics_latency_statistics scenario_results 2).
  rewrite <- (Array_sort_perm (fun a b => (a - b)%Q)). reflexivity.
Defined.

(** The average is the one of binary64 arithmetic: for the latencies
    0.1, 0.2 and 0.3 it is 0.20000000000000004, the double above
    their exact mean. *)
Lemma avg_latency_ms_binary64 :
  let double x := match round64 x with Num q => q | _ => 0%Q end in
  let result t :=
    {| status := Success; tenant_id := "a"; dataset := "sales";
       rows := Some 1%Z; bytes := Some 1%Z;
       metadata_latency_ms := Some t; transfer_latency_ms := Some 0%Q;
       total_latency_ms := t; error := None |} in
  avg_latency_ms
    (calculateMetrics [result (double (3 # 10)); result (double (1 # 10));
                       result (double (2 # 10))] 1) =
  Num (7205759403792795 # 36028797018963968).
Proof. vm_compute. reflexivity. Qed.

(* ===================================================================== *)
(** * Properties of the protocol client                                   *)
(* ===================================================================== *)

Lemma Zsum_cons (x : Z) (l : list Z) : Zsum (x :: l) = (x + Zsum l)%Z.
Proof. reflexivity. Qed.

Lemma Zsum_app (l1 l2 : list Z) : Zsum (l1 ++ l2) = (Zsum l1 + Zsum l2)%Z.
Proof.
  induction l1 as [|x l1 IH]; [done|].
  rewrite <- app_comm_cons, !Zsum_cons. lia.
Qed.

Section DoGet_facts.
Variable gateway : Gateway.

Lemma data_chunks_app (d1 d2 : list FlightData) :
  data_chunks (d1 ++ d2) = data_chunks d1 ++ data_chunks d2.
Proof. unfold data_chunks. by rewrite omap_app, filter_app. Qed.

Lemma fold_on_data (datas : list FlightData) (st : doGet_state) :
  fold_left (doGet_handle gateway) (OnData <$> datas) st =
  {| chunks := chunks st ++ data_chunks datas; outcome := outcome st |}.
Proof.
  revert st. induction datas as [|fd datas IH]; intros st; simpl.
  - rewrite app_nil_r. by destruct st.
  - rewrite IH. change (fd :: datas) with ([fd] ++ datas).
    rewrite data_chunks_app, app_assoc. f_equal; [f_equal|].
    + unfold on_data, data_chunks. simpl.
      destruct (data_body fd) as [body|]; simpl; [|by rewrite app_nil_r].
      rewrite filter_cons, filter_nil.
      destruct (decide (0 < Buffer_length body)); simpl; [done|by rewrite app_nil_r].
    + unfold on_data. destruct (data_body fd); [|done].
      by destruct (decide _).
Qed.

Lemma settle_settled {A : Type} (p new : promise A) :
  p <> Pending -> settle p new = p.
Proof. by destruct p. Qed.

Lemma outcome_final (events : list stream_event) (st : doGet_state) :
  outcome st <> Pending ->
  outcome (fold_left (doGet_handle gateway) events st) = outcome st.
Proof.
  revert st. induction events as [|ev events IH]; intros st Hst; simpl; [done|].
  assert (outcome (doGet_handle gateway st ev) = outcome st) as Hev.
  { destruct ev as [fd| |err]; simpl.
    - unfold on_data. destruct (data_body fd); [|done]. by destruct (decide _).
    - by apply settle_settled.
    - by apply settle_settled. }
  rewrite IH; rewrite Hev; done.
Qed.

Lemma decode_loop_spec (cs : list Buffer) (totalRows totalBytes : Z) (tables : list Table) :
  match decode_loop gateway cs totalRows totalBytes tables with
  | inl e => exists c, c ∈ cs /\ tableFromIPC gateway c = inl e
  | inr (r, b, ts) =>
      Forall (decodes gateway) cs /\
      r = (totalRows + Zsum (row_count gateway <$> cs))%Z /\
      b = (totalBytes + Zsum (Z.of_nat ∘ Buffer_length <$> cs))%Z /\
      length ts = length tables + length cs
  end.
Proof.
  revert totalRows totalBytes tables.
  induction cs as [|c cs IH]; intros r b ts; cbn [decode_loop].
  - repeat split; [constructor|unfold Zsum; simpl; lia..|simpl; lia].
  - destruct (tableFromIPC gateway c) as [e|table] eqn:E.
    + exists c. split; [left|done].
    + specialize (IH (r + numRows table)%Z (b + Z.of_nat (Buffer_length c))%Z (ts ++ [table])).
      destruct (decode_loop _ _ _ _ _) as [e|[[r' b'] ts']].
      * destruct IH as (c' & Hin & Hc'). exists c'. split; [by right|done].
      * destruct IH as (Hall & -> & -> & Hlen). repeat split.
        -- constructor; [by exists table|done].
        -- rewrite fmap_cons, Zsum_cons.
           assert (row_count gateway c = numRows table) as ->
               by (unfold row_count; by rewrite E).
           lia.
        -- rewrite fmap_cons, Zsum_cons. simpl. lia.
        -- rewrite Hlen, length_app. simpl. lia.
Qed.

Lemma chunk_bytes (datas : list FlightData) :
  Zsum (Z.of_nat ∘ Buffer_length <$> data_chunks datas) =
  Zsum (Z.of_nat ∘ body_length <$> datas).
Proof.
  induction datas as [|fd datas IH]; [done|].
  change (fd :: datas) with ([fd] ++ datas).
  rewrite data_chunks_app, !fmap_app, !Zsum_app, IH. f_equal.
  unfold data_chunks, body_length. simpl.
  destruct (data_body fd) as [body|]; simpl; [|done].
  rewrite filter_cons, filter_nil.
  destruct (decide (0 < Buffer_length body)); simpl; [done|].
  assert (Buffer_length body = 0) as -> by lia. done.
Qed.

(** What the 'end' handler settles a pending promise with. *)
Lemma on_end_spec (datas : list FlightData) :
  match outcome (on_end gateway {| chunks := data_chunks datas; outcome := Pending |}) with
  | Pending => False
  | Rejected e => exists c, c ∈ data_chunks datas /\ tableFromIPC gateway c = inl e
  | Fulfilled res =>
      Forall (decodes gateway) (data_chunks datas) /\ complete_result gateway datas res
  end.
Proof.
  unfold on_end, complete_result. cbn [chunks outcome settle].
  destruct (decide (length (data_chunks datas) = 0)) as [Hz|Hnz].
  - apply nil_length_inv in Hz. cbn [dg_rows dg_bytes].
    rewrite <- chunk_bytes, Hz. repeat split; constructor.
  - pose proof (decode_loop_spec (data_chunks datas) 0 0 []) as H.
    destruct (decode_loop _ _ _ _ _) as [e|[[r b] ts]]; [done|].
    destruct H as (Hall & -> & -> & _). cbn [dg_rows dg_bytes].
    rewrite chunk_bytes. repeat split; [done|lia..].
Qed.

Lemma doGet_events_end (datas : list FlightData) (rest : list stream_event) :
  doGet_events gateway ((OnData <$> datas) ++ OnEnd :: rest) =
  outcome (on_end gateway {| chunks := data_chunks datas; outcome := Pending |}).
Proof.
  unfold doGet_events. rewrite fold_left_app, fold_on_data. simpl.
  pose proof (on_end_spec datas) as H.
  rewrite outcome_final; [done|].
  by destruct (outcome (on_end _ _)).
Qed.

Lemma doGet_events_error (datas : list FlightData) (err : JsError) (rest : list stream_event) :
  doGet_events gateway ((OnData <$> datas) ++ OnError err :: rest) = Rejected err.
Proof.
  unfold doGet_events. rewrite fold_left_app, fold_on_data. simpl.
  by rewrite outcome_final.
Qed.

(** Every sequence of events is data up to a first terminal event, or
    data only. *)
Lemma events_split (events : list stream_event) :
  (exists datas, events = OnData <$> datas) \/
  (exists datas rest, events = (OnData <$> datas) ++ OnEnd :: rest) \/
  (exists datas err rest, events = (OnData <$> datas) ++ OnError err :: rest).
Proof.
  induction events as [|ev events IH].
  - left. by exists [].
  - destruct ev as [fd| |err].
    + destruct IH as [[ds ->]|[(ds & rest & ->)|(ds & err & rest & ->)]].
      * left. by exists (fd :: ds).
      * right; left. by exists (fd :: ds), rest.
      * right; right. by exists (fd :: ds), err, rest.
    + right; left. by exists [], events.
    + right; right. by exists [], err, events.
Qed.

Lemma doGet_events_data (datas : list FlightData) :
  doGet_events gateway (OnData <$> datas) = Pending.
Proof. unfold doGet_events. by rewrite fold_on_data. Qed.

End DoGet_facts.

(** C4.  A fetch is all or nothing.  If the stream reports an error the
    promise is rejected with it; if the stream ends and some chunk does
    not decode the promise is rejected; and whenever the promise is
    fulfilled, the stream ended normally, every chunk received before
    its end decoded, and the result counts the rows of all those
    chunks and the bytes of all those messages.  A clean stream does
    fulfil the promise.  The first terminal event decides: what the
    stream emits after it changes nothing. *)
Theorem doGet_all_or_nothing (gateway : Gateway) (events : list stream_event) :
  (forall datas err rest,
      events = (OnData <$> datas) ++ OnError err :: rest ->
      doGet_events gateway events = Rejected err) /\
  (forall datas rest chunk,
      events = (OnData <$> datas) ++ OnEnd :: rest ->
      chunk ∈ data_chunks datas -> ~ decodes gateway chunk ->
      exists err, doGet_events gateway events = Rejected err) /\
  (forall res,
      doGet_events gateway events = Fulfilled res ->
      exists datas rest,
        events = (OnData <$> datas) ++ OnEnd :: rest /\
        Forall (decodes gateway) (data_chunks datas) /\
        complete_result gateway datas res) /\
  (forall datas rest,
      events = (OnData <$> datas) ++ OnEnd :: rest ->
      Forall (decodes gateway) (data_chunks datas) ->
      exists res, doGet_events gateway events = Fulfilled res /\
                  complete_result gateway datas res).
Proof.
  repeat split.
  - intros datas err rest ->. apply doGet_events_error.
  - intros datas rest chunk -> Hin Hbad.
    rewrite doGet_events_end. pose proof (on_end_spec gateway datas) as H.
    destruct (outcome (on_end _ _)) as [|res|err]; [done| |by exists err].
    destruct H as [Hall _]. rewrite Forall_forall in Hall.
    exfalso. by apply Hbad, Hall.
  - intros res Hres.
    destruct (events_split events) as [[ds ->]|[(ds & rest & ->)|(ds & err & rest & ->)]].
    + by rewrite doGet_events_data in Hres.
    + exists ds, rest. split; [done|].
      rewrite doGet_events_end in Hres. pose proof (on_end_spec gateway ds) as H.
      by rewrite Hres in H.
    + by rewrite doGet_events_error in Hres.
  - intros datas rest -> Hall.
    rewrite doGet_events_end. pose proof (on_end_spec gateway datas) as H.
    destruct (outcome (on_end _ _)) as [|res|err]; [done|exists res; by destruct H|].
    destruct H as (c & Hin & Hc). rewrite Forall_forall in Hall.
    destruct (Hall c Hin) as [t Ht]. congruence.
Qed.

Lemma doGet_all_or_nothing_witness :
  (exists err,
      doGet_events (example_gateway [])
                   [OnData {| data_body := Some "A1234" |};
                    OnData {| data_body := Some "corrupt" |};
                    OnEnd] = Rejected err) /\
  doGet_events (example_gateway [])
               [OnData {| data_body := Some "A1234" |};
                OnError (mkError "14 UNAVAILABLE");
                OnEnd] =
  Rejected (mkError "14 UNAVAILABLE").
Proof.
  split.
  - apply (proj1 (proj2 (doGet_all_or_nothing (example_gateway []) _))
                 [{| data_body := Some "A1234" |}; {| data_body := Some "corrupt" |}]
                 [] "corrupt" eq_refl).
    + vm_compute. right. left.
    + intros [t Ht]. discriminate Ht.
  - apply (proj1 (doGet_all_or_nothing (example_gateway []) _)
                 [{| data_body := Some "A1234" |}] (mkError "14 UNAVAILABLE") [OnEnd]).
    reflexivity.
Defined.

(** C8.  A stream that ends normally without a data chunk (no message,
    or only messages with an empty or missing body) fulfils the fetch
    with 0 rows and 0 bytes. *)
Theorem doGet_zero_chunks (gateway : Gateway) (rest : list stream_event) :
  let nothing := {| dg_table := None; dg_rows := 0; dg_bytes := 0 |} in
  doGet_events gateway (OnEnd :: rest) = Fulfilled nothing /\
  (forall datas,
      data_chunks datas = [] ->
      doGet_events gateway ((OnData <$> datas) ++ OnEnd :: rest) = Fulfilled nothing) /\
  (forall t w,
      DoGet gateway (ticket t) = OnEnd :: rest ->
      (doGet gateway t w).1 = Return (Fulfilled nothing)).
Proof.
  intros nothing.
  assert (forall datas, data_chunks datas = [] ->
            doGet_events gateway ((OnData <$> datas) ++ OnEnd :: rest) = Fulfilled nothing) as H.
  { intros datas Hnil. rewrite doGet_events_end. unfold on_end.
    cbn [chunks outcome settle]. rewrite Hnil. done. }
  split; [exact (H [] eq_refl)|]. split; [exact H|].
  intros t w Hev. unfold doGet, issue, mbind, M_bind, mret, M_ret. cbn.
  rewrite Hev. f_equal. exact (H [] eq_refl).
Qed.

Lemma doGet_zero_chunks_witness :
  doGet_events (example_gateway [])
               [OnData {| data_body := None |};
                OnData {| data_body := Some "" |};
                OnEnd] =
  Fulfilled {| dg_table := None; dg_rows := 0; dg_bytes := 0 |}.
Proof.
  apply (proj1 (proj2 (doGet_zero_chunks (example_gateway []) []))
               [{| data_body := None |}; {| data_body := Some "" |}]).
  reflexivity.
Defined.

Lemma Number_toString_safe (n : Z) :
  (Z.abs n < 2 ^ 53)%Z -> Number_toString n = pretty n.
Proof.
  intros Hn. destruct n as [|a|a]; [done| |]; cbn [Number_toString];
    unfold Number_toString_magnitude;
    rewrite (proj2 (Z.ltb_lt (Z.pos a) (2 ^ 53))) by lia; done.
Qed.

(** C5, as the code has it.  The descriptor sent by [getFlightInfo] is
    of type PATH; its path is the tenant id, then the dataset name,
    then [String(rows)] exactly when a row limit is given and is
    neither 0 nor NaN (a negative or an infinite one included); there
    is no other segment.  The third segment is the limit in plain
    decimal digits as long as its magnitude is below 2^53, the
    shortest decimal that denotes the double beyond, in exponent form
    from 10^21 on, and "Infinity" out of the range of the doubles. *)
Theorem getFlightInfo_descriptor_path (gateway : Gateway) (tenantId datasetName : string)
        (rows : option row_limit) (w : world) :
  (exists descriptor,
     getFlightInfo gateway tenantId datasetName rows w =
       (Return (GetFlightInfo gateway descriptor),
        {| clock := clock w; reads := reads w;
           calls := calls w ++ [CallGetFlightInfo descriptor] |}) /\
     type descriptor = PATH /\
     path descriptor =
       [tenantId; datasetName] ++
       match rows with
       | Some (RowsInt n) => if decide (n = 0%Z) then [] else [Number_toString n]
       | _ => []
       end) /\
  (forall n, (Z.abs n < 2 ^ 53)%Z -> Number_toString n = pretty n) /\
  Number_toString (10 ^ 21 - 131072) = "999999999999999900000" /\
  Number_toString (10 ^ 21) = "1e+21" /\
  Number_toString (- (123456789 * 10 ^ 15)) = "-1.23456789e+23" /\
  Number_toString (2 ^ 1024) = "Infinity".
Proof.
  split; [|split; [apply Number_toString_safe|repeat split; vm_compute; reflexivity]].
  eexists. split; [reflexivity|]. split; [reflexivity|].
  cbn [path]. unfold descriptor_path, truthy, String_, Buffer_from.
  destruct rows as [[|n]|]; [done| |done].
  destruct (decide (n = 0%Z)) as [->|Hn]; [done|].
  apply Z.eqb_neq in Hn. by rewrite Hn.
Qed.

(** C5 fails as stated: a row limit that is provided but not positive
    still adds a third segment. *)
Lemma descriptor_path_negative_limit :
  descriptor_path "tenant_001" "sales" (Some (RowsInt (-5))) =
  ["tenant_001"; "sales"; "-5"].
Proof. vm_compute. reflexivity. Qed.

(** C3, as the code has it.  When the resolution succeeds with an
    endpoint list of length 0, [queryDataset] returns an Error result
    whose message is "No endpoints returned", with no transfer-phase
    latency, and the only call issued is the resolution: the fetch is
    never attempted. *)
Theorem queryDataset_no_endpoints (gateway : Gateway) (tenantId dataset : string)
        (rows : option row_limit) (w : world) (info : FlightInfo) :
  let descriptor := {| type := PATH; path := descriptor_path tenantId dataset rows |} in
  GetFlightInfo gateway descriptor = Fulfilled info ->
  endpoint info = Some [] ->
  exists r w',
    queryDataset gateway tenantId dataset rows w = (Return r, w') /\
    status r = Error /\
    error r = Some "No endpoints returned" /\
    transfer_latency_ms r = None /\
    calls w' = calls w ++ [CallGetFlightInfo descriptor].
Proof.
  intros descriptor Hinfo Hnil.
  destruct info as [eps]. cbn in Hnil. subst eps.
  unfold queryDataset, try_catch, mbind, M_bind, mret, M_ret, performance_now,
    getFlightInfo, issue, await, throw.
  cbn. fold descriptor. rewrite Hinfo. cbn.
  eexists _, _. split; [reflexivity|]. cbn. done.
Qed.

Lemma queryDataset_no_endpoints_witness :
  exists r w',
    queryDataset (example_gateway []) "tenant_001" "sales" None example_world = (Return r, w') /\
    status r = Error /\
    error r = Some "No endpoints returned" /\
    transfer_latency_ms r = None /\
    calls w' = [CallGetFlightInfo {| type := PATH; path := ["tenant_001"; "sales"] |}].
Proof.
  apply (queryDataset_no_endpoints (example_gateway []) "tenant_001" "sales" None
           example_world {| endpoint := Some [] |}); reflexivity.
Defined.

(** C3 fails as stated: the message of the Error result is not
    "no endpoints". *)
Lemma queryDataset_no_endpoints_message :
  exists r w',
    queryDataset (example_gateway []) "tenant_001" "sales" None example_world = (Return r, w') /\
    status r = Error /\
    error r = Some "No endpoints returned" /\
    error r <> Some "no endpoints".
Proof.
  eexists _, _. split; [vm_compute; reflexivity|]. cbn. repeat split. discriminate.
Qed.

Lemma answer_final (events : list health_event) (st : health_state) :
  answer st <> Pending ->
  answer (fold_left checkHealth_handle events st) = answer st.
Proof.
  revert st. induction events as [|ev events IH]; intros st Hst; simpl; [done|].
  assert (answer (checkHealth_handle st ev) = answer st) as Hev.
  { destruct ev as [[fd| |err]|]; simpl; try done; by apply settle_settled. }
  rewrite IH; rewrite Hev; done.
Qed.

Lemma answer_not_rejected (events : list health_event) (st : health_state) :
  (forall err, answer st <> Rejected err) ->
  forall err, answer (fold_left checkHealth_handle events st) <> Rejected err.
Proof.
  revert st. induction events as [|ev events IH]; intros st Hst; simpl; [done|].
  apply IH. intros err.
  specialize (Hst err).
  destruct ev as [[fd| |err']|]; simpl;
    destruct (answer st); simpl; congruence.
Qed.

Lemma fold_health_data (datas : list FlightData) (st : health_state) :
  fold_left checkHealth_handle (Stream ∘ OnData <$> datas) st =
  {| healthy := healthy st || bool_decide (datas <> []);
     cancelled := cancelled st; answer := answer st |}.
Proof.
  revert st. induction datas as [|fd datas IH]; intros st; simpl.
  - rewrite orb_false_r. by destruct st.
  - rewrite IH. cbn [healthy cancelled answer checkHealth_handle]. f_equal.
    by rewrite orb_true_r.
Qed.

(** C6.  The probe never rejects.  Once the timer has fired it is
    resolved, with a value later events cannot change.  The first of
    stream end, stream error and timer decides the answer: true at a
    normal end, false at a stream error, and at the timer true exactly
    when a response unit was seen before it. *)
Theorem checkHealth_always_answers (events : list health_event) :
  (forall err, checkHealth events <> Rejected err) /\
  (forall before after,
      events = before ++ Timeout :: after ->
      exists b, checkHealth (before ++ [Timeout]) = Fulfilled b /\
                checkHealth events = Fulfilled b) /\
  (forall datas after,
      events = (Stream ∘ OnData <$> datas) ++ Stream OnEnd :: after ->
      checkHealth events = Fulfilled true) /\
  (forall datas err after,
      events = (Stream ∘ OnData <$> datas) ++ Stream (OnError err) :: after ->
      checkHealth events = Fulfilled false) /\
  (forall datas after,
      events = (Stream ∘ OnData <$> datas) ++ Timeout :: after ->
      checkHealth events = Fulfilled (bool_decide (datas <> []))).
Proof.
  assert (Hnr : forall evs err, checkHealth evs <> Rejected err).
  { intros evs. unfold checkHealth, checkHealth_run. by apply answer_not_rejected. }
  split; [apply Hnr|]. split; [|repeat split].
  - intros before after ->.
    assert (exists b, checkHealth (before ++ [Timeout]) = Fulfilled b) as [b Hb].
    { specialize (Hnr before). unfold checkHealth, checkHealth_run in *.
      rewrite fold_left_app. simpl.
      destruct (answer (fold_left _ before _)) as [|b|err]; simpl; eauto.
      by destruct (Hnr err). }
    exists b. split; [done|].
    unfold checkHealth, checkHealth_run in *.
    change (Timeout :: after) with ([Timeout] ++ after).
    rewrite app_assoc, fold_left_app, answer_final; rewrite Hb; done.
  - intros datas after ->. unfold checkHealth, checkHealth_run.
    rewrite fold_left_app, fold_health_data. simpl. by rewrite answer_final.
  - intros datas err after ->. unfold checkHealth, checkHealth_run.
    rewrite fold_left_app, fold_health_data. simpl. by rewrite answer_final.
  - intros datas after ->. unfold checkHealth, checkHealth_run.
    rewrite fold_left_app, fold_health_data. simpl. by rewrite answer_final.
Qed.

Lemma checkHealth_always_answers_witness :
  checkHealth [Stream (OnData {| data_body := None |}); Timeout;
               Stream (OnError (mkError "1 CANCELLED"))] = Fulfilled true /\
  checkHealth [Timeout; Stream (OnError (mkError "1 CANCELLED"))] = Fulfilled false /\
  checkHealth [Stream (OnError (mkError "14 UNAVAILABLE")); Timeout] = Fulfilled false /\
  checkHealth [Stream OnEnd; Timeout] = Fulfilled true.
Proof.
  split; [|split; [|split]].
  - apply (proj2 (proj2 (proj2 (proj2 (checkHealth_always_answers _))))
                 [{| data_body := None |}] [Stream (OnError (mkError "1 CANCELLED"))]).
    reflexivity.
  - apply (proj2 (proj2 (proj2 (proj2 (checkHealth_always_answers _))))
                 [] [Stream (OnError (mkError "1 CANCELLED"))]).
    reflexivity.
  - apply (proj1 (proj2 (proj2 (proj2 (checkHealth_always_answers _))))
                 [] (mkError "14 UNAVAILABLE") [Timeout]).
    reflexivity.
  - apply (proj1 (proj2 (proj2 (checkHealth_always_answers _))) [] [Timeout]).
    reflexivity.
Defined.

(* ===================================================================== *)
(** * Properties of runLoadTest                                           *)
(* ===================================================================== *)

Lemma pending_in_inj (all : list request) (p : nat) (rs1 rs2 : list job) :
  pending_in all p rs1 -> pending_in all p rs2 -> rs1 = rs2.
Proof. intros [t1 H1] [t2 H2]. congruence. Qed.

Lemma pending_not_fulfilled (all : list request) (p : nat) (rs : list job) :
  pending_in all p rs -> is_fulfilled all p = false.
Proof. intros [t H]. unfold is_fulfilled. by rewrite H. Qed.

Lemma pending_or_fulfilled (all : list request) (p : nat) :
  p < length all ->
  is_fulfilled all p = true \/ exists rs, pending_in all p rs.
Proof.
  intros Hp. destruct (lookup_lt_is_Some_2 all p Hp) as [[t [rs|r]] H].
  - right. exists rs, t. done.
  - left. unfold is_fulfilled. by rewrite H.
Qed.

Lemma pending_in_lt (all : list request) (p : nat) (rs : list job) :
  pending_in all p rs -> p < length all.
Proof. intros [t H]. by eapply lookup_lt_Some. Qed.

Lemma is_fulfilled_lt (all : list request) (p : nat) :
  is_fulfilled all p = true -> p < length all.
Proof.
  unfold is_fulfilled. destruct (all !! p) eqn:E; [|done].
  intros _. by eapply lookup_lt_Some.
Qed.

Lemma then_fold (f : nat -> job) (members : list nat) (all : list request) (js : list job) :
  NoDup members ->
  exists all',
    fold_left (fun a p => then_ (f p) a p) members (all, js) =
      (all', js ++ (f <$> filter (fun p => is_fulfilled all p) members)) /\
    length all' = length all /\
    (forall p, is_fulfilled all' p = is_fulfilled all p) /\
    (forall p, req_tenant <$> all' !! p = req_tenant <$> all !! p) /\
    (forall p rs, pending_in all p rs ->
       pending_in all' p (if decide (p ∈ members) then rs ++ [f p] else rs)).
Proof.
  intros Hnd. revert all js.
  induction members as [|p ms IH]; intros all js.
  - exists all. simpl. rewrite app_nil_r. repeat split; try done.
  - apply NoDup_cons in Hnd as [Hp Hms]. specialize (IH Hms).
    cbn [fold_left]. unfold then_ at 2. cbn [fst snd].
    destruct (all !! p) as [[t [rs0|r0]]|] eqn:E.
    + destruct (IH (<[p := mkRequest t (PPending (rs0 ++ [f p]))]> all) js)
        as (all' & Hfold & Hlen & Hful & Hten & Hpend).
      assert (forall q, is_fulfilled (<[p := mkRequest t (PPending (rs0 ++ [f p]))]> all) q
                        = is_fulfilled all q) as Hsame.
      { intros q. unfold is_fulfilled. destruct (decide (q = p)) as [->|Hq].
        - rewrite list_lookup_insert_eq by by eapply lookup_lt_Some. by rewrite E.
        - by rewrite list_lookup_insert_ne. }
      exists all'. split; [|split; [|split; [|split]]].
      * rewrite Hfold. f_equal. f_equal. f_equal.
        rewrite filter_cons.
        assert (is_fulfilled all p = false) as Hpf by (unfold is_fulfilled; by rewrite E).
        destruct (decide (is_fulfilled all p)) as [Hc|_]; [by rewrite Hpf in Hc|].
        apply list_filter_iff. intros q. by rewrite Hsame.
      * by rewrite Hlen, length_insert.
      * intros q. by rewrite Hful.
      * intros q. rewrite Hten. destruct (decide (q = p)) as [->|Hq].
        -- rewrite list_lookup_insert_eq by by eapply lookup_lt_Some. by rewrite E.
        -- by rewrite list_lookup_insert_ne.
      * intros q rs [t' Hq]. destruct (decide (q = p)) as [->|Hne].
        -- assert (rs = rs0 /\ t' = t) as [-> ->] by (split; congruence).
           specialize (Hpend p (rs0 ++ [f p])).
           rewrite decide_False in Hpend by done.
           rewrite decide_True by left. apply Hpend. exists t.
           apply list_lookup_insert_eq. by eapply lookup_lt_Some.
        -- specialize (Hpend q rs).
           destruct (decide (q ∈ ms)) as [Hin|Hnin].
           ++ rewrite decide_True by by right. apply Hpend. exists t'.
              by rewrite list_lookup_insert_ne.
           ++ rewrite decide_False by (rewrite elem_of_cons; intros [?|?]; done).
              apply Hpend. exists t'. by rewrite list_lookup_insert_ne.
    + destruct (IH all (js ++ [f p])) as (all' & Hfold & Hlen & Hful & Hten & Hpend).
      exists all'. split; [|split; [|split; [|split]]]; try done.
      * rewrite Hfold. f_equal. rewrite filter_cons.
        assert (is_fulfilled all p = true) as Hpf by (unfold is_fulfilled; by rewrite E).
        destruct (decide (is_fulfilled all p)) as [_|Hc]; [|by rewrite Hpf in Hc].
        by rewrite fmap_cons, <- app_assoc.
      * intros q rs Hq. assert (q <> p) as Hne.
        { intros ->. destruct Hq as [t' Hq]. congruence. }
        specialize (Hpend q rs Hq).
        destruct (decide (q ∈ ms)) as [Hin|Hnin].
        -- by rewrite decide_True by by right.
        -- by rewrite decide_False by (rewrite elem_of_cons; intros [?|?]; done).
    + destruct (IH all js) as (all' & Hfold & Hlen & Hful & Hten & Hpend).
      exists all'. split; [|split; [|split; [|split]]]; try done.
      * rewrite Hfold. f_equal. rewrite filter_cons.
        assert (is_fulfilled all p = false) as Hpf by (unfold is_fulfilled; by rewrite E).
        destruct (decide (is_fulfilled all p)) as [Hc|_]; [by rewrite Hpf in Hc|done].
      * intros q rs Hq. assert (q <> p) as Hne.
        { intros ->. destruct Hq as [t' Hq]. congruence. }
        specialize (Hpend q rs Hq).
        destruct (decide (q ∈ ms)) as [Hin|Hnin].
        -- by rewrite decide_True by by right.
        -- by rewrite decide_False by (rewrite elem_of_cons; intros [?|?]; done).
Qed.

Lemma filter_ext_in {A : Type} (P Q : A -> Prop)
      `{!forall x, Decision (P x)} `{!forall x, Decision (Q x)} (l : list A) :
  (forall x, x ∈ l -> P x <-> Q x) -> filter P l = filter Q l.
Proof.
  induction l as [|x l IH]; intros Hpq; [done|].
  rewrite !filter_cons.
  assert (P x <-> Q x) as Hx by (apply Hpq; left).
  rewrite IH by (intros y Hy; apply Hpq; by right).
  destruct (decide (P x)), (decide (Q x)); tauto.
Qed.

Lemma length_filter_remove (p : nat) (l : list nat) :
  NoDup l -> p ∈ l -> length (filter (fun q => q <> p) l) + 1 = length l.
Proof.
  induction 1 as [|x l Hx Hnd IH]; intros Hin; [by apply elem_of_nil in Hin|].
  rewrite filter_cons. destruct (decide (x <> p)) as [Hne|He].
  - apply elem_of_cons in Hin as [->|Hin]; [done|]. simpl. rewrite <- IH by done. lia.
  - assert (x = p) as -> by (destruct (decide (x = p)); [done|by destruct He]).
    simpl. f_equal. rewrite Nat.add_1_r. f_equal.
    assert (filter (fun q => q <> p) l = l) as ->; [|done].
    clear IH Hin. induction l as [|y l IH]; [done|].
    rewrite filter_cons. apply not_elem_of_cons in Hx as [Hy Hl].
    apply NoDup_cons in Hnd as [_ Hnd].
    rewrite decide_True by done. f_equal. by apply IH.
Qed.

Lemma filter_remove_absent (p : nat) (l : list nat) :
  p ∉ l -> filter (fun q => q <> p) l = l.
Proof.
  induction l as [|y l IH]; intros Hp; [done|].
  apply not_elem_of_cons in Hp as [Hy Hl].
  rewrite filter_cons, decide_True by done. f_equal. by apply IH.
Qed.

Lemma is_pending_lookup (all : list request) (p : nat) :
  (is_pending <$> all !! p = Some true) <-> (p < length all /\ is_fulfilled all p = false).
Proof.
  unfold is_fulfilled, is_pending. split.
  - destruct (all !! p) as [[t [rs|r]]|] eqn:E; simpl; try done.
    intros _. split; [by eapply lookup_lt_Some|done].
  - intros [Hlt Hf]. destruct (lookup_lt_is_Some_2 all p Hlt) as [[t [rs|r]] E];
      rewrite E in *; simpl; done.
Qed.

Lemma outstanding_alt (s : state) :
  outstanding s =
  filter (fun p => is_fulfilled (allPromises s) p = false) (seq 0 (length (allPromises s))).
Proof.
  unfold outstanding. apply filter_ext_in. intros p Hp.
  rewrite is_pending_lookup. apply elem_of_seq in Hp.
  split; [by intros [_ ?]|]. intros Hf. split; [lia|done].
Qed.

Lemma elem_of_outstanding (s : state) (p : nat) :
  p ∈ outstanding s <-> exists rs, pending_in (allPromises s) p rs.
Proof.
  unfold outstanding. rewrite list_elem_of_filter, elem_of_seq. split.
  - intros [H _]. unfold pending_in.
    destruct (allPromises s !! p) as [[t [rs|r]]|] eqn:E; simpl in H; try done.
    by exists rs, t.
  - intros [rs [t H]]. rewrite H. simpl. split; [done|].
    apply lookup_lt_Some in H. lia.
Qed.

Lemma NoDup_outstanding (s : state) : NoDup (outstanding s).
Proof. unfold outstanding. apply NoDup_filter, NoDup_seq. Qed.

Section Machine_facts.

Variable cfg : config.

Lemma is_fulfilled_app_l (all : list request) (rq : request) (p : nat) :
  is_fulfilled (all ++ [mkRequest (req_tenant rq) (PPending (match req_state rq with PPending rs => rs | _ => [] end))]) p = is_fulfilled all p.
Proof.
  unfold is_fulfilled. destruct (decide (p < length all)) as [Hlt|Hge].
  - by rewrite lookup_app_l.
  - rewrite (lookup_ge_None_2 all) by lia.
    destruct (decide (p = length all)) as [->|Hne].
    + by rewrite list_lookup_middle.
    + rewrite lookup_ge_None_2; [done|]. rewrite length_app. simpl. lia.
Qed.

Lemma is_fulfilled_snoc_pending (all : list request) (t : option string) (rs : list job) (p : nat) :
  is_fulfilled (all ++ [mkRequest t (PPending rs)]) p = is_fulfilled all p.
Proof. apply (is_fulfilled_app_l all (mkRequest t (PPending rs))). Qed.

Lemma loop_step_admit (s s' : state) :
  (Z.of_nat (i s) < totalRequests cfg)%Z ->
  length (allPromises s) = i s ->
  (forall p, p ∈ pending s -> p < i s) ->
  NoDup (pending s) ->
  (forall p rs, pending_in (allPromises s) p rs -> p ∈ pending s) ->
  s' = loop_step cfg s ->
  i s' = S (i s) /\ results s' = results s /\ startTime s' = startTime s /\
  pending s' = pending s ++ [i s] /\
  length (allPromises s') = S (i s) /\
  (forall p, is_fulfilled (allPromises s') p = is_fulfilled (allPromises s) p) /\
  (forall p, p < i s ->
             req_tenant <$> allPromises s' !! p = req_tenant <$> allPromises s !! p) /\
  req_tenant <$> allPromises s' !! i s =
    Some (tenants cfg !! (i s mod length (tenants cfg))) /\
  (forall p rs, pending_in (allPromises s) p rs ->
     pending_in (allPromises s') p
                (rs ++ if cap_reached cfg s then [JRaceThen (i s) p] else [])) /\
  pending_in (allPromises s') (i s)
             (JFinally (i s) :: if cap_reached cfg s then [JRaceThen (i s) (i s)] else []) /\
  jobs s' = jobs s ++
            (if cap_reached cfg s
             then JRaceThen (i s) <$> filter (fun p => is_fulfilled (allPromises s) p) (pending s)
             else []) /\
  ctl s' = if cap_reached cfg s then AwaitRace (i s) false else Running.
Proof.
  intros Hlt Hlen Hpend Hnd Hreact ->.
  unfold loop_step, cap_reached.
  apply Z.ltb_lt in Hlt. rewrite Hlt.
  assert (i s ∉ pending s) as Hfresh by (intros Hin; apply Hpend in Hin; lia).
  unfold Set_add. rewrite Hlen, decide_False by done.
  set (tenant := tenants cfg !! (i s mod length (tenants cfg))).
  set (all1 := allPromises s ++ [mkRequest tenant (PPending [JFinally (i s)])]).
  assert (then_ (JFinally (i s))
                (allPromises s ++ [mkRequest tenant (PPending [])], jobs s) (i s)
          = (all1, jobs s)) as ->.
  { unfold then_. cbn [fst snd]. rewrite <- Hlen at 1. rewrite list_lookup_middle by done.
    unfold all1. f_equal. rewrite <- Hlen.
    rewrite insert_app_r_alt by lia. by rewrite Nat.sub_diag. }
  assert (length all1 = S (i s)) as Hlen1.
  { unfold all1. rewrite length_app. simpl. lia. }
  assert (forall p, is_fulfilled all1 p = is_fulfilled (allPromises s) p) as Hful1.
  { intros p. apply is_fulfilled_snoc_pending. }
  assert (forall p, p < i s -> all1 !! p = allPromises s !! p) as Hold1.
  { intros p Hp. unfold all1. rewrite lookup_app_l by lia. done. }
  assert (all1 !! i s = Some (mkRequest tenant (PPending [JFinally (i s)]))) as Hnew1.
  { unfold all1. rewrite <- Hlen. by rewrite list_lookup_middle. }
  destruct (concurrency cfg <=? Z.of_nat (length (pending s ++ [i s])))%Z eqn:Hcap.
  - assert (NoDup (pending s ++ [i s])) as Hnd'.
    { apply NoDup_app. split; [done|]. split; [|apply NoDup_singleton].
      intros x Hx Hx'. apply list_elem_of_singleton in Hx'. by subst. }
    destruct (then_fold (JRaceThen (i s)) (pending s ++ [i s]) all1 (jobs s) Hnd')
      as (all2 & Hfold & Hlen2 & Hful2 & Hten2 & Hpend2).
    unfold Promise_race. rewrite Hfold. cbn [i results startTime pending allPromises jobs ctl].
    repeat split; try done.
    + lia.
    + intros p. by rewrite Hful2, Hful1.
    + intros p Hp. by rewrite Hten2, Hold1.
    + by rewrite Hten2, Hnew1.
    + intros p rs Hp. specialize (Hpend2 p rs).
      rewrite decide_True in Hpend2.
      2:{ apply elem_of_app. left. by eapply Hreact. }
      apply Hpend2. destruct Hp as [t Hp]. exists t.
      rewrite Hold1; [done|]. apply lookup_lt_Some in Hp. lia.
    + specialize (Hpend2 (i s) [JFinally (i s)]).
      rewrite decide_True in Hpend2 by (apply elem_of_app; right; left).
      apply Hpend2. by exists tenant.
    + f_equal. f_equal. rewrite filter_app, filter_cons, filter_nil.
      rewrite decide_False.
      2:{ rewrite Hful1. unfold is_fulfilled.
          rewrite lookup_ge_None_2 by lia. simpl. tauto. }
      rewrite app_nil_r. apply filter_ext_in. intros p _. by rewrite Hful1.
  - cbn [i results startTime pending allPromises jobs ctl].
    repeat split; try done.
    + intros p Hp. by rewrite Hold1.
    + by rewrite Hnew1.
    + intros p rs [t Hp]. rewrite app_nil_r. exists t.
      rewrite Hold1; [done|]. apply lookup_lt_Some in Hp. lia.
    + by exists tenant.
    + by rewrite app_nil_r.
Qed.

Lemma loop_step_exit (s s' : state) :
  ~ (Z.of_nat (i s) < totalRequests cfg)%Z ->
  s' = loop_step cfg s ->
  i s' = i s /\ results s' = results s /\ startTime s' = startTime s /\
  pending s' = pending s /\
  length (allPromises s') = length (allPromises s) /\
  (forall p, is_fulfilled (allPromises s') p = is_fulfilled (allPromises s) p) /\
  (forall p, req_tenant <$> allPromises s' !! p = req_tenant <$> allPromises s !! p) /\
  (forall p rs, pending_in (allPromises s) p rs ->
     pending_in (allPromises s') p (rs ++ [JAllThen p])) /\
  jobs s' = (jobs s ++
             (JAllThen <$> filter (fun p => is_fulfilled (allPromises s) p)
                                  (seq 0 (length (allPromises s))))) ++
            (if decide (length (allPromises s) = 0) then [JResume] else []) /\
  ctl s' = AwaitAll (length (allPromises s)).
Proof.
  intros Hge ->. unfold loop_step.
  assert ((Z.of_nat (i s) <? totalRequests cfg)%Z = false) as -> by by apply Z.ltb_ge; lia.
  destruct (then_fold JAllThen (seq 0 (length (allPromises s))) (allPromises s) (jobs s)
                      (NoDup_seq _ _))
    as (all' & Hfold & Hlen & Hful & Hten & Hpend).
  unfold Promise_all. cbn [fst snd]. rewrite Hfold.
  cbn [i results startTime pending allPromises jobs ctl].
  repeat split; try done.
  - intros p rs Hp. specialize (Hpend p rs Hp).
    rewrite decide_True in Hpend; [done|].
    apply elem_of_seq. apply pending_in_lt in Hp. lia.
  - destruct (decide (length (allPromises s) = 0)); [done|by rewrite app_nil_r].
Qed.

Lemma coherent_init (now : Q) : coherent cfg (init now).
Proof.
  split; cbn; try done.
  - by left.
  - intros p Hp. lia.
  - intros p Hp. by apply elem_of_nil in Hp.
  - constructor.
  - intros p rs [t H]. done.
  - intros p H. by apply elem_of_nil in H.
  - intros r p H. by apply elem_of_nil in H.
  - intros q rs r p [t H]. done.
  - intros _. split; [done|]. intros p rs [t H]. done.
Qed.

Lemma count_all_app (a b : list job) : count_all (a ++ b) = count_all a + count_all b.
Proof. unfold count_all. by rewrite filter_app, length_app. Qed.

Lemma count_all_cons (j : job) (js : list job) :
  count_all (j :: js) = (if is_all_then j then 1 else 0) + count_all js.
Proof.
  unfold count_all. rewrite filter_cons.
  by destruct (is_all_then j).
Qed.

Lemma count_all_race (r : nat) (l : list nat) : count_all (JRaceThen r <$> l) = 0.
Proof. induction l as [|x l IH]; [done|]. by rewrite fmap_cons, count_all_cons. Qed.

Lemma count_all_all (l : list nat) : count_all (JAllThen <$> l) = length l.
Proof.
  induction l as [|x l IH]; [done|].
  rewrite fmap_cons, count_all_cons, IH. done.
Qed.

Lemma count_all_if_race (b : bool) (r p : nat) :
  count_all (if b then [JRaceThen r p] else []) = 0.
Proof. by destruct b. Qed.

Lemma elem_of_if_race (b : bool) (r p : nat) (j : job) :
  j ∈ (if b then [JRaceThen r p] else []) -> b = true /\ j = JRaceThen r p.
Proof.
  destruct b; intros H; [|by apply elem_of_nil in H].
  apply list_elem_of_singleton in H. done.
Qed.

Lemma is_fulfilled_ge (all : list request) (p : nat) :
  length all <= p -> is_fulfilled all p = false.
Proof. intros H. unfold is_fulfilled. by rewrite lookup_ge_None_2. Qed.

Lemma length_outstanding_admit (s s' : state) :
  length (allPromises s') = S (length (allPromises s)) ->
  (forall p, is_fulfilled (allPromises s') p = is_fulfilled (allPromises s) p) ->
  length (outstanding s') = S (length (outstanding s)).
Proof.
  intros Hlen Hful. rewrite !outstanding_alt, Hlen, seq_S, filter_app, length_app.
  rewrite filter_cons, filter_nil, decide_True.
  2:{ rewrite Hful. by apply is_fulfilled_ge. }
  simpl. rewrite Nat.add_1_r. f_equal. f_equal.
  apply filter_ext_in. intros p _. by rewrite Hful.
Qed.

Lemma outstanding_same (s s' : state) :
  length (allPromises s') = length (allPromises s) ->
  (forall p, is_fulfilled (allPromises s') p = is_fulfilled (allPromises s) p) ->
  outstanding s' = outstanding s.
Proof.
  intros Hlen Hful. rewrite !outstanding_alt, Hlen.
  apply filter_ext_in. intros p _. by rewrite Hful.
Qed.

Lemma coherent_admit (s : state) :
  coherent cfg s -> ctl s = Running ->
  (Z.of_nat (i s) < totalRequests cfg)%Z ->
  coherent cfg (loop_step cfg s).
Proof.
  intros Hc Hrun Hlt.
  destruct (loop_step_admit s (loop_step cfg s) Hlt (coh_length cfg s Hc) (coh_pending_lt cfg s Hc)
              (coh_nodup cfg s Hc) (fun p rs H => proj1 (coh_reactions cfg s Hc p rs H)) eq_refl)
    as (Hi & Hres & Hst & Hpend & Hlen & Hful & Hten & Hnew & Hreg & Hregnew & Hjobs & Hctl).
  set (s' := loop_step cfg s) in *. clearbody s'.
  pose proof (coh_length cfg s Hc) as Hlen0.
  assert (Hconv : forall p rs', pending_in (allPromises s') p rs' ->
            (p = i s /\ rs' = JFinally (i s) ::
                                if cap_reached cfg s then [JRaceThen (i s) (i s)] else []) \/
            (exists rs, pending_in (allPromises s) p rs /\
                        rs' = rs ++ if cap_reached cfg s then [JRaceThen (i s) p] else [])).
  { intros p rs' Hp. destruct (decide (p = i s)) as [->|Hne].
    - left. split; [done|]. by eapply pending_in_inj.
    - right. pose proof (pending_in_lt _ _ _ Hp) as Hplt.
      destruct (pending_or_fulfilled (allPromises s) p) as [Hf|[rs Hrs]]; [lia| |].
      + rewrite <- Hful in Hf. apply pending_not_fulfilled in Hp. congruence.
      + exists rs. split; [done|]. eapply pending_in_inj; [done|]. by apply Hreg. }
  assert (before_all (ctl s')) as Hbefore by (rewrite Hctl; by destruct (cap_reached cfg s)).
  split.
  - lia.
  - right. lia.
  - intros Hex. rewrite Hctl in Hex. by destruct (cap_reached cfg s).
  - intros p Hp. destruct (decide (p = i s)) as [->|Hne]; [done|].
    rewrite Hten by lia. apply (coh_tenant cfg s Hc). lia.
  - intros p Hp. rewrite Hpend in Hp. apply elem_of_app in Hp as [Hp|Hp].
    + apply (coh_pending_lt cfg s Hc) in Hp. lia.
    + apply list_elem_of_singleton in Hp. lia.
  - rewrite Hpend. apply NoDup_app. split; [by apply (coh_nodup cfg s)|].
    split; [|apply NoDup_singleton].
    intros x Hx Hx'. apply list_elem_of_singleton in Hx'. subst.
    apply (coh_pending_lt cfg s Hc) in Hx. lia.
  - intros p rs' Hp. rewrite Hpend.
    destruct (Hconv p rs' Hp) as [[-> ->]|(rs & Hrs & ->)].
    + split; [apply elem_of_app; right; left|].
      eexists. split; [done|]. intros q Hq.
      apply elem_of_if_race in Hq as [_ Hq]. done.
    + destruct (coh_reactions cfg s Hc p rs Hrs) as (Hin & tl & -> & Htl).
      split; [apply elem_of_app; by left|].
      eexists. split; [by rewrite <- app_comm_cons|].
      intros q Hq. apply elem_of_app in Hq as [Hq|Hq]; [by apply (Htl q)|].
      apply elem_of_if_race in Hq as [_ Hq]. done.
  - intros p Hp Hin. rewrite Hful in Hp. rewrite Hjobs. apply elem_of_app. left.
    apply (coh_finally cfg s Hc p Hp).
    rewrite Hpend in Hin. apply elem_of_app in Hin as [Hin|Hin]; [done|].
    apply list_elem_of_singleton in Hin. subst.
    rewrite is_fulfilled_ge in Hp by lia. done.
  - intros p Hp. rewrite Hful. apply (coh_finally_fulfilled cfg s Hc).
    rewrite Hjobs in Hp. apply elem_of_app in Hp as [Hp|Hp]; [done|].
    destruct (cap_reached cfg s); [|by apply elem_of_nil in Hp].
    apply list_elem_of_fmap in Hp as (x & Hx & _). done.
  - intros r p Hp. rewrite Hjobs in Hp. apply elem_of_app in Hp as [Hp|Hp].
    + apply (coh_race_fresh cfg s Hc) in Hp. lia.
    + destruct (cap_reached cfg s); [|by apply elem_of_nil in Hp].
      apply list_elem_of_fmap in Hp as (x & Hx & _). injection Hx as -> _. lia.
  - intros q rs' r p Hq Hin.
    destruct (Hconv q rs' Hq) as [[-> ->]|(rs & Hrs & ->)].
    + apply elem_of_cons in Hin as [Hin|Hin]; [done|].
      apply elem_of_if_race in Hin as [_ Hin]. injection Hin as -> _. lia.
    + apply elem_of_app in Hin as [Hin|Hin].
      * apply (coh_race_fresh_reg cfg s Hc q rs r p Hrs) in Hin. lia.
      * apply elem_of_if_race in Hin as [_ Hin]. injection Hin as -> _. lia.
  - intros r Hr p rs' Hp. rewrite Hctl in Hr.
    destruct (cap_reached cfg s); [|done]. injection Hr as <-.
    destruct (Hconv p rs' Hp) as [[-> ->]|(rs & Hrs & ->)].
    + right. left.
    + apply elem_of_app. right. left.
  - rewrite Hres, (length_outstanding_admit s s') by (try done; lia).
    pose proof (coh_results cfg s Hc). lia.
  - intros _. destruct (coh_no_all cfg s Hc) as [Hj Hr]; [by rewrite Hrun|].
    split.
    + rewrite Hjobs, count_all_app, Hj.
      destruct (cap_reached cfg s); [by rewrite count_all_race|done].
    + intros p rs' Hp.
      destruct (Hconv p rs' Hp) as [[-> ->]|(rs & Hrs & ->)].
      * rewrite count_all_cons, count_all_if_race. done.
      * rewrite count_all_app, count_all_if_race, (Hr p rs Hrs). done.
  - intros n Hn. rewrite Hctl in Hn. by destruct (cap_reached cfg s).
  - intros m Hm. rewrite Hctl in Hm. by destruct (cap_reached cfg s).
Qed.

Lemma fulfilled_partition (all : list request) (l : list nat)
      `{!forall p, Decision (Is_true (is_fulfilled all p))}
      `{!forall p, Decision (is_fulfilled all p = false)} :
  length (filter (fun p => Is_true (is_fulfilled all p)) l) +
  length (filter (fun p => is_fulfilled all p = false) l) = length l.
Proof.
  induction l as [|x l IH]; [done|].
  rewrite !filter_cons.
  destruct (decide (Is_true (is_fulfilled all x))) as [Ht|Ht],
           (decide (is_fulfilled all x = false)) as [Hf|Hf]; simpl; try lia.
  - rewrite Hf in Ht. done.
  - destruct (is_fulfilled all x); [by destruct Ht|done].
Qed.

Lemma count_all_resume {P : Prop} (b : {P} + {~ P}) :
  count_all (if b then [JResume] else []) = 0.
Proof. by destruct b. Qed.

Lemma coherent_exit (s : state) :
  coherent cfg s -> ctl s = Running ->
  ~ (Z.of_nat (i s) < totalRequests cfg)%Z ->
  coherent cfg (loop_step cfg s).
Proof.
  intros Hc Hrun Hge.
  destruct (loop_step_exit s (loop_step cfg s) Hge eq_refl)
    as (Hi & Hres & Hst & Hpend & Hlen & Hful & Hten & Hreg & Hjobs & Hctl).
  set (s' := loop_step cfg s) in *. clearbody s'.
  assert (Hconv : forall p rs', pending_in (allPromises s') p rs' ->
            exists rs, pending_in (allPromises s) p rs /\ rs' = rs ++ [JAllThen p]).
  { intros p rs' Hp. pose proof (pending_in_lt _ _ _ Hp) as Hplt.
    destruct (pending_or_fulfilled (allPromises s) p) as [Hf|[rs Hrs]]; [lia| |].
    - rewrite <- Hful in Hf. apply pending_not_fulfilled in Hp. congruence.
    - exists rs. split; [done|]. eapply pending_in_inj; [done|]. by apply Hreg. }
  assert (Hold : forall j, j ∈ jobs s' -> is_all_then j = false -> j <> JResume -> j ∈ jobs s).
  { intros j Hj Hna Hnr. rewrite Hjobs in Hj.
    apply elem_of_app in Hj as [Hj|Hj].
    - apply elem_of_app in Hj as [Hj|Hj]; [done|].
      apply list_elem_of_fmap in Hj as (x & -> & _). done.
    - destruct (decide _); [|by apply elem_of_nil in Hj].
      apply list_elem_of_singleton in Hj. done. }
  split.
  - by rewrite Hlen, Hi, (coh_length cfg s Hc).
  - rewrite Hi. apply (coh_bound cfg s Hc).
  - intros _. lia.
  - intros p Hp. rewrite Hten. apply (coh_tenant cfg s Hc). lia.
  - intros p Hp. rewrite Hpend in Hp. rewrite Hi. by apply (coh_pending_lt cfg s Hc).
  - rewrite Hpend. apply (coh_nodup cfg s Hc).
  - intros p rs' Hp. destruct (Hconv p rs' Hp) as (rs & Hrs & ->).
    destruct (coh_reactions cfg s Hc p rs Hrs) as (Hin & tl & -> & Htl).
    rewrite Hpend. split; [done|].
    eexists. split; [by rewrite <- app_comm_cons|].
    intros q Hq. apply elem_of_app in Hq as [Hq|Hq]; [by apply (Htl q)|].
    apply list_elem_of_singleton in Hq. done.
  - intros p Hp Hin. rewrite Hful in Hp. rewrite Hpend in Hin.
    rewrite Hjobs. apply elem_of_app. left. apply elem_of_app. left.
    by apply (coh_finally cfg s Hc).
  - intros p Hp. rewrite Hful. apply (coh_finally_fulfilled cfg s Hc). by apply Hold.
  - intros r p Hp. rewrite Hi. apply (coh_race_fresh cfg s Hc r p). by apply Hold.
  - intros q rs' r p Hq Hin. destruct (Hconv q rs' Hq) as (rs & Hrs & ->).
    rewrite Hi. apply (coh_race_fresh_reg cfg s Hc q rs r p Hrs).
    apply elem_of_app in Hin as [Hin|Hin]; [done|].
    apply list_elem_of_singleton in Hin. done.
  - intros r Hr. by rewrite Hctl in Hr.
  - rewrite Hres, Hlen, (outstanding_same s s') by done. apply (coh_results cfg s Hc).
  - intros Hb. by rewrite Hctl in Hb.
  - intros n Hn. rewrite Hctl in Hn. injection Hn as <-.
    destruct (coh_no_all cfg s Hc) as [Hj Hr]; [by rewrite Hrun|].
    split.
    + rewrite Hjobs, !count_all_app, Hj, count_all_all.
      rewrite (outstanding_same s s'), outstanding_alt by done.
      pose proof (fulfilled_partition (allPromises s) (seq 0 (length (allPromises s)))) as Hp.
      rewrite length_seq in Hp. rewrite count_all_resume. lia.
    + intros p rs' Hp. destruct (Hconv p rs' Hp) as (rs & Hrs & ->).
      rewrite count_all_app, (Hr p rs Hrs). done.
  - intros m Hm. by rewrite Hctl in Hm.
Qed.

Lemma complete_inv (p : nat) (result : QueryResult) (s s' : state) :
  complete p result s = Some s' ->
  exists t rs,
    allPromises s !! p = Some (mkRequest t (PPending rs)) /\
    s' = {| i := i s; results := results s ++ [result]; pending := pending s;
            allPromises := <[p := mkRequest t (PFulfilled result)]> (allPromises s);
            jobs := jobs s ++ rs; ctl := ctl s; startTime := startTime s |}.
Proof.
  unfold complete. destruct (allPromises s !! p) as [[t [rs|r]]|] eqn:E; try done.
  intros [= <-]. by exists t, rs.
Qed.

Lemma is_fulfilled_insert (all : list request) (p q : nat) (t : option string)
      (result : QueryResult) :
  p < length all ->
  is_fulfilled (<[p := mkRequest t (PFulfilled result)]> all) q =
  if decide (q = p) then true else is_fulfilled all q.
Proof.
  intros Hp. unfold is_fulfilled. destruct (decide (q = p)) as [->|Hne].
  - by rewrite list_lookup_insert_eq.
  - by rewrite list_lookup_insert_ne.
Qed.

Lemma pending_in_insert (all : list request) (p q : nat) (t : option string)
      (result : QueryResult) (rs : list job) :
  p < length all ->
  pending_in (<[p := mkRequest t (PFulfilled result)]> all) q rs <->
  q <> p /\ pending_in all q rs.
Proof.
  intros Hp. unfold pending_in. destruct (decide (q = p)) as [->|Hne].
  - rewrite list_lookup_insert_eq by done. split; [by intros [t' H]|by intros [H _]].
  - rewrite list_lookup_insert_ne by done. tauto.
Qed.

Lemma length_outstanding_complete (s s' : state) (p : nat) (t : option string)
      (result : QueryResult) (rs : list job) :
  allPromises s !! p = Some (mkRequest t (PPending rs)) ->
  allPromises s' = <[p := mkRequest t (PFulfilled result)]> (allPromises s) ->
  length (outstanding s') + 1 = length (outstanding s).
Proof.
  intros Hp Hall.
  pose proof (lookup_lt_Some _ _ _ Hp) as Hlt.
  rewrite <- (length_filter_remove p (outstanding s)).
  - f_equal. f_equal. rewrite !outstanding_alt, Hall, length_insert, list_filter_filter.
    apply filter_ext_in. intros q _. rewrite is_fulfilled_insert by done.
    destruct (decide (q = p)); [|tauto]. split; [done|]. by intros [? _].
  - apply NoDup_outstanding.
  - apply elem_of_outstanding. by exists rs, t.
Qed.

Lemma coherent_complete (s s' : state) (p : nat) (result : QueryResult) :
  coherent cfg s -> (forall m, ctl s <> Finished m) ->
  complete p result s = Some s' ->
  coherent cfg s'.
Proof.
  intros Hc Hnf Hstep.
  destruct (complete_inv p result s s' Hstep) as (t & rs & Hp & ->).
  pose proof (lookup_lt_Some _ _ _ Hp) as Hlt.
  assert (pending_in (allPromises s) p rs) as Hpp by by exists t.
  destruct (coh_reactions cfg s Hc p rs Hpp) as (Hin & tl & Hrs & Htl).
  split; cbn [i results pending allPromises jobs ctl startTime].
  - rewrite length_insert. apply (coh_length cfg s Hc).
  - apply (coh_bound cfg s Hc).
  - apply (coh_exit cfg s Hc).
  - intros q Hq. destruct (decide (q = p)) as [->|Hne].
    + rewrite list_lookup_insert_eq by done. simpl.
      pose proof (coh_tenant cfg s Hc p Hq) as Ht. rewrite Hp in Ht. done.
    + rewrite list_lookup_insert_ne by done. by apply (coh_tenant cfg s Hc).
  - apply (coh_pending_lt cfg s Hc).
  - apply (coh_nodup cfg s Hc).
  - intros q rs' Hq. apply pending_in_insert in Hq as [_ Hq]; [|done].
    by apply (coh_reactions cfg s Hc).
  - intros q Hq Hqin. rewrite is_fulfilled_insert in Hq by done.
    apply elem_of_app. destruct (decide (q = p)) as [->|Hne].
    + right. rewrite Hrs. left.
    + left. by apply (coh_finally cfg s Hc).
  - intros q Hq. rewrite is_fulfilled_insert by done.
    destruct (decide (q = p)); [done|].
    apply elem_of_app in Hq as [Hq|Hq]; [by apply (coh_finally_fulfilled cfg s Hc)|].
    rewrite Hrs in Hq. apply elem_of_cons in Hq as [[= ->]|Hq]; [done|].
    by apply Htl in Hq.
  - intros r q Hq. apply elem_of_app in Hq as [Hq|Hq].
    + by apply (coh_race_fresh cfg s Hc r q).
    + by apply (coh_race_fresh_reg cfg s Hc p rs r q).
  - intros q rs' r q' Hq Hin'. apply pending_in_insert in Hq as [_ Hq]; [|done].
    by apply (coh_race_fresh_reg cfg s Hc q rs' r q').
  - intros r Hr q rs' Hq. apply pending_in_insert in Hq as [_ Hq]; [|done].
    by apply (coh_race_registered cfg s Hc r Hr).
  - rewrite length_app, length_insert. simpl.
    pose proof (length_outstanding_complete s
      {| i := i s; results := results s ++ [result]; pending := pending s;
         allPromises := <[p := mkRequest t (PFulfilled result)]> (allPromises s);
         jobs := jobs s ++ rs; ctl := ctl s; startTime := startTime s |}
      p t result rs Hp eq_refl) as Hout.
    pose proof (coh_results cfg s Hc). lia.
  - intros Hb. destruct (coh_no_all cfg s Hc Hb) as [Hj Hr]. split.
    + by rewrite count_all_app, Hj, (Hr p rs Hpp).
    + intros q rs' Hq. apply pending_in_insert in Hq as [_ Hq]; [|done]. by eapply Hr.
  - intros n Hn. destruct (coh_all cfg s Hc n Hn) as [Hcount Hr]. split.
    + pose proof (length_outstanding_complete s
        {| i := i s; results := results s ++ [result]; pending := pending s;
           allPromises := <[p := mkRequest t (PFulfilled result)]> (allPromises s);
           jobs := jobs s ++ rs; ctl := ctl s; startTime := startTime s |}
        p t result rs Hp eq_refl) as Hout.
      rewrite count_all_app, (Hr p rs Hpp). lia.
    + intros q rs' Hq. apply pending_in_insert in Hq as [_ Hq]; [|done]. by eapply Hr.
  - intros m Hm. by destruct (Hnf m).
Qed.

Lemma count_all_zero (js : list job) :
  count_all js = 0 <-> forall j, j ∈ js -> is_all_then j = false.
Proof.
  induction js as [|x js IH].
  - split; [|done]. intros _ j Hj. by apply elem_of_nil in Hj.
  - rewrite count_all_cons. split.
    + intros H j Hj. apply elem_of_cons in Hj as [->|Hj].
      * destruct (is_all_then x); [simpl in H; lia|done].
      * apply IH; [|done]. destruct (is_all_then x); simpl in H; lia.
    + intros H. rewrite (H x) by left. simpl. apply IH.
      intros j Hj. apply H. by right.
Qed.

(** A micro-task that touches neither the promises nor [pending]: the
    queue loses its head (never a [JFinally]) and may gain a [JResume]. *)
Lemma coherent_requeue (s : state) (jobs' : list job) (ctl' : control) :
  coherent cfg s ->
  (forall q, JFinally q ∈ jobs s -> JFinally q ∈ jobs') ->
  (forall j, j ∈ jobs' -> j ∈ jobs s \/ j = JResume) ->
  (loop_exited ctl' -> loop_exited (ctl s)) ->
  (forall r, ctl' = AwaitRace r false -> ctl s = AwaitRace r false) ->
  (before_all ctl' -> before_all (ctl s)) ->
  (forall n, ctl' = AwaitAll n ->
     (exists n0, ctl s = AwaitAll n0) /\
     n = length (outstanding s) + count_all jobs') ->
  (forall m, ctl' = Finished m ->
     length (results s) = Z.to_nat (totalRequests cfg) /\
     exists d, m = calculateMetrics (results s) d) ->
  coherent cfg {| i := i s; results := results s; pending := pending s;
              allPromises := allPromises s; jobs := jobs'; ctl := ctl';
              startTime := startTime s |}.
Proof.
  intros Hc Hfin Hsub Hex Hrace Hbefore Hall Hdone.
  split; cbn [i results pending allPromises jobs ctl startTime].
  - apply (coh_length cfg s Hc).
  - apply (coh_bound cfg s Hc).
  - intros H. by apply (coh_exit cfg s Hc), Hex.
  - apply (coh_tenant cfg s Hc).
  - apply (coh_pending_lt cfg s Hc).
  - apply (coh_nodup cfg s Hc).
  - apply (coh_reactions cfg s Hc).
  - intros p Hp Hin. by apply Hfin, (coh_finally cfg s Hc).
  - intros p Hp. apply (coh_finally_fulfilled cfg s Hc).
    by destruct (Hsub _ Hp).
  - intros r p Hp. apply (coh_race_fresh cfg s Hc r p). by destruct (Hsub _ Hp).
  - apply (coh_race_fresh_reg cfg s Hc).
  - intros r Hr. by apply (coh_race_registered cfg s Hc), Hrace.
  - rewrite <- (coh_results cfg s Hc). f_equal.
  - intros Hb. destruct (coh_no_all cfg s Hc (Hbefore Hb)) as [Hj Hr]. split; [|done].
    apply count_all_zero. intros j Hj'. destruct (Hsub j Hj') as [Hin| ->]; [|done].
    rewrite count_all_zero in Hj. by apply Hj.
  - intros n Hn. destruct (Hall n Hn) as [[n0 Hn0] Hcount].
    split; [exact Hcount|]. apply (coh_all cfg s Hc n0 Hn0).
  - apply Hdone.
Qed.

Lemma coherent_finally (s : state) (p : nat) (rest : list job) :
  coherent cfg s -> jobs s = JFinally p :: rest ->
  coherent cfg {| i := i s; results := results s; pending := Set_delete p (pending s);
              allPromises := allPromises s; jobs := rest; ctl := ctl s;
              startTime := startTime s |}.
Proof.
  intros Hc Hjobs.
  assert (is_fulfilled (allPromises s) p = true) as Hp.
  { apply (coh_finally_fulfilled cfg s Hc). rewrite Hjobs. left. }
  assert (forall j, j ∈ rest -> j ∈ jobs s) as Hsub.
  { intros j Hj. rewrite Hjobs. by right. }
  split; cbn [i results pending allPromises jobs ctl startTime].
  - apply (coh_length cfg s Hc).
  - apply (coh_bound cfg s Hc).
  - apply (coh_exit cfg s Hc).
  - apply (coh_tenant cfg s Hc).
  - intros q Hq. apply list_elem_of_filter in Hq as [_ Hq]. by apply (coh_pending_lt cfg s Hc).
  - apply NoDup_filter, (coh_nodup cfg s Hc).
  - intros q rs Hq. destruct (coh_reactions cfg s Hc q rs Hq) as [Hin Htl].
    split; [|done]. apply list_elem_of_filter. split; [|done].
    intros ->. apply pending_not_fulfilled in Hq. congruence.
  - intros q Hq Hin. apply list_elem_of_filter in Hin as [Hne Hin].
    pose proof (coh_finally cfg s Hc q Hq Hin) as Hj. rewrite Hjobs in Hj.
    apply elem_of_cons in Hj as [[= ->]|Hj]; done.
  - intros q Hq. by apply (coh_finally_fulfilled cfg s Hc), Hsub.
  - intros r q Hq. by apply (coh_race_fresh cfg s Hc r q), Hsub.
  - apply (coh_race_fresh_reg cfg s Hc).
  - apply (coh_race_registered cfg s Hc).
  - rewrite <- (coh_results cfg s Hc). f_equal.
  - intros Hb. destruct (coh_no_all cfg s Hc Hb) as [Hj Hr]. split; [|done].
    rewrite Hjobs, count_all_cons in Hj. simpl in Hj. done.
  - intros n Hn. destruct (coh_all cfg s Hc n Hn) as [Hcount Hr]. split; [|done].
    rewrite Hjobs, count_all_cons in Hcount. simpl in Hcount. exact Hcount.
  - apply (coh_finished cfg s Hc).
Qed.

Lemma finished_counts (s : state) :
  coherent cfg s -> ctl s = AwaitAll 0 ->
  length (results s) = Z.to_nat (totalRequests cfg).
Proof.
  intros Hc Hctl.
  destruct (coh_all cfg s Hc 0 Hctl) as [Hcount _].
  pose proof (coh_results cfg s Hc) as Hres.
  pose proof (coh_length cfg s Hc) as Hlen.
  pose proof (coh_exit cfg s Hc) as Hex. rewrite Hctl in Hex. specialize (Hex I).
  destruct (coh_bound cfg s Hc); lia.
Qed.

Lemma coherent_run_job (now : Q) (j : job) (rest : list job) (s : state) :
  coherent cfg s -> jobs s = j :: rest ->
  ctl s <> Running -> (forall m, ctl s <> Finished m) ->
  coherent cfg (run_job now j rest s).
Proof.
  intros Hc Hjobs Hnr Hnf.
  assert (forall x, x ∈ rest -> x ∈ jobs s) as Hrest.
  { intros x Hx. rewrite Hjobs. by right. }
  assert (forall q, (forall p, j <> JFinally p) -> JFinally q ∈ jobs s -> JFinally q ∈ rest)
    as Hfin.
  { intros q Hj Hq. rewrite Hjobs in Hq. apply elem_of_cons in Hq as [Hq|Hq]; [|done].
    by destruct (Hj q). }
  assert (forall x, x ∈ rest ++ [JResume] -> x ∈ jobs s \/ x = JResume) as Hsub.
  { intros x Hx. apply elem_of_app in Hx as [Hx|Hx]; [left; by apply Hrest|].
    right. by apply list_elem_of_singleton in Hx. }
  assert (forall n, ctl s = AwaitAll n ->
            n = length (outstanding s) + ((if is_all_then j then 1 else 0) + count_all rest))
    as Hcount.
  { intros n Hn. destruct (coh_all cfg s Hc n Hn) as [Hcnt _].
    by rewrite Hjobs, count_all_cons in Hcnt. }
  assert (forall n, ctl s = AwaitAll n -> exists n0, ctl s = AwaitAll n0) as Hsame
      by eauto.
  destruct j as [p|r p|p|].
  - assert (run_job now (JFinally p) rest s =
            {| i := i s; results := results s; pending := Set_delete p (pending s);
               allPromises := allPromises s; jobs := rest; ctl := ctl s;
               startTime := startTime s |}) as ->
        by (unfold run_job; by destruct (ctl s) as [|? []|[]|]).
    by apply coherent_finally.
  - assert (forall q, JFinally q ∈ jobs s -> JFinally q ∈ rest) as Hfin'
        by (intros q; by apply Hfin).
    unfold run_job. destruct (ctl s) as [|r' [|]|n|m] eqn:Hctl;
      [by destruct Hnr|..|by destruct (Hnf m)].
    + apply coherent_requeue;
        [done|done|by left; apply Hrest|done|done|by rewrite Hctl|done|done].
    + destruct (decide (r = r')) as [->|Hne].
      * apply coherent_requeue;
          [done| |done|done|done|by rewrite Hctl|done|done].
        intros q Hq. apply elem_of_app. left. by apply Hfin'.
      * apply coherent_requeue;
          [done|done|by left; apply Hrest|done|by rewrite Hctl|by rewrite Hctl|done|done].
    + apply coherent_requeue;
        [done|done|by left; apply Hrest|by rewrite Hctl|done|done| |done].
      intros n' [= <-]. split; [by exists n|]. by apply Hcount.
  - assert (forall q, JFinally q ∈ jobs s -> JFinally q ∈ rest) as Hfin'
        by (intros q; by apply Hfin).
    unfold run_job. destruct (ctl s) as [|r' b|[|n]|m] eqn:Hctl;
      [by destruct Hnr|..|by destruct (Hnf m)].
    + assert (coherent cfg
               {| i := i s; results := results s; pending := pending s;
                  allPromises := allPromises s; jobs := rest; ctl := AwaitRace r' b;
                  startTime := startTime s |}) as H; [|by destruct b].
      apply coherent_requeue;
        [done|done|by left; apply Hrest|done|by rewrite Hctl|by rewrite Hctl|done|done].
    + specialize (Hcount 0 eq_refl). simpl in Hcount. lia.
    + specialize (Hcount (S n) eq_refl). simpl in Hcount.
      apply coherent_requeue; [done| | |by rewrite Hctl|done|done| |done].
      * intros q Hq. destruct (decide (n = 0)); [apply elem_of_app; left|]; by apply Hfin'.
      * intros x Hx. destruct (decide (n = 0)); [by apply Hsub|left; by apply Hrest].
      * intros n' [= <-]. split; [by exists (S n)|].
        destruct (decide (n = 0));
          [rewrite count_all_app; change (count_all [JResume]) with 0|]; lia.
  - assert (forall q, JFinally q ∈ jobs s -> JFinally q ∈ rest) as Hfin'
        by (intros q; by apply Hfin).
    unfold run_job. destruct (ctl s) as [|r' [|]|[|n]|m] eqn:Hctl;
      [by destruct Hnr|..|by destruct (Hnf m)].
    + apply coherent_requeue;
        [done|done|by left; apply Hrest|done|done|by rewrite Hctl|done|done].
    + apply coherent_requeue;
        [done|done|by left; apply Hrest|done|by rewrite Hctl|by rewrite Hctl|done|done].
    + apply coherent_requeue;
        [done|done|by left; apply Hrest|by rewrite Hctl|done|done|done| ].
      intros m [= <-]. split; [by apply finished_counts|]. by eexists.
    + apply coherent_requeue;
        [done|done|by left; apply Hrest|by rewrite Hctl|done|done| |done].
      intros n' [= <-]. split; [by exists (S n)|]. by apply Hcount.
Qed.

Lemma coherent_step (s s' : state) (l : label) :
  coherent cfg s -> step cfg s l = Some s' -> coherent cfg s'.
Proof.
  intros Hc Hstep. unfold step in Hstep.
  destruct l as [|now|p result].
  - destruct (ctl s) eqn:Hctl; try done. injection Hstep as <-.
    destruct (decide (Z.of_nat (i s) < totalRequests cfg)%Z).
    + by apply coherent_admit.
    + by apply coherent_exit.
  - destruct (ctl s) eqn:Hctl; try done;
      (destruct (jobs s) as [|j rest] eqn:Hjobs; [done|]; injection Hstep as <-;
       apply coherent_run_job; [done|done|by rewrite Hctl|by rewrite Hctl]).
  - destruct (ctl s) eqn:Hctl; try done;
      (eapply coherent_complete; [done| |done]; by rewrite Hctl).
Qed.

Lemma coherent_steps (schedule : list label) (s s' : state) :
  coherent cfg s -> steps cfg s schedule = Some s' -> coherent cfg s'.
Proof.
  revert s. induction schedule as [|l ls IH]; intros s Hc Hsteps; simpl in Hsteps.
  - by injection Hsteps as <-.
  - destruct (step cfg s l) as [s1|] eqn:Hstep; [|done].
    apply (IH s1); [|done]. by eapply coherent_step.
Qed.

Lemma guarded_app (r : nat) (pend : list nat) (a b : list job) :
  guarded r pend a -> guarded r pend b -> guarded r pend (a ++ b).
Proof.
  intros Ha Hb. induction a as [|j a IH]; [done|].
  destruct j as [q|r' p|p|]; simpl in *.
  - destruct Ha as [Ha|Ha]; [by left|right; by apply IH].
  - destruct Ha as [Hne Ha]. split; [done|by apply IH].
  - by apply IH.
  - by apply IH.
Qed.

Lemma guarded_no_race (r : nat) (pend : list nat) (a : list job) :
  (forall p, JRaceThen r p ∉ a) -> guarded r pend a.
Proof.
  intros Ha. induction a as [|j a IH]; [done|].
  assert (guarded r pend a) as IH'.
  { apply IH. intros p Hp. apply (Ha p). by right. }
  destruct j as [q|r' p|p|]; simpl; [by right| |done..].
  split; [|done]. intros ->. apply (Ha p). left.
Qed.

Lemma guarded_closed (r : nat) (pend : list nat) (a b : list job) (q : nat) :
  (forall p, JRaceThen r p ∉ a) -> q ∈ pend -> JFinally q ∈ a ->
  guarded r pend (a ++ b).
Proof.
  intros Ha Hq Hin. induction a as [|j a IH]; [by apply elem_of_nil in Hin|].
  assert (forall p, JRaceThen r p ∉ a) as Ha'.
  { intros p Hp. apply (Ha p). by right. }
  apply elem_of_cons in Hin as [<-|Hin]; [by left|].
  specialize (IH Ha' Hin).
  destruct j as [q'|r' p|p|]; simpl; [by right| |done..].
  split; [|done]. intros ->. apply (Ha p). left.
Qed.

Lemma capped_init (now : Q) : (1 <= concurrency cfg)%Z -> capped cfg (init now).
Proof. intros Hpos. split; cbn; [lia|lia|done]. Qed.

Lemma capped_loop_step (s : state) :
  coherent cfg s -> capped cfg s -> ctl s = Running -> capped cfg (loop_step cfg s).
Proof.
  intros Hc Hcap Hrun.
  pose proof (cap_running cfg s Hcap) as Hlt. rewrite Hrun in Hlt.
  destruct (decide (Z.of_nat (i s) < totalRequests cfg)%Z) as [Hi|Hi].
  - destruct (loop_step_admit s (loop_step cfg s) Hi (coh_length cfg s Hc) (coh_pending_lt cfg s Hc)
                (coh_nodup cfg s Hc) (fun p rs H => proj1 (coh_reactions cfg s Hc p rs H)) eq_refl)
      as (_ & _ & _ & Hpend & _ & _ & _ & _ & _ & _ & Hjobs & Hctl).
    set (s' := loop_step cfg s) in *. clearbody s'.
    unfold cap_reached in *.
    assert (length (pending s') = S (length (pending s))) as Hlen.
    { rewrite Hpend, length_app. simpl. lia. }
    rewrite <- Hpend in Hctl, Hjobs.
    split.
    + lia.
    + rewrite Hctl. destruct (Z.leb_spec (concurrency cfg) (Z.of_nat (length (pending s'))));
        [done|lia].
    + intros r Hr _. rewrite Hctl in Hr.
      destruct (concurrency cfg <=? Z.of_nat (length (pending s')))%Z; [|done].
      injection Hr as <-. rewrite Hjobs.
      assert (forall p, JRaceThen (i s) p ∉ jobs s) as Hfresh.
      { intros p Hp. apply (coh_race_fresh cfg s Hc) in Hp. lia. }
      destruct (filter (fun p => is_fulfilled (allPromises s) p) (pending s))
        as [|q l] eqn:Hf.
      * rewrite app_nil_r. by apply guarded_no_race.
      * assert (q ∈ filter (fun p => is_fulfilled (allPromises s) p) (pending s)) as Hq
            by (rewrite Hf; left).
        apply list_elem_of_filter in Hq as [Hqf Hqp].
        apply (guarded_closed _ _ _ _ q); [done| |].
        -- rewrite Hpend. apply elem_of_app. by left.
        -- apply (coh_finally cfg s Hc); [|done]. by destruct (is_fulfilled (allPromises s) q).
  - destruct (loop_step_exit s (loop_step cfg s) Hi eq_refl)
      as (_ & _ & _ & Hpend & _ & _ & _ & _ & _ & Hctl).
    split; rewrite ?Hpend, ?Hctl; [apply (cap_le cfg s Hcap)|done|done].
Qed.

Lemma capped_complete (s s' : state) (p : nat) (result : QueryResult) :
  coherent cfg s -> capped cfg s -> complete p result s = Some s' -> capped cfg s'.
Proof.
  intros Hc Hcap Hstep.
  destruct (complete_inv p result s s' Hstep) as (t & rs & Hp & ->).
  destruct (coh_reactions cfg s Hc p rs) as (Hin & tl & -> & _); [by exists t|].
  split; cbn [pending ctl jobs].
  - apply (cap_le cfg s Hcap).
  - apply (cap_running cfg s Hcap).
  - intros r Hr Hfull. apply guarded_app; [by apply (cap_guard cfg s Hcap)|]. by left.
Qed.

Lemma capped_run_job (now : Q) (j : job) (rest : list job) (s : state) :
  capped cfg s -> jobs s = j :: rest -> capped cfg (run_job now j rest s).
Proof.
  intros Hcap Hjobs.
  pose proof (cap_le cfg s Hcap) as Hle.
  pose proof (cap_running cfg s Hcap) as Hrun.
  pose proof (cap_guard cfg s Hcap) as Hguard. rewrite Hjobs in Hguard.
  destruct j as [p|r p|p|].
  - assert (run_job now (JFinally p) rest s =
            {| i := i s; results := results s; pending := Set_delete p (pending s);
               allPromises := allPromises s; jobs := rest; ctl := ctl s;
               startTime := startTime s |}) as ->
        by (unfold run_job; by destruct (ctl s) as [|? []|[]|]).
    pose proof (length_filter (fun q => q <> p) (pending s)) as Hlen.
    unfold Set_delete.
    split; cbn [pending ctl jobs].
    + lia.
    + destruct (ctl s) as [|? []| |]; try done; lia.
    + intros r Hr Hfull.
      assert (p ∉ pending s) as Hp.
      { intros Hin. apply (length_filter_lt (fun q => q <> p)) in Hin; [lia|tauto]. }
      rewrite filter_remove_absent in * by done.
      destruct (Hguard r Hr Hfull) as [Hin|Hg]; done.
  - unfold run_job. destruct (ctl s) as [|r' [|]|n|m] eqn:Hctl;
      try (split; cbn [pending ctl jobs]; done).
    destruct (decide (r = r')) as [->|Hne].
    + split; cbn [pending ctl jobs]; [done| |done].
      destruct (decide (Z.of_nat (length (pending s)) = concurrency cfg)) as [Hfull|Hnf];
        [|lia].
      by destruct (Hguard r' eq_refl Hfull) as [Hne _].
    + split; cbn [pending ctl jobs]; [done|done|].
      intros r0 [= <-] Hfull. by destruct (Hguard _ eq_refl Hfull).
  - unfold run_job. destruct (ctl s) as [|r' b|[|n]|m] eqn:Hctl;
      split; cbn [pending ctl jobs]; done.
  - unfold run_job. destruct (ctl s) as [|r' [|]|[|n]|m] eqn:Hctl;
      split; cbn [pending ctl jobs]; try done.
    all: intros r0 [= <-] Hfull; by apply (Hguard _ eq_refl Hfull).
Qed.

Lemma capped_step (s s' : state) (l : label) :
  coherent cfg s -> capped cfg s -> step cfg s l = Some s' -> capped cfg s'.
Proof.
  intros Hc Hcap Hstep. unfold step in Hstep.
  destruct l as [|now|p result].
  - destruct (ctl s) eqn:Hctl; try done. injection Hstep as <-.
    by apply capped_loop_step.
  - destruct (ctl s) eqn:Hctl; try done;
      (destruct (jobs s) as [|j rest] eqn:Hjobs; [done|]; injection Hstep as <-;
       by apply capped_run_job).
  - destruct (ctl s) eqn:Hctl; try done; by eapply capped_complete.
Qed.

Lemma capped_steps (schedule : list label) (s s' : state) :
  coherent cfg s -> capped cfg s -> steps cfg s schedule = Some s' -> capped cfg s'.
Proof.
  revert s. induction schedule as [|l ls IH]; intros s Hc Hcap Hsteps; simpl in Hsteps.
  - by injection Hsteps as <-.
  - destruct (step cfg s l) as [s1|] eqn:Hstep; [|done].
    apply (IH s1); [by eapply coherent_step|by eapply capped_step|done].
Qed.

(** Outstanding requests are members of [pending]. *)
Lemma outstanding_le_pending (s : state) :
  coherent cfg s -> length (outstanding s) <= length (pending s).
Proof.
  intros Hc. apply submseteq_length, NoDup_submseteq; [apply NoDup_outstanding|].
  intros p Hp. apply elem_of_outstanding in Hp as [rs Hp].
  by apply (coh_reactions cfg s Hc p rs).
Qed.

Lemma steps_app (s : state) (a b : list label) :
  steps cfg s (a ++ b) =
  match steps cfg s a with
  | Some s' => steps cfg s' b
  | None => None
  end.
Proof.
  revert s. induction a as [|l a IH]; intros s; simpl; [done|].
  destruct (step cfg s l); [apply IH|done].
Qed.

Lemma resume_after_race (now : Q) (s : state) (r : nat) :
  ctl s = AwaitRace r true -> JResume ∈ jobs s ->
  exists n s', steps cfg s (replicate n (RunJob now)) = Some s' /\ ctl s' = Running.
Proof.
  remember (jobs s) as js eqn:Hjs. revert s Hjs.
  induction js as [|j rest IH]; intros s Hjs Hctl Hin; [by apply elem_of_nil in Hin|].
  assert (step cfg s (RunJob now) = Some (run_job now j rest s)) as Hstep
      by (unfold step; by rewrite Hctl, <- Hjs).
  destruct (decide (j = JResume)) as [->|Hne].
  - exists 1, (run_job now JResume rest s). cbn [replicate steps]. rewrite Hstep. split; [done|].
    unfold run_job. by rewrite Hctl.
  - apply elem_of_cons in Hin as [Hin|Hin]; [done|].
    destruct (IH (run_job now j rest s)) as (n & s' & Hsteps & Hrun).
    + unfold run_job. rewrite Hctl. by destruct j.
    + unfold run_job. rewrite Hctl. by destruct j.
    + exact Hin.
    + exists (S n), s'. cbn [replicate steps]. by rewrite Hstep.
Qed.

Lemma race_resolves (now : Q) (s : state) (r p : nat) :
  ctl s = AwaitRace r false -> JRaceThen r p ∈ jobs s ->
  exists n s', steps cfg s (replicate n (RunJob now)) = Some s' /\
               ctl s' = AwaitRace r true /\ JResume ∈ jobs s'.
Proof.
  remember (jobs s) as js eqn:Hjs. revert s Hjs.
  induction js as [|j rest IH]; intros s Hjs Hctl Hin; [by apply elem_of_nil in Hin|].
  assert (step cfg s (RunJob now) = Some (run_job now j rest s)) as Hstep
      by (unfold step; by rewrite Hctl, <- Hjs).
  assert ((exists p', j = JRaceThen r p') \/ ~ (exists p', j = JRaceThen r p'))
    as [[p' ->]|Hne].
  { destruct j as [q|r' p'|q|]; try (right; by intros [? ?]).
    destruct (decide (r' = r)) as [->|Hr]; [left; by exists p'|].
    right. intros [? [= ? ?]]. done. }
  - exists 1, (run_job now (JRaceThen r p') rest s). cbn [replicate steps]. rewrite Hstep.
    split; [done|]. unfold run_job. rewrite Hctl, decide_True by done.
    cbn [ctl jobs]. split; [done|]. apply elem_of_app. right. left.
  - apply elem_of_cons in Hin as [Hin|Hin]; [destruct Hne; by exists p|].
    assert (ctl (run_job now j rest s) = AwaitRace r false /\
            jobs (run_job now j rest s) = rest) as [Hctl' Hjobs'].
    { unfold run_job. rewrite Hctl. destruct j as [q|r' p'|q|]; try done.
      destruct (decide (r' = r)) as [->|Hr]; [destruct Hne; by exists p'|done]. }
    destruct (IH (run_job now j rest s)) as (n & s' & Hsteps & Hrun); [done..|].
    exists (S n), s'. cbn [replicate steps]. by rewrite Hstep.
Qed.

(** Once a request completes while the loop waits at the cap, draining
    the micro-task queue puts the loop back at its test. *)
Lemma resumes_on_completion (now : Q) (s : state) (r p : nat) (result : QueryResult) :
  coherent cfg s -> ctl s = AwaitRace r false -> p ∈ outstanding s ->
  exists n s',
    steps cfg s (Complete p result :: replicate n (RunJob now)) = Some s' /\
    ctl s' = Running.
Proof.
  intros Hc Hctl Hp. apply elem_of_outstanding in Hp as [rs Hp].
  pose proof (coh_race_registered cfg s Hc r Hctl p rs Hp) as Hreg.
  destruct Hp as [t Hp].
  set (s1 := {| i := i s; results := results s ++ [result]; pending := pending s;
                allPromises := <[p := mkRequest t (PFulfilled result)]> (allPromises s);
                jobs := jobs s ++ rs; ctl := AwaitRace r false;
                startTime := startTime s |}).
  assert (step cfg s (Complete p result) = Some s1) as Hstep.
  { unfold step, complete. by rewrite Hctl, Hp. }
  destruct (race_resolves now s1 r p) as (n1 & s2 & Hsteps1 & Hctl2 & Hin2).
  { done. }
  { apply elem_of_app. by right. }
  destruct (resume_after_race now s2 r Hctl2 Hin2) as (n2 & s3 & Hsteps2 & Hctl3).
  exists (n1 + n2), s3. split; [|done].
  cbn [steps]. rewrite Hstep, replicate_add, steps_app, Hsteps1. done.
Qed.

End Machine_facts.

Lemma filter_status_partition (results : list QueryResult) :
  length (filter (fun r => status r = Success) results) +
  length (filter (fun r => status r <> Success) results) = length results.
Proof.
  induction results as [|r results IH]; [done|].
  rewrite !filter_cons.
  destruct (decide (status r = Success)), (decide (status r <> Success)); simpl; try lia; done.
Qed.

Lemma reachable_coherent (cfg : config) (now : Q) (schedule : list label) (s : state) :
  steps cfg (init now) schedule = Some s -> coherent cfg s.
Proof. apply coherent_steps, coherent_init. Qed.

(** C2.  With a cap of at least 1, in every state of every run the
    number of requests admitted and not yet completed is at most the
    cap; while it equals the cap the loop is suspended and cannot admit
    a request; and when the loop waits at the cap, the completion of
    any outstanding request, followed by the micro-tasks it queued,
    puts the loop back at its test. *)
Theorem runLoadTest_concurrency_cap (cfg : config) (now : Q) (schedule : list label)
        (s : state) :
  (1 <= concurrency cfg)%Z ->
  steps cfg (init now) schedule = Some s ->
  (Z.of_nat (length (outstanding s)) <= concurrency cfg)%Z /\
  ((concurrency cfg <= Z.of_nat (length (outstanding s)))%Z ->
   ctl s <> Running /\ step cfg s LoopStep = None) /\
  (forall r p result now',
      ctl s = AwaitRace r false -> p ∈ outstanding s ->
      exists n s',
        steps cfg s (Complete p result :: replicate n (RunJob now')) = Some s' /\
        ctl s' = Running).
Proof.
  intros Hpos Hsteps.
  pose proof (reachable_coherent cfg now schedule s Hsteps) as Hc.
  assert (capped cfg s) as Hcap.
  { eapply capped_steps; [apply coherent_init|by apply capped_init|done]. }
  pose proof (outstanding_le_pending cfg s Hc) as Hout.
  pose proof (cap_le cfg s Hcap) as Hle.
  split; [lia|]. split.
  - intros Hfull. pose proof (cap_running cfg s Hcap) as Hrun.
    assert (ctl s <> Running) as Hnr by (intros Hr; rewrite Hr in Hrun; lia).
    split; [done|]. unfold step. by destruct (ctl s).
  - intros r p result now' Hctl Hp. by eapply resumes_on_completion.
Qed.

Lemma runLoadTest_concurrency_cap_witness :
  exists s,
    steps scenario_cfg (init 0) (take 3 scenario_schedule) = Some s /\
    length (outstanding s) = 3 /\
    (Z.of_nat (length (outstanding s)) <= 3)%Z /\
    step scenario_cfg s LoopStep = None.
Proof.
  destruct (steps scenario_cfg (init 0) (take 3 scenario_schedule)) as [s|] eqn:E;
    [|vm_compute in E; discriminate E].
  exists s. split; [reflexivity|].
  assert (length (outstanding s) = 3) as Hlen.
  { vm_compute in E. injection E as <-. vm_compute. reflexivity. }
  split; [exact Hlen|].
  pose proof (runLoadTest_concurrency_cap scenario_cfg 0 (take 3 scenario_schedule) s
                ltac:(vm_compute; discriminate) E) as (Hle & Hfull & _).
  split; [exact Hle|]. apply Hfull. rewrite Hlen. vm_compute. discriminate.
Defined.

(** C7.  In every completed run with [totalRequests >= 0], the metrics
    returned satisfy total = successful + failed = totalRequests, and
    successful and failed count the collected results whose status is
    Success, respectively is not. *)
Theorem runLoadTest_counts (cfg : config) (now : Q) (schedule : list label)
        (s : state) (m : LoadTestMetrics) :
  (0 <= totalRequests cfg)%Z ->
  steps cfg (init now) schedule = Some s ->
  ctl s = Finished m ->
  total_requests m = successful m + failed m /\
  Z.of_nat (total_requests m) = totalRequests cfg /\
  total_requests m = length (results s) /\
  successful m = length (filter (fun r => status r = Success) (results s)) /\
  failed m = length (filter (fun r => status r <> Success) (results s)).
Proof.
  intros Hnn Hsteps Hfin.
  pose proof (reachable_coherent cfg now schedule s Hsteps) as Hc.
  destruct (coh_finished cfg s Hc m Hfin) as [Hlen [d ->]].
  unfold calculateMetrics. cbn [total_requests successful failed].
  unfold successful_of, failed_of.
  pose proof (filter_status_partition (results s)).
  repeat split; try done; lia.
Qed.

Lemma runLoadTest_counts_witness :
  exists s m,
    steps scenario_cfg (init 0) scenario_schedule = Some s /\
    ctl s = Finished m /\
    total_requests m = successful m + failed m /\
    Z.of_nat (total_requests m) = 10%Z.
Proof.
  destruct (steps scenario_cfg (init 0) scenario_schedule) as [s|] eqn:E;
    [|vm_compute in E; discriminate E].
  destruct (ctl s) as [| | |m] eqn:Hctl;
    [vm_compute in E; injection E as <-; vm_compute in Hctl; discriminate Hctl..|].
  exists s, m. split; [reflexivity|]. split; [exact Hctl|].
  pose proof (runLoadTest_counts scenario_cfg 0 scenario_schedule s m
                ltac:(vm_compute; discriminate) E Hctl) as (H1 & H2 & _).
  split; [exact H1|exact H2].
Defined.

(** C9.  With a non-empty tenant list, in every state of every run each
    request admitted so far has an index below [totalRequests] and was
    given the tenant [tenants[p mod N]], whatever the order of
    completion; and once the loop is left every index below
    [totalRequests] has been admitted. *)
Theorem runLoadTest_tenant_assignment (cfg : config) (now : Q) (schedule : list label)
        (s : state) :
  tenants cfg <> [] ->
  steps cfg (init now) schedule = Some s ->
  (forall p, p < i s ->
     (Z.of_nat p < totalRequests cfg)%Z /\
     exists t, tenants cfg !! (p mod length (tenants cfg)) = Some t /\
               req_tenant <$> allPromises s !! p = Some (Some t)) /\
  (loop_exited (ctl s) ->
   forall p, (Z.of_nat p < totalRequests cfg)%Z -> p < i s).
Proof.
  intros Hne Hsteps.
  pose proof (reachable_coherent cfg now schedule s Hsteps) as Hc.
  split.
  - intros p Hp. split; [destruct (coh_bound cfg s Hc); lia|].
    assert (0 < length (tenants cfg)) as Hpos by (destruct (tenants cfg); simpl; [done|lia]).
    destruct (lookup_lt_is_Some_2 (tenants cfg) (p mod length (tenants cfg))) as [t Ht].
    { apply Nat.mod_upper_bound. lia. }
    exists t. split; [done|]. rewrite (coh_tenant cfg s Hc p Hp). by rewrite Ht.
  - intros Hex p Hp. pose proof (coh_exit cfg s Hc Hex). lia.
Qed.

Lemma runLoadTest_tenant_assignment_witness :
  exists s,
    steps scenario_cfg (init 0) scenario_schedule = Some s /\
    i s = 10 /\
    req_tenant <$> allPromises s !! 7 = Some (Some "b").
Proof.
  destruct (steps scenario_cfg (init 0) scenario_schedule) as [s|] eqn:E;
    [|vm_compute in E; discriminate E].
  exists s. split; [reflexivity|].
  assert (i s = 10) as Hi.
  { vm_compute in E. injection E as <-. reflexivity. }
  split; [exact Hi|].
  destruct (proj1 (runLoadTest_tenant_assignment scenario_cfg 0 scenario_schedule s
                     ltac:(discriminate) E) 7) as (_ & t & Ht & Hreq).
  - rewrite Hi. vm_compute. repeat constructor.
  - vm_compute in Ht. injection Ht as <-. exact Hreq.
Defined.

(** C10.  With [totalRequests = 0] the run returns after the exit of
    the loop and one micro-task, and whenever the measured duration is
    positive all counts, rows, bytes, the average and p95 latency and
    the throughput of the returned metrics are 0. *)
Theorem runLoadTest_zero_requests (cfg : config) (now : Q) :
  totalRequests cfg = 0%Z ->
  (forall now',
      exists m, runLoadTest cfg now [LoopStep; RunJob now'] = Some m /\
                duration_s m = ((now' - now) / 1000)%Q) /\
  (forall schedule m,
      runLoadTest cfg now schedule = Some m ->
      (0 < duration_s m)%Q ->
      total_requests m = 0 /\ successful m = 0 /\ failed m = 0 /\
      total_rows m = 0%Z /\ total_bytes m = 0%Z /\
      avg_latency_ms m = Num 0 /\ p95_latency_ms m = Some 0%Q /\
      exists q, throughput m = Num q /\ (q == 0)%Q).
Proof.
  intros Hzero. split.
  - intros now'. eexists. split.
    + unfold runLoadTest. cbn [steps]. unfold step at 1. cbn [init ctl].
      unfold loop_step. cbn [i init]. rewrite Hzero. cbn.
      reflexivity.
    + reflexivity.
  - intros schedule m Hrun Hpos. unfold runLoadTest in Hrun.
    destruct (steps cfg (init now) schedule) as [s|] eqn:Hsteps; [|done].
    destruct (ctl s) as [| | |m'] eqn:Hctl; try done. injection Hrun as ->.
    pose proof (reachable_coherent cfg now schedule s Hsteps) as Hc.
    destruct (coh_finished cfg s Hc m Hctl) as [Hlen [d ->]].
    rewrite Hzero in Hlen. apply nil_length_inv in Hlen. rewrite Hlen in *.
    cbn in Hpos. cbn. repeat split.
    rewrite js_div_finite by lra. eexists. split; [done|].
    unfold Qdiv. ring.
Qed.

Lemma runLoadTest_zero_requests_witness :
  exists m,
    runLoadTest {| totalRequests := 0; tenants := ["a"]; dataset_name := "sales";
                   rows_limit := None; concurrency := 3 |} 0 [LoopStep; RunJob 250] = Some m /\
    total_requests m = 0 /\
    exists q, throughput m = Num q /\ (q == 0)%Q.
Proof.
  destruct (runLoadTest {| totalRequests := 0; tenants := ["a"]; dataset_name := "sales";
                           rows_limit := None; concurrency := 3 |} 0 [LoopStep; RunJob 250])
    as [m|] eqn:E; [|vm_compute in E; discriminate E].
  exists m. split; [reflexivity|].
  destruct (proj2 (runLoadTest_zero_requests
                     {| totalRequests := 0; tenants := ["a"]; dataset_name := "sales";
                        rows_limit := None; concurrency := 3 |} 0 eq_refl)
                  [LoopStep; RunJob 250] m E) as (H1 & _ & _ & _ & _ & _ & _ & H8).
  - vm_compute in E. injection E as <-. vm_compute. reflexivity.
  - split; [exact H1|exact H8].
Defined.

(** ** Every run can be completed *)

Section Completion.
Variable cfg : config.

Lemma live_init (now : Q) : live (init now).
Proof. split; cbn; done. Qed.

Lemma live_loop_step (s : state) :
  coherent cfg s -> ctl s = Running -> live (loop_step cfg s).
Proof.
  intros Hc Hrun.
  destruct (decide (Z.of_nat (i s) < totalRequests cfg)%Z) as [Hi|Hi].
  - destruct (loop_step_admit cfg s (loop_step cfg s) Hi (coh_length cfg s Hc)
                (coh_pending_lt cfg s Hc) (coh_nodup cfg s Hc)
                (fun p rs H => proj1 (coh_reactions cfg s Hc p rs H)) eq_refl)
      as (_ & _ & _ & _ & _ & _ & _ & _ & _ & Hnew & _ & Hctl).
    split; rewrite Hctl; try (by destruct (cap_reached cfg s)).
    intros r Hr. right. intros Hout.
    assert (i s ∈ outstanding (loop_step cfg s)) as Hin
        by (apply elem_of_outstanding; eauto).
    rewrite Hout in Hin. by apply elem_of_nil in Hin.
  - destruct (loop_step_exit cfg s (loop_step cfg s) Hi eq_refl)
      as (_ & _ & _ & _ & _ & _ & _ & _ & Hjobs & Hctl).
    split; rewrite Hctl; try done.
    intros [= Hn]. rewrite Hjobs, Hn. apply elem_of_app. right. left.
Qed.

Lemma live_complete (s s' : state) (p : nat) (result : QueryResult) :
  coherent cfg s -> live s -> complete p result s = Some s' -> live s'.
Proof.
  intros Hc Hl Hstep.
  destruct (complete_inv p result s s' Hstep) as (t & rs & Hp & ->).
  split; cbn [ctl jobs].
  - intros r Hr. left. exists p. apply elem_of_app. right.
    apply (coh_race_registered cfg s Hc r Hr p rs). by exists t.
  - intros r Hr. apply elem_of_app. left. by apply (live_resolved s Hl r).
  - intros Hn. apply elem_of_app. left. by apply (live_all s Hl).
Qed.

Lemma live_run_job (now : Q) (j : job) (rest : list job) (s : state) :
  live s -> jobs s = j :: rest -> live (run_job now j rest s).
Proof.
  intros Hl Hjobs.
  pose proof (live_race s Hl) as Hrace.
  pose proof (live_resolved s Hl) as Hres.
  pose proof (live_all s Hl) as Hall.
  rewrite Hjobs in Hrace, Hres, Hall.
  assert (forall x, x <> j -> x ∈ j :: rest -> x ∈ rest) as Htail.
  { intros x Hx Hin. apply elem_of_cons in Hin as [Hin|Hin]; done. }
  destruct j as [p|r p|p|].
  - assert (run_job now (JFinally p) rest s =
            {| i := i s; results := results s; pending := Set_delete p (pending s);
               allPromises := allPromises s; jobs := rest; ctl := ctl s;
               startTime := startTime s |}) as ->
        by (unfold run_job; by destruct (ctl s) as [|? []|[]|]).
    split; cbn [ctl jobs].
    + intros r Hr. destruct (Hrace r Hr) as [[q Hq]|Hout]; [left|by right].
      exists q. by apply Htail.
    + intros r Hr. by apply Htail, (Hres r).
    + intros Hn. by apply Htail, Hall.
  - unfold run_job. destruct (ctl s) as [|r' [|]|[|n]|m] eqn:Hctl.
    3: destruct (decide (r = r')) as [->|Hne].
    all: split; cbn [ctl jobs]; try done.
    + intros r0 [= <-]. by apply Htail, (Hres r').
    + intros r0 _. apply elem_of_app. right. left.
    + intros r0 [= <-]. destruct (Hrace r' eq_refl) as [[q Hq]|Hout]; [left|by right].
      exists q. apply Htail; [|done]. intros [= ? ?]. done.
    + intros _. by apply Htail, Hall.
  - unfold run_job. destruct (ctl s) as [|r' [|]|[|[|n]]|m] eqn:Hctl;
      split; cbn [ctl jobs]; try done.
    + intros r0 [= <-]. by apply Htail, (Hres r').
    + intros r0 [= <-]. destruct (Hrace r' eq_refl) as [[q Hq]|Hout]; [left|by right].
      exists q. by apply Htail.
    + intros _. by apply Htail, Hall.
    + intros _. apply elem_of_app. right. left.
  - unfold run_job. destruct (ctl s) as [|r' [|]|[|n]|m] eqn:Hctl;
      split; cbn [ctl jobs]; try done.
    intros r0 [= <-]. destruct (Hrace r' eq_refl) as [[q Hq]|Hout]; [left|by right].
    exists q. by apply Htail.
Qed.

Lemma live_step (s s' : state) (l : label) :
  coherent cfg s -> live s -> step cfg s l = Some s' -> live s'.
Proof.
  intros Hc Hl Hstep. unfold step in Hstep.
  destruct l as [|now|p result].
  - destruct (ctl s) eqn:Hctl; try done. injection Hstep as <-.
    by apply live_loop_step.
  - destruct (ctl s) eqn:Hctl; try done;
      (destruct (jobs s) as [|j rest] eqn:Hjobs; [done|]; injection Hstep as <-;
       by apply live_run_job).
  - destruct (ctl s) eqn:Hctl; try done; by eapply live_complete.
Qed.

Lemma run_job_progress (now : Q) (j : job) (rest : list job) (s : state) :
  jobs s = j :: rest -> ctl s <> Running -> (forall m, ctl s <> Finished m) ->
  allPromises (run_job now j rest s) = allPromises s /\
  ((exists m, ctl (run_job now j rest s) = Finished m) \/
   admissions_left cfg (run_job now j rest s) = admissions_left cfg s /\
   (awaiting_answer (ctl (run_job now j rest s)) < awaiting_answer (ctl s) \/
    awaiting_answer (ctl (run_job now j rest s)) = awaiting_answer (ctl s) /\
    length (jobs (run_job now j rest s)) < length (jobs s))).
Proof.
  intros Hjobs Hnr Hnf. rewrite Hjobs. unfold admissions_left, run_job.
  destruct j as [p|r p|p|]; destruct (ctl s) as [|r' [|]|[|[|n]]|m] eqn:Hctl;
    try (by destruct Hnr); try (by destruct (Hnf m));
    try destruct (decide (r = r')) as [->|Hne];
    cbn [i ctl jobs allPromises awaiting_answer length];
    (split; [done|]); try (left; by eexists);
    right; (split; [done|]); rewrite ?length_app; cbn [length]; try lia.
  right. split; [done|]. rewrite decide_False by done. lia.
Qed.

Section Progress.

Variable now : Q.
Variable gateway : Gateway.
Hypothesis Hanswers : answers gateway cfg.

Lemma progress_step (s s1 : state) (l : label) :
  step cfg s l = Some s1 ->
  served_by gateway cfg s l ->
  (exists schedule s' m,
     steps cfg s1 schedule = Some s' /\ ctl s' = Finished m /\
     served gateway cfg s1 schedule) ->
  exists schedule s' m,
    steps cfg s schedule = Some s' /\ ctl s' = Finished m /\
    served gateway cfg s schedule.
Proof.
  intros Hstep Hl (schedule & s' & m & Hsteps & Hfin & Hserved).
  exists (l :: schedule), s', m. cbn [steps served]. rewrite Hstep. done.
Qed.

Lemma can_complete_one (s : state) :
  coherent cfg s -> ctl s <> Running -> (forall m, ctl s <> Finished m) ->
  outstanding s <> [] ->
  exists p result s1,
    step cfg s (Complete p result) = Some s1 /\
    served_by gateway cfg s (Complete p result) /\
    admissions_left cfg s1 = admissions_left cfg s /\
    length (outstanding s1) < length (outstanding s).
Proof.
  intros Hc Hnr Hnf Hout.
  destruct (outstanding s) as [|p l] eqn:Ho; [done|].
  assert (p ∈ outstanding s) as Hp by (rewrite Ho; left).
  apply elem_of_outstanding in Hp as [rs [t Hp]].
  assert (p < i s) as Hlt.
  { apply lookup_lt_Some in Hp. by rewrite (coh_length cfg s Hc) in Hp. }
  assert (Z.of_nat p < totalRequests cfg)%Z as Hreq.
  { destruct (coh_bound cfg s Hc) as [Hi|Hi]; lia. }
  destruct (Hanswers p Hreq) as (t' & w & result & Ht' & Hret).
  exists p, result,
    {| i := i s; results := results s ++ [result]; pending := pending s;
       allPromises := <[p := mkRequest t (PFulfilled result)]> (allPromises s);
       jobs := jobs s ++ rs; ctl := ctl s; startTime := startTime s |}.
  split; [|split].
  - unfold step, complete. rewrite Hp.
    destruct (ctl s) as [| | |m]; [by destruct Hnr|reflexivity..|by destruct (Hnf m)].
  - exists t', w. split; [|done].
    by rewrite (coh_tenant cfg s Hc p Hlt), Ht'.
  - split; [done|].
    rewrite <- Ho.
    pose proof (length_outstanding_complete s
      {| i := i s; results := results s ++ [result]; pending := pending s;
         allPromises := <[p := mkRequest t (PFulfilled result)]> (allPromises s);
         jobs := jobs s ++ rs; ctl := ctl s; startTime := startTime s |}
      p t result rs Hp eq_refl) as Hlen.
    lia.
Qed.

Lemma can_finish_measured (a o f j : nat) (s : state) :
  admissions_left cfg s = a -> length (outstanding s) = o ->
  awaiting_answer (ctl s) = f -> length (jobs s) = j ->
  coherent cfg s -> live s ->
  exists schedule s' m,
    steps cfg s schedule = Some s' /\ ctl s' = Finished m /\
    served gateway cfg s schedule.
Proof.
  revert o f j s.
  induction a as [a IHa] using lt_wf_ind. intros o.
  induction o as [o IHo] using lt_wf_ind. intros f.
  induction f as [f IHf] using lt_wf_ind. intros j.
  induction j as [j IHj] using lt_wf_ind.
  intros s Ha Ho Hf Hj Hc Hl.
  assert (Hjob : forall j0 rest, jobs s = j0 :: rest -> ctl s <> Running ->
            (forall m, ctl s <> Finished m) ->
            exists schedule s' m,
              steps cfg s schedule = Some s' /\ ctl s' = Finished m /\
              served gateway cfg s schedule).
  { intros j0 rest Hjobs Hnr Hnf.
    assert (step cfg s (RunJob now) = Some (run_job now j0 rest s)) as Hstep.
    { unfold step. rewrite Hjobs.
      destruct (ctl s) as [| | |m]; [by destruct Hnr|done..|by destruct (Hnf m)]. }
    pose proof (coherent_step cfg s _ _ Hc Hstep) as Hc1.
    pose proof (live_step s _ _ Hc Hl Hstep) as Hl1.
    apply (progress_step s _ _ Hstep I).
    destruct (run_job_progress now j0 rest s Hjobs Hnr Hnf)
      as [Hall [[m Hm]|[HA [HF|[HF HJ]]]]].
    - exists [], (run_job now j0 rest s), m. done.
    - eapply (IHf (awaiting_answer (ctl (run_job now j0 rest s)))); try done; [lia..|].
      rewrite <- Ho. unfold outstanding. by rewrite Hall.
    - eapply (IHj (length (jobs (run_job now j0 rest s)))); try done; [lia..| |lia].
      rewrite <- Ho. unfold outstanding. by rewrite Hall. }
  assert (Hdone : ctl s <> Running -> (forall m, ctl s <> Finished m) ->
            outstanding s <> [] ->
            exists schedule s' m,
              steps cfg s schedule = Some s' /\ ctl s' = Finished m /\
              served gateway cfg s schedule).
  { intros Hnr Hnf Hout.
    destruct (can_complete_one s Hc Hnr Hnf Hout)
      as (p & result & s1 & Hstep & Hserved & HA & HO).
    apply (progress_step s _ _ Hstep Hserved).
    eapply (IHo (length (outstanding s1))); try done; [lia..| |].
    - by eapply coherent_step.
    - by eapply live_step. }
  destruct (ctl s) as [|r [|]|n|m] eqn:Hctl.
  - (* the loop runs *)
    assert (step cfg s LoopStep = Some (loop_step cfg s)) as Hstep
        by (unfold step; by rewrite Hctl).
    apply (progress_step s _ _ Hstep I).
    eapply (IHa (admissions_left cfg (loop_step cfg s))); try done.
    + rewrite <- Ha. unfold admissions_left. rewrite Hctl.
      destruct (decide (Z.of_nat (i s) < totalRequests cfg)%Z) as [Hi|Hi].
      * destruct (loop_step_admit cfg s (loop_step cfg s) Hi (coh_length cfg s Hc)
                    (coh_pending_lt cfg s Hc) (coh_nodup cfg s Hc)
                    (fun p rs H => proj1 (coh_reactions cfg s Hc p rs H)) eq_refl)
          as (Hi' & _ & _ & _ & _ & _ & _ & _ & _ & _ & _ & Hctl').
        rewrite Hi', Hctl'. destruct (cap_reached cfg s); lia.
      * destruct (loop_step_exit cfg s (loop_step cfg s) Hi eq_refl)
          as (Hi' & _ & _ & _ & _ & _ & _ & _ & _ & Hctl').
        rewrite Hi', Hctl'. lia.
    + by eapply coherent_step.
    + by eapply live_step.
  - (* the race is answered: the continuation is queued *)
    pose proof (live_resolved s Hl r Hctl) as Hin.
    destruct (jobs s) as [|j0 rest] eqn:Hjobs; [by apply elem_of_nil in Hin|].
    by apply (Hjob j0 rest).
  - (* waiting at the cap *)
    destruct (jobs s) as [|j0 rest] eqn:Hjobs; [|by apply (Hjob j0 rest)].
    apply Hdone; try done.
    destruct (live_race s Hl r Hctl) as [[p Hp]|Hout]; [|done].
    rewrite Hjobs in Hp. by apply elem_of_nil in Hp.
  - (* waiting for all *)
    destruct (jobs s) as [|j0 rest] eqn:Hjobs; [|by apply (Hjob j0 rest)].
    apply Hdone; try done.
    destruct (coh_all cfg s Hc n Hctl) as [Hn _]. rewrite Hjobs in Hn.
    destruct n as [|n].
    + pose proof (live_all s Hl Hctl) as Hin. rewrite Hjobs in Hin.
      by apply elem_of_nil in Hin.
    + intros Hout. rewrite Hout in Hn. cbn in Hn. lia.
  - exists [], s, m. done.
Qed.

Lemma can_finish (s : state) :
  coherent cfg s -> live s ->
  exists schedule s' m,
    steps cfg s schedule = Some s' /\ ctl s' = Finished m /\
    served gateway cfg s schedule.
Proof. intros Hc Hl. by eapply can_finish_measured. Qed.

End Progress.

Lemma live_steps (schedule : list label) (s s' : state) :
  coherent cfg s -> live s -> steps cfg s schedule = Some s' -> live s'.
Proof.
  revert s. induction schedule as [|l ls IH]; intros s Hc Hl Hsteps; simpl in Hsteps.
  - by injection Hsteps as <-.
  - destruct (step cfg s l) as [s1|] eqn:Hstep; [|done].
    apply (IH s1); [by eapply coherent_step|by eapply live_step|done].
Qed.

End Completion.

(** X17.  When the client of every request can be constructed and the
    gateway answers each request of the run, every run can be
    completed: whatever has happened so far, there is a continuation
    in which the requests still outstanding complete with results
    that [singleRequest] returns for them, and at the end of which
    [runLoadTest] returns. *)
Theorem runLoadTest_returns (gateway : Gateway) (cfg : config) (now : Q)
        (schedule : list label) (s : state) :
  answers gateway cfg ->
  steps cfg (init now) schedule = Some s ->
  exists more m,
    runLoadTest cfg now (schedule ++ more) = Some m /\
    served gateway cfg s more.
Proof.
  intros Hanswers Hsteps.
  pose proof (reachable_coherent cfg now schedule s Hsteps) as Hc.
  assert (live s) as Hl.
  { eapply live_steps; [apply coherent_init|apply live_init|done]. }
  destruct (can_finish cfg now gateway Hanswers s Hc Hl)
    as (more & s' & m & Hmore & Hfin & Hserved).
  exists more, m. split; [|done].
  unfold runLoadTest. by rewrite steps_app, Hsteps, Hmore, Hfin.
Qed.

(* ===================================================================== *)
(** * Further properties of the protocol client                           *)
(* ===================================================================== *)

Ltac run_query :=
  unfold queryDataset, getFlightInfo, doGet, first_ticket, no_endpoints,
    try_catch, performance_now, issue, await, throw, mbind, M_bind, mret, M_ret; cbn.

Lemma queryDataset_outcome (gateway : Gateway) (tenantId ds : string)
      (limit : option row_limit) (w : world) :
  match (queryDataset gateway tenantId ds limit w).1 with
  | Return r =>
      tenant_id r = tenantId /\ dataset r = ds /\
      (status r = Error -> is_Some (error r))
  | Throw _ => False
  | Never => True
  end.
Proof.
  run_query.
  destruct (GetFlightInfo gateway _) as [|[eps]|err]; cbn; [done| |by eauto].
  destruct eps as [[|ep more]|]; cbn; [by eauto| |by eauto].
  destruct (doGet_events gateway _) as [|res|err]; cbn; [done|by eauto..].
Qed.

(** X1.  [queryDataset] never rejects.  It returns a result or stays
    suspended, and it is suspended only while a promise of the gateway
    is pending.  A returned result echoes the tenant and the dataset;
    a Success result carries rows, bytes and both phase latencies and
    no error, an Error result an error message and none of those. *)
Theorem queryDataset_never_throws (gateway : Gateway) (tenantId ds : string)
        (limit : option row_limit) (w : world) :
  match (queryDataset gateway tenantId ds limit w).1 with
  | Return r =>
      tenant_id r = tenantId /\ dataset r = ds /\
      match status r with
      | Success =>
          is_Some (rows r) /\ is_Some (bytes r) /\ is_Some (metadata_latency_ms r) /\
          is_Some (transfer_latency_ms r) /\ error r = None
      | Error =>
          rows r = None /\ bytes r = None /\ metadata_latency_ms r = None /\
          transfer_latency_ms r = None /\ is_Some (error r)
      end
  | Throw _ => False
  | Never =>
      GetFlightInfo gateway (descriptor_of tenantId ds limit) = Pending \/
      exists info ep more,
        GetFlightInfo gateway (descriptor_of tenantId ds limit) = Fulfilled info /\
        endpoint info = Some (ep :: more) /\
        fetch_of gateway ep = Pending
  end.
Proof.
  run_query. fold (descriptor_of tenantId ds limit).
  destruct (GetFlightInfo gateway (descriptor_of tenantId ds limit)) as [|[eps]|err] eqn:Hinfo;
    cbn; [by left| |by eauto 10].
  destruct eps as [[|ep more]|]; cbn; [by eauto 10| |by eauto 10].
  fold (fetch_of gateway ep).
  destruct (fetch_of gateway ep) as [|res|err] eqn:Hfetch; cbn; [|by eauto 10..].
  right. by exists {| endpoint := Some (ep :: more) |}, ep, more.
Qed.

Lemma queryDataset_success (gateway : Gateway) (tenantId ds : string)
        (limit : option row_limit) (w : world) (info : FlightInfo)
        (ep : FlightEndpoint) (more : list FlightEndpoint) (res : DoGetResult) :
  GetFlightInfo gateway (descriptor_of tenantId ds limit) = Fulfilled info ->
  endpoint info = Some (ep :: more) ->
  fetch_of gateway ep = Fulfilled res ->
  let t := fun k => clock w (reads w + k) in
  queryDataset gateway tenantId ds limit w =
    (Return {| status := Success; tenant_id := tenantId; dataset := ds;
               rows := Some (dg_rows res); bytes := Some (dg_bytes res);
               metadata_latency_ms := Some (t 2%nat - t 1%nat)%Q;
               transfer_latency_ms := Some (t 4%nat - t 3%nat)%Q;
               total_latency_ms := (t 5%nat - t 0%nat)%Q;
               error := None |},
     {| clock := clock w; reads := reads w + 6;
        calls := calls w ++ [CallGetFlightInfo (descriptor_of tenantId ds limit);
                             CallDoGet (ticket (endpoint_ticket ep))] |}).
Proof.
  intros Hinfo Hep Hfetch t. destruct info as [eps]. cbn in Hep. subst eps.
  run_query. fold (descriptor_of tenantId ds limit). rewrite Hinfo. cbn.
  fold (fetch_of gateway ep). rewrite Hfetch. cbn. unfold t.
  rewrite bool_decide_eq_false_2 by done. cbn.
  rewrite <- app_assoc. cbn.
  replace (reads w + 0) with (reads w) by lia.
  replace (reads w + 1) with (S (reads w)) by lia.
  replace (reads w + 2) with (S (S (reads w))) by lia.
  replace (reads w + 3) with (S (S (S (reads w)))) by lia.
  replace (reads w + 4) with (S (S (S (S (reads w))))) by lia.
  replace (reads w + 5) with (S (S (S (S (S (reads w)))))) by lia.
  replace (reads w + 6) with (S (S (S (S (S (S (reads w))))))) by lia.
  reflexivity.
Qed.

(** X2.  The latencies are differences of clock readings, and the
    subtraction rounds each of them.  With a clock that never runs
    backwards and whatever the rounding, provided it is monotone and
    leaves 0 as it is (rounding to the nearest binary64 number is so),
    the total latency of every returned result is not negative, and in
    a Success result neither phase latency is negative and neither
    exceeds the total latency. *)
Theorem queryDataset_latency_bounds (gateway : Gateway) (tenantId ds : string)
        (limit : option row_limit) (w : world) (r : QueryResult) (fl : Q -> Q) :
  monotone_clock w ->
  monotone_rounding fl ->
  (queryDataset gateway tenantId ds limit w).1 = Return r ->
  (0 <= fl (total_latency_ms r))%Q /\
  (status r = Success ->
   exists meta transfer,
     metadata_latency_ms r = Some meta /\ transfer_latency_ms r = Some transfer /\
     (0 <= fl meta)%Q /\ (0 <= fl transfer)%Q /\
     (fl meta <= fl (total_latency_ms r))%Q /\
     (fl transfer <= fl (total_latency_ms r))%Q).
Proof.
  intros Hmono [Hfl Hzero].
  assert (forall x, (0 <= x)%Q -> (0 <= fl x)%Q) as Hpos.
  { intros x Hx. rewrite <- Hzero. by apply Hfl. }
  assert (forall j k, j <= k -> (0 <= clock w k - clock w j)%Q) as Hge.
  { intros j k Hjk. specialize (Hmono j k Hjk). lra. }
  run_query.
  destruct (GetFlightInfo gateway _) as [|[eps]|err]; cbn; [done| |].
  - destruct eps as [[|ep more]|]; cbn.
    + intros [= <-]. cbn. split; [apply Hpos, Hge; lia|done].
    + destruct (doGet_events gateway _) as [|res|err]; cbn; [done| |].
      * intros [= <-]. cbn. split; [apply Hpos, Hge; lia|]. intros _.
        pose proof (Hmono (reads w) (S (reads w)) ltac:(lia)).
        pose proof (Hmono (S (reads w)) (S (S (reads w))) ltac:(lia)).
        pose proof (Hmono (S (S (reads w))) (S (S (S (reads w)))) ltac:(lia)).
        pose proof (Hmono (S (S (S (reads w)))) (S (S (S (S (reads w))))) ltac:(lia)).
        pose proof (Hmono (S (S (S (S (reads w))))) (S (S (S (S (S (reads w)))))) ltac:(lia)).
        eexists _, _. split; [done|]. split; [done|].
        split; [apply Hpos, Hge; lia|]. split; [apply Hpos, Hge; lia|].
        split; apply Hfl; lra.
      * intros [= <-]. cbn. split; [apply Hpos, Hge; lia|done].
    + intros [= <-]. cbn. split; [apply Hpos, Hge; lia|done].
  - intros [= <-]. cbn. split; [apply Hpos, Hge; lia|done].
Qed.

Lemma example_world_monotone : monotone_clock example_world.
Proof. intros j k Hjk. cbn. rewrite <- Zle_Qle. lia. Qed.

Lemma queryDataset_latency_bounds_witness :
  exists r meta,
    (queryDataset (example_gateway [{| endpoint_ticket := {| ticket := "t1" |} |}])
                  "tenant_001" "sales" None example_world).1 = Return r /\
    status r = Success /\
    metadata_latency_ms r = Some meta /\
    (0 <= meta)%Q /\ (meta <= total_latency_ms r)%Q.
Proof.
  destruct (queryDataset (example_gateway [{| endpoint_ticket := {| ticket := "t1" |} |}])
                         "tenant_001" "sales" None example_world) as [[r|e|] w'] eqn:E;
    [|vm_compute in E; discriminate E..].
  assert (status r = Success) as Hs by (vm_compute in E; by injection E as <- _).
  destruct (queryDataset_latency_bounds
              (example_gateway [{| endpoint_ticket := {| ticket := "t1" |} |}])
              "tenant_001" "sales" None example_world r (fun x => x)
              example_world_monotone
              (conj (fun x y H => H) (Qeq_refl 0))
              ltac:(by rewrite E)) as [_ H].
  destruct (H Hs) as (meta & transfer & Hm & _ & H0 & _ & Hle & _).
  exists r, meta. split; [reflexivity|]. split; [exact Hs|]. split; [exact Hm|].
  split; [exact H0|exact Hle].
Defined.

(** X3.  When the resolution is rejected, [queryDataset] returns an
    Error result with the message of the rejection; when the response
    has no endpoint field at all, the message is "No endpoints
    returned".  In both cases the resolution is the only call issued,
    and the total latency runs from the first reading of the clock to
    the one taken in the handler. *)
Theorem queryDataset_resolution_failure (gateway : Gateway) (tenantId ds : string)
        (limit : option row_limit) (w : world) :
  let descriptor := descriptor_of tenantId ds limit in
  let failed message elapsed :=
    {| status := Error; tenant_id := tenantId; dataset := ds;
       rows := None; bytes := None; metadata_latency_ms := None;
       transfer_latency_ms := None; total_latency_ms := elapsed;
       error := Some message |} in
  (forall err,
      GetFlightInfo gateway descriptor = Rejected err ->
      queryDataset gateway tenantId ds limit w =
        (Return (failed (message err) (clock w (reads w + 2) - clock w (reads w))%Q),
         {| clock := clock w; reads := reads w + 3;
            calls := calls w ++ [CallGetFlightInfo descriptor] |})) /\
  (forall info,
      GetFlightInfo gateway descriptor = Fulfilled info ->
      endpoint info = None ->
      queryDataset gateway tenantId ds limit w =
        (Return (failed "No endpoints returned"
                        (clock w (reads w + 3) - clock w (reads w))%Q),
         {| clock := clock w; reads := reads w + 4;
            calls := calls w ++ [CallGetFlightInfo descriptor] |})).
Proof.
  intros descriptor failed. unfold failed, descriptor. split.
  - intros err Hinfo. run_query. fold (descriptor_of tenantId ds limit).
    rewrite Hinfo. cbn.
    replace (reads w + 2) with (S (S (reads w))) by lia.
    replace (reads w + 3) with (S (S (S (reads w)))) by lia.
    reflexivity.
  - intros [eps] Hinfo Hnone. cbn in Hnone. subst eps.
    run_query. fold (descriptor_of tenantId ds limit). rewrite Hinfo. cbn.
    replace (reads w + 3) with (S (S (S (reads w)))) by lia.
    replace (reads w + 4) with (S (S (S (S (reads w))))) by lia.
    reflexivity.
Qed.

(** X4.  When the fetch of the first endpoint is rejected,
    [queryDataset] returns an Error result with the message of the
    rejection; the metadata latency already measured is not reported.
    Both calls have been issued. *)
Theorem queryDataset_fetch_failure (gateway : Gateway) (tenantId ds : string)
        (limit : option row_limit) (w : world) (info : FlightInfo)
        (ep : FlightEndpoint) (more : list FlightEndpoint) (err : JsError) :
  GetFlightInfo gateway (descriptor_of tenantId ds limit) = Fulfilled info ->
  endpoint info = Some (ep :: more) ->
  fetch_of gateway ep = Rejected err ->
  queryDataset gateway tenantId ds limit w =
    (Return {| status := Error; tenant_id := tenantId; dataset := ds;
               rows := None; bytes := None; metadata_latency_ms := None;
               transfer_latency_ms := None;
               total_latency_ms := (clock w (reads w + 4) - clock w (reads w))%Q;
               error := Some (message err) |},
     {| clock := clock w; reads := reads w + 5;
        calls := calls w ++ [CallGetFlightInfo (descriptor_of tenantId ds limit);
                             CallDoGet (ticket (endpoint_ticket ep))] |}).
Proof.
  intros Hinfo Hep Hfetch. destruct info as [eps]. cbn in Hep. subst eps.
  run_query. fold (descriptor_of tenantId ds limit). rewrite Hinfo. cbn.
  fold (fetch_of gateway ep). rewrite Hfetch. cbn.
  rewrite ?bool_decide_eq_false_2 by done. cbn.
  rewrite <- app_assoc. cbn.
  replace (reads w + 4) with (S (S (S (S (reads w))))) by lia.
  replace (reads w + 5) with (S (S (S (S (S (reads w)))))) by lia.
  reflexivity.
Qed.

Lemma queryDataset_fetch_failure_witness :
  exists r w',
    queryDataset broken_gateway "tenant_001" "sales" None example_world = (Return r, w') /\
    status r = Error /\ error r = Some "14 UNAVAILABLE" /\
    metadata_latency_ms r = None /\
    calls w' = [CallGetFlightInfo {| type := PATH; path := ["tenant_001"; "sales"] |};
                CallDoGet "t1"].
Proof.
  eexists _, _. split.
  - apply (queryDataset_fetch_failure broken_gateway "tenant_001" "sales" None example_world
             {| endpoint := Some [{| endpoint_ticket := {| ticket := "t1" |} |}] |}
             {| endpoint_ticket := {| ticket := "t1" |} |} []
             (mkError "14 UNAVAILABLE")); reflexivity.
  - cbn. done.
Defined.

Section DoGet_more.
Variable gateway : Gateway.

Lemma decode_loop_tables (cs : list Buffer) (r b : Z) (ts : list Table)
      (r' b' : Z) (ts' : list Table) :
  decode_loop gateway cs r b ts = inr (r', b', ts') ->
  ts' = ts ++ omap (decoded gateway) cs.
Proof.
  revert r b ts. induction cs as [|c cs IH]; intros r b ts; cbn [decode_loop].
  - intros [= _ _ <-]. by rewrite app_nil_r.
  - destruct (tableFromIPC gateway c) as [e|table] eqn:E; [done|].
    assert (omap (decoded gateway) (c :: cs) = table :: omap (decoded gateway) cs) as ->.
    { cbn. unfold decoded at 1. by rewrite E. }
    intros H. apply IH in H. by rewrite <- app_assoc in H.
Qed.

Lemma decode_loop_first_failure (good more : list Buffer) (bad : Buffer) (err : JsError)
      (r b : Z) (ts : list Table) :
  Forall (decodes gateway) good -> tableFromIPC gateway bad = inl err ->
  decode_loop gateway (good ++ bad :: more) r b ts = inl err.
Proof.
  intros Hgood Hbad. revert r b ts.
  induction Hgood as [|c good [table Hc] _ IH]; intros r b ts; cbn [decode_loop app].
  - by rewrite Hbad.
  - rewrite Hc. apply IH.
Qed.

Lemma doGet_handle_empty (st : doGet_state) (ev : stream_event) :
  carries_data ev = false -> doGet_handle gateway st ev = st.
Proof.
  destruct ev as [fd| |err]; [|done..]. cbn. unfold on_data, body_length.
  intros H. apply bool_decide_eq_false in H.
  destruct (data_body fd) as [body|]; [|done].
  by destruct (decide (0 < Buffer_length body)).
Qed.

End DoGet_more.

(** X6.  The [table] of a fulfilled fetch is the decoded table when
    the stream carried exactly one chunk, and null otherwise: with two
    chunks or more only the totals are returned. *)
Theorem doGet_table_field (gateway : Gateway) (datas : list FlightData)
        (rest : list stream_event) (res : DoGetResult) :
  doGet_events gateway ((OnData <$> datas) ++ OnEnd :: rest) = Fulfilled res ->
  dg_table res = match data_chunks datas with
                 | [chunk] => decoded gateway chunk
                 | _ => None
                 end.
Proof.
  rewrite doGet_events_end. unfold on_end. cbn [chunks outcome settle].
  destruct (decide (length (data_chunks datas) = 0)) as [Hz|Hnz].
  - intros [= <-]. apply nil_length_inv in Hz. by rewrite Hz.
  - pose proof (decode_loop_spec gateway (data_chunks datas) 0 0 []) as Hspec.
    destruct (decode_loop _ _ _ _ _) as [e|[[r b] ts]] eqn:E; [done|].
    intros [= <-]. cbn [dg_table].
    destruct Hspec as (Hall & _ & _ & Hlen).
    apply decode_loop_tables in E. cbn in E, Hlen. subst ts.
    destruct (data_chunks datas) as [|c [|c' cs]] eqn:Hcs; [done| |].
    + cbn in Hlen |- *. apply Forall_cons in Hall as [[table Hc] _].
      unfold decoded in *. rewrite Hc. cbn. done.
    + rewrite decide_False; [done|]. rewrite Hlen. cbn. lia.
Qed.

Lemma doGet_table_field_witness :
  (exists res,
     doGet_events (example_gateway [])
                  [OnData {| data_body := Some "A1234" |}; OnEnd] = Fulfilled res /\
     dg_table res = Some {| numRows := 4 |}) /\
  (exists res,
     doGet_events (example_gateway [])
                  [OnData {| data_body := Some "A1234" |};
                   OnData {| data_body := Some "A56" |}; OnEnd] = Fulfilled res /\
     dg_rows res = 6%Z /\ dg_table res = None).
Proof.
  split.
  - eexists. split; [vm_compute; reflexivity|].
    apply (doGet_table_field (example_gateway []) [{| data_body := Some "A1234" |}] []).
    vm_compute. reflexivity.
  - eexists. split; [vm_compute; reflexivity|]. split; [reflexivity|].
    apply (doGet_table_field (example_gateway [])
             [{| data_body := Some "A1234" |}; {| data_body := Some "A56" |}] []).
    vm_compute. reflexivity.
Defined.

(** X7.  When a chunk does not decode, the fetch is rejected with the
    exception of the first such chunk in arrival order. *)
Theorem doGet_first_failure (gateway : Gateway) (datas : list FlightData)
        (rest : list stream_event) (good more : list Buffer) (bad : Buffer)
        (err : JsError) :
  data_chunks datas = good ++ bad :: more ->
  Forall (decodes gateway) good ->
  tableFromIPC gateway bad = inl err ->
  doGet_events gateway ((OnData <$> datas) ++ OnEnd :: rest) = Rejected err.
Proof.
  intros Hcs Hgood Hbad.
  rewrite doGet_events_end. unfold on_end. cbn [chunks outcome settle].
  rewrite Hcs. rewrite decide_False by (rewrite length_app; simpl; lia).
  by rewrite (decode_loop_first_failure gateway good more bad err).
Qed.

(** X8.  Messages with an empty or missing body have no effect on a
    fetch: the outcome is that of the stream without them. *)
Theorem doGet_ignores_empty_messages (gateway : Gateway) (events : list stream_event) :
  doGet_events gateway (filter (fun ev => carries_data ev) events) =
  doGet_events gateway events.
Proof.
  unfold doGet_events. generalize {| chunks := []; outcome := Pending |}.
  induction events as [|ev events IH]; intros st; [done|].
  rewrite filter_cons. destruct (decide (carries_data ev)) as [Hd|Hd]; cbn [fold_left].
  - apply IH.
  - rewrite IH, (doGet_handle_empty gateway st ev); [done|].
    by destruct (carries_data ev).
Qed.

Lemma doGet_first_failure_witness :
  doGet_events (example_gateway [])
               [OnData {| data_body := Some "A1234" |};
                OnData {| data_body := Some "corrupt" |};
                OnData {| data_body := Some "A56" |};
                OnEnd] =
  Rejected (mkError "Invalid Arrow IPC stream").
Proof.
  apply (doGet_first_failure (example_gateway [])
           [{| data_body := Some "A1234" |}; {| data_body := Some "corrupt" |};
            {| data_body := Some "A56" |}] [] ["A1234"] ["A56"] "corrupt").
  - reflexivity.
  - repeat constructor. by exists {| numRows := 4 |}.
  - reflexivity.
Defined.

Lemma cancelled_fold (events : list health_event) (st : health_state) :
  cancelled (fold_left checkHealth_handle events st) =
  cancelled st || existsb is_timeout events.
Proof.
  revert st. induction events as [|ev events IH]; intros st; cbn [fold_left existsb].
  - by rewrite orb_false_r.
  - rewrite IH. destruct ev as [[fd| |err]|]; cbn [checkHealth_handle cancelled is_timeout orb];
      [done..|]. by rewrite orb_true_r.
Qed.

Lemma existsb_is_timeout (events : list health_event) :
  existsb is_timeout events = true <-> Timeout ∈ events.
Proof.
  rewrite existsb_exists. split.
  - intros (ev & Hin & Hev). destruct ev as [ev|]; [done|]. by apply list_elem_of_In.
  - intros Hin. exists Timeout. split; [by apply list_elem_of_In|done].
Qed.

(** X9.  The probe cancels its call exactly when the timer fires, and
    the timer is never cleared: a probe already answered by the end of
    the stream still cancels the call when the timer fires later. *)
Theorem checkHealth_cancels_at_timeout (events : list health_event) :
  (Timeout ∈ events -> cancelled (checkHealth_run events) = true) /\
  (cancelled (checkHealth_run events) = true -> Timeout ∈ events) /\
  (forall before after,
      events = before ++ Stream OnEnd :: after ->
      Timeout ∉ before -> Timeout ∈ after ->
      checkHealth (before ++ [Stream OnEnd]) <> Pending /\
      cancelled (checkHealth_run (before ++ [Stream OnEnd])) = false /\
      cancelled (checkHealth_run events) = true).
Proof.
  unfold checkHealth_run. rewrite cancelled_fold. cbn [cancelled orb].
  split; [by intros ?%existsb_is_timeout|].
  split; [by intros ?%existsb_is_timeout|].
  intros before after -> Hbefore Hafter. split; [|split].
  - unfold checkHealth, checkHealth_run. rewrite fold_left_app. cbn.
    by destruct (answer (fold_left _ before _)).
  - rewrite cancelled_fold. cbn [cancelled orb].
    destruct (existsb is_timeout (before ++ [Stream OnEnd])) eqn:E; [|done].
    apply existsb_is_timeout in E.
    rewrite elem_of_app, list_elem_of_singleton in E. by destruct E.
  - apply existsb_is_timeout. rewrite elem_of_app, elem_of_cons. tauto.
Qed.

Lemma answer_pending_fold (events : list health_event) (st : health_state) :
  answer st = Pending ->
  (answer (fold_left checkHealth_handle events st) = Pending <->
   Forall (fun ev => is_data ev = true) events).
Proof.
  revert st. induction events as [|ev events IH]; intros st Hst; cbn [fold_left].
  - split; [by constructor|done].
  - rewrite Forall_cons.
    destruct ev as [[fd| |err]|]; cbn [is_data].
    + rewrite IH by done. tauto.
    + rewrite answer_final; cbn [checkHealth_handle answer]; rewrite Hst; cbn; [|done].
      split; [done|by intros [? _]].
    + rewrite answer_final; cbn [checkHealth_handle answer]; rewrite Hst; cbn; [|done].
      split; [done|by intros [? _]].
    + rewrite answer_final; cbn [checkHealth_handle answer]; rewrite Hst; cbn; [|done].
      split; [done|by intros [? _]].
Qed.

(** X10.  Response units alone never answer the probe: it is pending
    exactly as long as nothing but response units has been observed. *)
Theorem checkHealth_pending_until_decided (events : list health_event) :
  (checkHealth events = Pending -> Forall (fun ev => is_data ev = true) events) /\
  (Forall (fun ev => is_data ev = true) events -> checkHealth events = Pending).
Proof.
  unfold checkHealth, checkHealth_run. by apply answer_pending_fold.
Qed.

(** X5.  End to end: when the resolution names at least one endpoint
    and the stream of the first one ends normally with chunks that all
    decode, [queryDataset] returns a Success result whose rows and
    bytes are the totals over that whole stream; only the first
    endpoint is fetched. *)
Theorem queryDataset_reports_stream_totals (gateway : Gateway) (tenantId ds : string)
        (limit : option row_limit) (w : world) (info : FlightInfo)
        (ep : FlightEndpoint) (more : list FlightEndpoint)
        (datas : list FlightData) (rest : list stream_event) :
  GetFlightInfo gateway (descriptor_of tenantId ds limit) = Fulfilled info ->
  endpoint info = Some (ep :: more) ->
  DoGet gateway (ticket (endpoint_ticket ep)) = (OnData <$> datas) ++ OnEnd :: rest ->
  Forall (decodes gateway) (data_chunks datas) ->
  exists r w',
    queryDataset gateway tenantId ds limit w = (Return r, w') /\
    status r = Success /\
    rows r = Some (Zsum (row_count gateway <$> data_chunks datas)) /\
    bytes r = Some (Zsum (Z.of_nat ∘ body_length <$> datas)) /\
    calls w' = calls w ++ [CallGetFlightInfo (descriptor_of tenantId ds limit);
                           CallDoGet (ticket (endpoint_ticket ep))].
Proof.
  intros Hinfo Hep Hstream Hall.
  assert (exists res, fetch_of gateway ep = Fulfilled res /\
                      complete_result gateway datas res) as (res & Hfetch & Hrows & Hbytes).
  { unfold fetch_of. rewrite Hstream, doGet_events_end.
    pose proof (on_end_spec gateway datas) as H.
    destruct (outcome (on_end _ _)) as [|res|err]; [done|exists res; by destruct H|].
    destruct H as (c & Hin & Hc). rewrite Forall_forall in Hall.
    destruct (Hall c Hin) as [t Ht]. congruence. }
  eexists _, _. split; [by eapply queryDataset_success|].
  cbn. by rewrite Hrows, Hbytes.
Qed.

Lemma queryDataset_reports_stream_totals_witness :
  exists r w',
    queryDataset (example_gateway [{| endpoint_ticket := {| ticket := "t1" |} |};
                                   {| endpoint_ticket := {| ticket := "t2" |} |}])
                 "tenant_001" "sales" None example_world = (Return r, w') /\
    status r = Success /\ rows r = Some 6%Z /\ bytes r = Some 8%Z /\
    calls w' = [CallGetFlightInfo {| type := PATH; path := ["tenant_001"; "sales"] |};
                CallDoGet "t1"].
Proof.
  apply (queryDataset_reports_stream_totals
           (example_gateway [{| endpoint_ticket := {| ticket := "t1" |} |};
                             {| endpoint_ticket := {| ticket := "t2" |} |}])
           "tenant_001" "sales" None example_world
           {| endpoint := Some [{| endpoint_ticket := {| ticket := "t1" |} |};
                                {| endpoint_ticket := {| ticket := "t2" |} |}] |}
           {| endpoint_ticket := {| ticket := "t1" |} |}
           [{| endpoint_ticket := {| ticket := "t2" |} |}]
           [{| data_body := Some "A1234" |}; {| data_body := None |};
            {| data_body := Some "A56" |}] []).
  - reflexivity.
  - reflexivity.
  - reflexivity.
  - repeat constructor; eexists; reflexivity.
Defined.

(* ===================================================================== *)
(** * Further properties of calculateMetrics                              *)
(* ===================================================================== *)

Lemma cmp_le (x y : Q) : Qle_bool (x - y) 0 = true <-> (x <= y)%Q.
Proof. rewrite Qle_bool_iff. split; intros; lra. Qed.

Lemma sort_insert_Qeq (x x' : Q) (l l' : list Q) :
  (x == x')%Q -> Forall2 Qeq l l' ->
  Forall2 Qeq (sort_insert (fun a b : Q => (a - b)%Q) x l) (sort_insert (fun a b : Q => (a - b)%Q) x' l').
Proof.
  intros Hx Hl. induction Hl as [|y y' l l' Hy Hl IH]; cbn [sort_insert].
  - by repeat constructor.
  - assert (Qle_bool (x - y) 0 = Qle_bool (x' - y') 0) as ->.
    { apply eq_true_iff_eq. rewrite !cmp_le. by rewrite Hx, Hy. }
    destruct (Qle_bool (x' - y') 0); repeat constructor; done.
Qed.

Lemma Forall2_Qeq_refl (l : list Q) : Forall2 Qeq l l.
Proof. induction l; constructor; [reflexivity|done]. Qed.

Lemma sort_insert_swap (x y : Q) (s : list Q) :
  Forall2 Qeq (sort_insert (fun a b : Q => (a - b)%Q) x (sort_insert (fun a b : Q => (a - b)%Q) y s))
              (sort_insert (fun a b : Q => (a - b)%Q) y (sort_insert (fun a b : Q => (a - b)%Q) x s)).
Proof.
  induction s as [|z t IH]; cbn [sort_insert].
  - destruct (Qle_bool (x - y) 0) eqn:Exy, (Qle_bool (y - x) 0) eqn:Eyx; cbn [sort_insert];
      rewrite ?Exy, ?Eyx; try apply Forall2_Qeq_refl.
    + apply cmp_le in Exy, Eyx. assert (x == y)%Q by lra.
      repeat constructor; [done|by symmetry].
    + exfalso. assert (~ (x <= y)%Q) by (rewrite <- cmp_le; congruence).
      assert (~ (y <= x)%Q) by (rewrite <- cmp_le; congruence). lra.
  - destruct (Qle_bool (y - z) 0) eqn:Eyz, (Qle_bool (x - z) 0) eqn:Exz; cbn [sort_insert];
      rewrite ?Eyz, ?Exz.
    + destruct (Qle_bool (x - y) 0) eqn:Exy, (Qle_bool (y - x) 0) eqn:Eyx;
        cbn [sort_insert]; rewrite ?Eyz, ?Exz; try apply Forall2_Qeq_refl.
      * apply cmp_le in Exy, Eyx. assert (x == y)%Q by lra.
        constructor; [done|]. constructor; [by symmetry|]. apply Forall2_Qeq_refl.
      * exfalso. assert (~ (x <= y)%Q) by (rewrite <- cmp_le; congruence).
        assert (~ (y <= x)%Q) by (rewrite <- cmp_le; congruence). lra.
    + assert (Qle_bool (x - y) 0 = false) as ->.
      { apply not_true_is_false. rewrite cmp_le. apply cmp_le in Eyz.
        assert (~ (x <= z)%Q) by (rewrite <- cmp_le; congruence). lra. }
      cbn [sort_insert]. rewrite ?Exz, ?Eyz. apply Forall2_Qeq_refl.
    + assert (Qle_bool (y - x) 0 = false) as ->.
      { apply not_true_is_false. rewrite cmp_le. apply cmp_le in Exz.
        assert (~ (y <= z)%Q) by (rewrite <- cmp_le; congruence). lra. }
      cbn [sort_insert]. rewrite ?Exz, ?Eyz. apply Forall2_Qeq_refl.
    + constructor; [reflexivity|done].
Qed.

Lemma Forall2_Qeq_trans (l1 l2 l3 : list Q) :
  Forall2 Qeq l1 l2 -> Forall2 Qeq l2 l3 -> Forall2 Qeq l1 l3.
Proof.
  intros H12. revert l3. induction H12 as [|x y l1 l2 Hxy _ IH]; intros l3 H23.
  - by inversion H23.
  - inversion H23 as [|? z ? l3' Hyz Hl]; subst. constructor; [by rewrite Hxy|by apply IH].
Qed.

Lemma Array_sort_perm_Qeq (l l' : list Q) :
  l ≡ₚ l' -> Forall2 Qeq (Array_sort (fun a b : Q => (a - b)%Q) l) (Array_sort (fun a b : Q => (a - b)%Q) l').
Proof.
  induction 1 as [|x l l' _ IH|x y l|l l' l'' _ IH1 _ IH2]; cbn [Array_sort foldr].
  - constructor.
  - by apply sort_insert_Qeq.
  - apply sort_insert_swap.
  - by eapply Forall2_Qeq_trans.
Qed.

Lemma Qsum_Qeq (l l' : list Q) : Forall2 Qeq l l' -> (Qsum l == Qsum l')%Q.
Proof.
  induction 1 as [|x y l l' Hxy _ IH]; [reflexivity|].
  unfold Qsum in *. cbn [foldr]. by rewrite Hxy, IH.
Qed.

Lemma reduce_Zplus {A : Type} (f : A -> Z) (l : list A) (acc : Z) :
  Array_reduce (fun sum r => (sum + f r)%Z) acc l = (acc + Zsum (f <$> l))%Z.
Proof.
  unfold Array_reduce. revert acc.
  induction l as [|x l IH]; intros acc; cbn [fold_left]; [unfold Zsum; simpl; lia|].
  rewrite IH, fmap_cons, Zsum_cons. lia.
Qed.

Lemma Zsum_perm (l l' : list Z) : l ≡ₚ l' -> Zsum l = Zsum l'.
Proof.
  induction 1 as [|x l l' _ IH|x y l|l l' l'' _ IH1 _ IH2]; rewrite ?Zsum_cons;
    [done|lia|lia|congruence].
Qed.

Lemma number_eq_refl (a : number) : number_eq a a.
Proof. destruct a; cbn; [reflexivity|done..]. Qed.

(** X11.  The metrics do not depend on the order in which the results
    were collected. *)
Theorem calculateMetrics_order_independent (results results' : list QueryResult)
        (duration : Q) :
  results ≡ₚ results' ->
  let m := calculateMetrics results duration in
  let m' := calculateMetrics results' duration in
  total_requests m = total_requests m' /\
  successful m = successful m' /\
  failed m = failed m' /\
  total_rows m = total_rows m' /\
  total_bytes m = total_bytes m' /\
  throughput m = throughput m' /\
  number_eq (avg_latency_ms m) (avg_latency_ms m') /\
  option_Forall2 Qeq (p95_latency_ms m) (p95_latency_ms m').
Proof.
  intros Hperm m m'.
  assert (successful_of results ≡ₚ successful_of results') as Hs
      by (unfold successful_of; by rewrite Hperm).
  assert (failed_of results ≡ₚ failed_of results') as Hf
      by (unfold failed_of; by rewrite Hperm).
  assert (Forall2 Qeq (latencies_of results) (latencies_of results')) as Hl.
  { unfold latencies_of. apply Array_sort_perm_Qeq. by rewrite Hs. }
  pose proof (Forall2_length _ _ _ Hl) as Hlen.
  unfold m, m', calculateMetrics.
  cbn [total_requests successful failed total_rows total_bytes throughput
       avg_latency_ms p95_latency_ms].
  rewrite !reduce_Zplus, <- Hlen.
  split; [by rewrite Hperm|]. split; [by rewrite Hs|]. split; [by rewrite Hf|].
  split; [f_equal; apply Zsum_perm; by rewrite Hs|].
  split; [f_equal; apply Zsum_perm; by rewrite Hs|].
  split; [by rewrite Hperm|].
  destruct (decide (0 < length (latencies_of results))) as [Hpos|Hz].
  - split; [|by apply Forall2_lookup].
    rewrite (reduce_js_add_Qeq _ _ _ Hl). apply number_eq_refl.
  - split; [cbn; reflexivity|]. constructor. reflexivity.
Qed.

Lemma calculateMetrics_order_independent_witness :
  total_rows (calculateMetrics (reverse scenario_results) 2) =
    total_rows (calculateMetrics scenario_results 2) /\
  option_Forall2 Qeq (p95_latency_ms (calculateMetrics (reverse scenario_results) 2))
                     (p95_latency_ms (calculateMetrics scenario_results 2)).
Proof.
  pose proof (calculateMetrics_order_independent (reverse scenario_results) scenario_results 2
                (reverse_Permutation scenario_results)) as (_ & _ & _ & Hrows & _ & _ & _ & Hp).
  split; [exact Hrows|exact Hp].
Defined.

Lemma Sorted_Qle_lookup (l : list Q) (j k : nat) (x y : Q) :
  Sorted Qle l -> j <= k -> l !! j = Some x -> l !! k = Some y -> (x <= y)%Q.
Proof.
  intros Hs. revert j k x y.
  induction Hs as [|a l Hs IH Hhd]; intros j k x y Hjk Hx Hy; [done|].
  destruct j as [|j], k as [|k]; cbn in Hx, Hy; try lia.
  - injection Hx as <-. injection Hy as <-. lra.
  - injection Hx as <-.
    destruct l as [|b l]; [done|].
    inversion Hhd as [|? ? Hab]; subst.
    assert (b <= y)%Q; [|lra].
    apply (IH 0 k); [lia|done|done].
  - apply (IH j k); [lia|done|done].
Qed.

Lemma length_filter_all {A : Type} (P : A -> Prop) `{!forall x, Decision (P x)}
      (l : list A) :
  Forall P l -> length (filter P l) = length l.
Proof.
  induction 1 as [|x l Hx _ IH]; [done|].
  rewrite filter_cons, decide_True by done. simpl. by rewrite IH.
Qed.

Lemma length_filter_take_drop {A : Type} (P : A -> Prop) `{!forall x, Decision (P x)}
      (l : list A) (k : nat) :
  length (filter P l) = length (filter P (take k l)) + length (filter P (drop k l)).
Proof. by rewrite <- (take_drop k l) at 1; rewrite filter_app, length_app. Qed.

(** X12.  With at least one success, p95 is one of the successful
    latencies, more than 95% of them are at most p95, and at least 5%
    of them are at least p95. *)
Theorem calculateMetrics_p95_percentile (results : list QueryResult) (duration : Q) :
  successful_of results <> [] ->
  let lats := successful_latencies results in
  exists x,
    p95_latency_ms (calculateMetrics results duration) = Some x /\
    x ∈ lats /\
    95 * length lats < 100 * length (at_most x lats) /\
    5 * length lats <= 100 * length (at_least x lats).
Proof.
  intros Hne lats.
  pose proof (latencies_of_perm results) as Hperm. fold (successful_of results) in Hperm.
  fold (successful_latencies results) in Hperm. fold lats in Hperm.
  pose proof (Array_sort_sorted (total_latency_ms <$> successful_of results)) as Hsorted.
  fold (latencies_of results) in Hsorted.
  assert (length (latencies_of results) = length lats) as Hlen by by rewrite Hperm.
  assert (0 < length lats) as Hpos.
  { unfold lats, successful_latencies. rewrite length_fmap.
    destruct (successful_of results); simpl; [done|lia]. }
  set (k := p95_index (length (latencies_of results))).
  pose proof (p95_index_floor (length (latencies_of results))) as Hk. fold k in Hk.
  destruct (lookup_lt_is_Some_2 (latencies_of results) k) as [x Hx]; [lia|].
  exists x. split; [|split; [|split]].
  - unfold calculateMetrics. cbn [p95_latency_ms].
    rewrite decide_True by lia. exact Hx.
  - rewrite <- Hperm. by eapply list_elem_of_lookup_2.
  - unfold at_most. rewrite <- Hperm.
    rewrite (length_filter_take_drop _ (latencies_of results) (S k)).
    rewrite length_filter_all.
    + rewrite length_take. lia.
    + apply Forall_forall. intros y Hy.
      apply list_elem_of_lookup in Hy as [j Hj].
      apply lookup_take_Some in Hj as [Hj Hlt].
      apply Is_true_true, Qle_bool_iff.
      apply (Sorted_Qle_lookup _ j k y x Hsorted); [lia|done|done].
  - unfold at_least. rewrite <- Hperm.
    rewrite (length_filter_take_drop _ (latencies_of results) k).
    rewrite (length_filter_all _ (drop k _)).
    + rewrite length_drop. lia.
    + apply Forall_forall. intros y Hy.
      apply list_elem_of_lookup in Hy as [j Hj].
      rewrite lookup_drop in Hj.
      apply Is_true_true, Qle_bool_iff.
      apply (Sorted_Qle_lookup _ k (k + j) x y Hsorted); [lia|done|done].
Qed.

Lemma calculateMetrics_p95_percentile_witness :
  exists x,
    p95_latency_ms (calculateMetrics scenario_results 2) = Some x /\
    x ∈ successful_latencies scenario_results /\
    95 * 10 < 100 * length (at_most x (successful_latencies scenario_results)).
Proof.
  destruct (calculateMetrics_p95_percentile scenario_results 2 ltac:(discriminate))
    as (x & Hp & Hin & Hle & _).
  exists x. split; [exact Hp|]. split; [exact Hin|exact Hle].
Defined.

Section Rounding_facts.

Local Open Scope Z_scope.

Lemma shr_1_nonneg (mrs : shr_record) : 0 <= shr_m mrs -> 0 <= shr_m (shr_1 mrs).
Proof.
  destruct mrs as [m r s]. cbn [shr_m shr_1].
  destruct m as [|[p|p|]|[p|p|]]; cbn; lia.
Qed.

Lemma iter_shr_1_nonneg (p : positive) (mrs : shr_record) :
  0 <= shr_m mrs -> 0 <= shr_m (SpecFloat.iter_pos shr_1 p mrs).
Proof.
  revert mrs. induction p as [p IH|p IH|]; intros mrs Hm; cbn [SpecFloat.iter_pos].
  - apply IH, IH. by apply shr_1_nonneg.
  - by apply IH, IH.
  - by apply shr_1_nonneg.
Qed.

Lemma shr_fexp_nonneg (m e : Z) (l : location) :
  0 <= m -> 0 <= shr_m (shr_fexp 53 1024 m e l).1.
Proof.
  intros Hm. unfold shr_fexp, shr.
  assert (shr_m (shr_record_of_loc m l) = m) as Hrec by (by destruct l as [|[]]).
  destruct (fexp 53 1024 (Zdigits2 m + e) - e) as [|p|p]; cbn [fst]; rewrite ?Hrec; try done.
  apply iter_shr_1_nonneg. by rewrite Hrec.
Qed.

Lemma round_nearest_even_nonneg (m : Z) (l : location) :
  0 <= m -> 0 <= SpecFloat.round_nearest_even m l.
Proof.
  intros Hm. destruct l as [|[]]; cbn; try done; [|lia].
  destruct (Z.even m); lia.
Qed.

(** Rounding a mantissa that is not negative gives a zero, a finite
    number or an infinity of the given sign, never NaN. *)
Lemma binary_round_aux_sign (negative : bool) (m e : Z) (l : location) :
  0 <= m ->
  binary_round_aux 53 1024 negative m e l = S754_zero negative \/
  binary_round_aux 53 1024 negative m e l = S754_infinity negative \/
  exists m' e', binary_round_aux 53 1024 negative m e l = S754_finite negative m' e'.
Proof.
  intros Hm. unfold binary_round_aux.
  pose proof (shr_fexp_nonneg m e l Hm) as H1.
  destruct (shr_fexp 53 1024 m e l) as [mrs' e'] eqn:E1. cbn [fst] in H1.
  pose proof (shr_fexp_nonneg
                (SpecFloat.round_nearest_even (shr_m mrs') (loc_of_shr_record mrs')) e'
                loc_Exact (round_nearest_even_nonneg _ _ H1)) as H2.
  destruct (shr_fexp 53 1024 _ e' loc_Exact) as [mrs'' e''] eqn:E2. cbn [fst] in H2.
  destruct (shr_m mrs'') as [|p|p]; [by left| |lia].
  destruct (e'' <=? 1024 - 53); [right; right; by eexists _, _|right; by left].
Qed.

Lemma divide64_sign (negative : bool) (a d : positive) :
  divide64 negative a d = S754_zero negative \/
  divide64 negative a d = S754_infinity negative \/
  exists m' e', divide64 negative a d = S754_finite negative m' e'.
Proof.
  unfold divide64, SFdiv_core_binary.
  set (m' := match _ - _ with Z.pos _ => _ | _ => _ end).
  assert (0 <= m') as Hm'.
  { unfold m'. destruct (_ - _ - _) as [|p|p]; [lia| |lia]. apply Z.shiftl_nonneg. lia. }
  pose proof (Z.div_pos m' (Z.pos d) Hm' ltac:(lia)) as Hq.
  unfold Z.div in Hq. destruct (Z.div_eucl m' (Z.pos d)) as [q r].
  by apply binary_round_aux_sign.
Qed.

End Rounding_facts.

(** The rounded value is never NaN and has the sign of the exact one. *)
Lemma round64_sign (q : Q) :
  round64 q <> NaN /\
  ((0 <= q)%Q -> round64 q = PInf \/ exists x, round64 q = Num x /\ (0 <= x)%Q) /\
  ((q <= 0)%Q -> round64 q = NInf \/ exists x, round64 q = Num x /\ (x <= 0)%Q).
Proof.
  unfold round64. pose proof (Qred_correct q) as Hred.
  destruct (Qred q) as [n d]. cbn [Qnum Qden].
  assert (forall m e, (0 <= if (0 <=? e)%Z then inject_Z (Z.pos m * 2 ^ e)
                            else Z.pos m # Z.to_pos (2 ^ (- e)))%Q) as Hmag.
  { intros m e. destruct (0 <=? e)%Z eqn:He.
    - apply Z.leb_le in He. unfold Qle. cbn.
      pose proof (Z.pow_pos_nonneg 2 e ltac:(lia) He). nia.
    - unfold Qle. cbn. lia. }
  destruct n as [|a|a].
  - split; [done|]. split; intros _; right; exists 0%Q; split; (done || apply Qle_refl).
  - assert (0 < q)%Q as Hq by (rewrite <- Hred; unfold Qlt; cbn; lia).
    destruct (divide64_sign false a d) as [-> |[-> |(m & e & ->)]]; cbn [number_of_float].
    + split; [done|]. split; [intros _; right; exists 0%Q; split; [done|apply Qle_refl]|].
      intros Hle. lra.
    + split; [done|]. split; [by left|]. intros Hle. lra.
    + split; [done|]. split; [right; eexists; split; [done|apply Hmag]|].
      intros Hle. lra.
  - assert (q < 0)%Q as Hq by (rewrite <- Hred; unfold Qlt; cbn; lia).
    destruct (divide64_sign true a d) as [-> |[-> |(m & e & ->)]]; cbn [number_of_float].
    + split; [done|]. split; [intros Hle; lra|].
      intros _; right; exists 0%Q; split; [done|apply Qle_refl].
    + split; [done|]. split; [intros Hle; lra|by left].
    + split; [done|]. split; [intros Hle; lra|].
      right. eexists. split; [done|]. pose proof (Hmag m e). lra.
Qed.

(** X14.  The throughput is the number of results divided by the
    duration, in binary64.  A zero duration gives Infinity, or NaN
    when there is no result, never an exception; with a duration that
    is not zero the throughput is never NaN, and it is 0 when there is
    no result; with a positive duration it is not negative, or is
    Infinity; and whenever the quotient is a binary64 number the
    throughput times the duration is the number of results. *)
Theorem calculateMetrics_throughput (results : list QueryResult) (duration : Q) :
  let m := calculateMetrics results duration in
  let n := inject_Z (Z.of_nat (total_requests m)) in
  ((duration == 0)%Q ->
   throughput m = match results with [] => NaN | _ => PInf end) /\
  (~ (duration == 0)%Q ->
   throughput m <> NaN /\ (results = [] -> throughput m = Num 0)) /\
  ((0 < duration)%Q ->
   throughput m = PInf \/ exists q, throughput m = Num q /\ (0 <= q)%Q) /\
  (~ (duration == 0)%Q -> exact64 (n / duration) ->
   exists q, throughput m = Num q /\ (q * duration == n)%Q).
Proof.
  intros m n. unfold n, m, calculateMetrics. cbn [throughput total_requests].
  split; [|split; [|split]].
  - intros Hd. unfold js_div.
    rewrite (proj2 (Qeq_bool_iff duration 0) Hd).
    destruct results as [|r results]; [done|].
    cbn [length]. destruct (Qeq_bool _ 0) eqn:E.
    + apply Qeq_bool_iff in E. unfold Qeq in E. cbn in E. lia.
    + destruct (Qle_bool 0 _) eqn:E'; [done|].
      assert (Qle_bool 0 (inject_Z (Z.of_nat (S (length results)))) = true) as E''.
      { apply Qle_bool_iff. unfold Qle. cbn. lia. }
      congruence.
  - intros Hd. rewrite js_div_finite by done. split; [apply round64_sign|].
    intros ->. apply round64_zero. cbn. unfold Qdiv. ring.
  - intros Hd. rewrite js_div_finite by lra. apply round64_sign.
    apply Qle_shift_div_l; [done|]. rewrite Qmult_0_l.
    unfold Qle. cbn. lia.
  - intros Hd (q & Hq & Hqn). rewrite js_div_finite by done.
    exists q. split; [done|]. rewrite Hqn. by field.
Qed.

Lemma successful_of_idemp (results : list QueryResult) :
  successful_of (successful_of results) = successful_of results.
Proof.
  unfold successful_of. induction results as [|r results IH]; [done|].
  rewrite filter_cons. destruct (decide (status r = Success)) as [Hs|Hs]; [|done].
  rewrite filter_cons, decide_True by done. by rewrite IH.
Qed.

Lemma failed_of_successful (results : list QueryResult) :
  failed_of (successful_of results) = [].
Proof.
  unfold failed_of, successful_of. induction results as [|r results IH]; [done|].
  rewrite filter_cons. destruct (decide (status r = Success)) as [Hs|Hs]; [|done].
  rewrite filter_cons, decide_False by (intros H; by apply H). done.
Qed.

(** X15.  Failed results count in [total_requests], [failed] and the
    throughput only: every other metric is what the successful results
    alone give. *)
Theorem calculateMetrics_ignores_failures (results : list QueryResult) (duration : Q) :
  let m := calculateMetrics results duration in
  let m' := calculateMetrics (successful_of results) duration in
  successful m = successful m' /\
  total_requests m' = successful m /\
  failed m' = 0 /\
  total_rows m = total_rows m' /\
  total_bytes m = total_bytes m' /\
  avg_latency_ms m = avg_latency_ms m' /\
  p95_latency_ms m = p95_latency_ms m'.
Proof.
  intros m m'. unfold m, m', calculateMetrics, latencies_of.
  cbn [successful total_requests failed total_rows total_bytes avg_latency_ms p95_latency_ms].
  by rewrite successful_of_idemp, failed_of_successful.
Qed.

(** X16.  Counts and totals of two batches of results add up, and the
    latencies of the whole are those of the parts. *)
Theorem calculateMetrics_additive (batch1 batch2 : list QueryResult) (duration : Q) :
  let m := calculateMetrics (batch1 ++ batch2) duration in
  let m1 := calculateMetrics batch1 duration in
  let m2 := calculateMetrics batch2 duration in
  total_requests m = total_requests m1 + total_requests m2 /\
  successful m = successful m1 + successful m2 /\
  failed m = failed m1 + failed m2 /\
  total_rows m = (total_rows m1 + total_rows m2)%Z /\
  total_bytes m = (total_bytes m1 + total_bytes m2)%Z /\
  latencies_of (batch1 ++ batch2) ≡ₚ latencies_of batch1 ++ latencies_of batch2.
Proof.
  intros m m1 m2. unfold m, m1, m2, calculateMetrics.
  cbn [successful total_requests failed total_rows total_bytes].
  unfold successful_of, failed_of.
  rewrite !reduce_Zplus, !filter_app, !fmap_app, !Zsum_app, !length_app.
  repeat split; try lia.
  rewrite !latencies_of_perm, filter_app, fmap_app. done.
Qed.

(* ===================================================================== *)
(** * Further properties of runLoadTest                                   *)
(* ===================================================================== *)

Section Run_facts.
Variable cfg : config.

Lemma loop_step_keeps (s : state) :
  results (loop_step cfg s) = results s /\
  startTime (loop_step cfg s) = startTime s /\
  forall m, ctl (loop_step cfg s) <> Finished m.
Proof.
  unfold loop_step.
  destruct (Z.of_nat (i s) <? totalRequests cfg)%Z.
  - destruct (then_ _ _ _) as [all1 jobs1].
    destruct (concurrency cfg <=? _)%Z; [destruct (Promise_race _ _ _) as [all2 jobs2]|];
      cbn; done.
  - destruct (Promise_all _) as [all1 jobs1]. cbn. done.
Qed.

Lemma run_job_keeps (now : Q) (j : job) (rest : list job) (s : state) :
  results (run_job now j rest s) = results s /\
  startTime (run_job now j rest s) = startTime s.
Proof.
  unfold run_job.
  destruct j as [p|r p|p|], (ctl s) as [|r' [|]|[|n]|m]; cbn; try done;
    by destruct (decide _).
Qed.


Lemma step_observations (s s' : state) (l : label) :
  step cfg s l = Some s' ->
  results s' = results s ++ completed [l] /\ startTime s' = startTime s /\
  (forall m', ctl s <> Finished m').
Proof.
  unfold step. destruct l as [|now'|p result].
  - destruct (ctl s) eqn:Hctl; try done. intros [= <-].
    destruct (loop_step_keeps s) as (-> & -> & _). by rewrite app_nil_r.
  - destruct (ctl s) eqn:Hctl; try done;
      (destruct (jobs s) as [|j rest]; [done|]; intros [= <-];
       destruct (run_job_keeps now' j rest s) as (-> & ->); by rewrite app_nil_r).
  - destruct (ctl s) eqn:Hctl; try done;
      (intros H; apply complete_inv in H as (t & rs & _ & ->); cbn; done).
Qed.

Lemma steps_observations (schedule : list label) (s s' : state) :
  steps cfg s schedule = Some s' ->
  results s' = results s ++ completed schedule /\ startTime s' = startTime s.
Proof.
  revert s. induction schedule as [|l ls IH]; intros s; cbn [steps].
  - intros [= <-]. by rewrite app_nil_r.
  - destruct (step cfg s l) as [s1|] eqn:Hstep; [|done].
    intros H. apply IH in H as [-> ->].
    apply step_observations in Hstep as (-> & -> & _).
    split; [|done]. rewrite <- app_assoc. f_equal.
    unfold completed. by destruct l.
Qed.

End Run_facts.

(** X18.  At every moment of a run, [this.results] holds the results of
    the requests completed so far, in the order of their completion,
    and never more results than requests have been started. *)
Theorem runLoadTest_results_in_completion_order (cfg : config) (now : Q)
        (schedule : list label) (s : state) :
  steps cfg (init now) schedule = Some s ->
  results s = completed schedule /\
  length (results s) <= i s.
Proof.
  intros Hsteps. pose proof (reachable_coherent cfg now schedule s Hsteps) as Hc.
  split; [by apply steps_observations in Hsteps as [-> _]|].
  pose proof (coh_results cfg s Hc). pose proof (coh_length cfg s Hc). lia.
Qed.

Lemma runLoadTest_results_in_completion_order_witness :
  exists s,
    steps scenario_cfg (init 0) scenario_schedule = Some s /\
    results s = scenario_results.
Proof.
  destruct (steps scenario_cfg (init 0) scenario_schedule) as [s|] eqn:E;
    [|vm_compute in E; discriminate E].
  exists s. split; [reflexivity|].
  rewrite (proj1 (runLoadTest_results_in_completion_order scenario_cfg 0 scenario_schedule s E)).
  vm_compute. reflexivity.
Defined.



(** X20.  The run never returns while a request is outstanding: when it
    has returned, every request has been admitted and has completed. *)
Theorem runLoadTest_waits_for_all (cfg : config) (now : Q) (schedule : list label)
        (s : state) (m : LoadTestMetrics) :
  steps cfg (init now) schedule = Some s ->
  ctl s = Finished m ->
  outstanding s = [] /\
  i s = Z.to_nat (totalRequests cfg) /\
  (forall p, p < i s -> is_fulfilled (allPromises s) p = true) /\
  forall l, step cfg s l = None.
Proof.
  intros Hsteps Hfin. pose proof (reachable_coherent cfg now schedule s Hsteps) as Hc.
  destruct (coh_finished cfg s Hc m Hfin) as [Hres _].
  pose proof (coh_results cfg s Hc) as Hsum.
  pose proof (coh_length cfg s Hc) as Hlen.
  pose proof (coh_exit cfg s Hc) as Hexit. rewrite Hfin in Hexit. specialize (Hexit I).
  pose proof (coh_bound cfg s Hc) as Hbound.
  assert (i s = Z.to_nat (totalRequests cfg)) as Hi by lia.
  assert (outstanding s = []) as Hout by (apply nil_length_inv; lia).
  split; [done|]. split; [done|]. split.
  - intros p Hp.
    destruct (lookup_lt_is_Some_2 (allPromises s) p) as [[t [rs|r]] Hreq]; [lia| |].
    + assert (p ∈ outstanding s) as Hin by (apply elem_of_outstanding; by exists rs, t).
      rewrite Hout in Hin. by apply elem_of_nil in Hin.
    + unfold is_fulfilled. by rewrite Hreq.
  - intros l. unfold step. rewrite Hfin. by destruct l.
Qed.

Lemma runLoadTest_waits_for_all_witness :
  exists s m,
    steps scenario_cfg (init 0) scenario_schedule = Some s /\
    ctl s = Finished m /\ outstanding s = [] /\ i s = 10.
Proof.
  destruct (steps scenario_cfg (init 0) scenario_schedule) as [s|] eqn:E;
    [|vm_compute in E; discriminate E].
  destruct (ctl s) as [| | |m] eqn:Hctl;
    [vm_compute in E; injection E as <-; vm_compute in Hctl; discriminate Hctl..|].
  exists s, m. split; [reflexivity|]. split; [exact Hctl|].
  destruct (runLoadTest_waits_for_all scenario_cfg 0 scenario_schedule s m E Hctl)
    as (Hout & Hi & _).
  split; [exact Hout|exact Hi].
Defined.

Section Cap_below_two.
Variable cfg : config.
Hypothesis cap_small : (concurrency cfg <= 1)%Z.

Lemma Set_add_nonempty (p : nat) (set : list nat) : 0 < length (Set_add p set).
Proof.
  unfold Set_add. destruct (decide (p ∈ set)) as [Hin|Hin].
  - destruct set; [by apply elem_of_nil in Hin|simpl; lia].
  - rewrite length_app. simpl. lia.
Qed.

Lemma loop_step_cap_one (s : state) :
  loop_step cfg s = loop_step (with_concurrency 1 cfg) s.
Proof.
  unfold loop_step. cbn [with_concurrency totalRequests tenants concurrency].
  destruct (Z.of_nat (i s) <? totalRequests cfg)%Z; [|done].
  pose proof (Set_add_nonempty (length (allPromises s)) (pending s)) as Hpos.
  destruct (then_ _ _ _) as [all1 jobs1].
  rewrite (proj2 (Z.leb_le (concurrency cfg) _)) by lia.
  rewrite (proj2 (Z.leb_le 1 _)) by lia. done.
Qed.

Lemma steps_cap_one (schedule : list label) (s : state) :
  steps cfg s schedule = steps (with_concurrency 1 cfg) s schedule.
Proof.
  revert s. induction schedule as [|l ls IH]; intros s; [done|].
  cbn [steps].
  assert (step cfg s l = step (with_concurrency 1 cfg) s l) as <-.
  { unfold step. destruct l; [|done..]. destruct (ctl s); try done.
    by rewrite loop_step_cap_one. }
  destruct (step cfg s l); [apply IH|done].
Qed.

End Cap_below_two.

(** X21.  A cap of 1, 0 or a negative number makes the run strictly
    serial, and the run is the same as with a cap of 1: at most one
    request is outstanding, and none while the loop is running. *)
Theorem runLoadTest_serial_below_two (cfg : config) (now : Q) (schedule : list label)
        (s : state) :
  (concurrency cfg <= 1)%Z ->
  steps cfg (init now) schedule = Some s ->
  steps (with_concurrency 1 cfg) (init now) schedule = Some s /\
  length (outstanding s) <= 1 /\
  (ctl s = Running -> outstanding s = []).
Proof.
  intros Hcap Hsteps. rewrite (steps_cap_one cfg Hcap) in Hsteps.
  split; [done|].
  set (cfg1 := with_concurrency 1 cfg) in *.
  pose proof (reachable_coherent cfg1 now schedule s Hsteps) as Hc.
  assert (capped cfg1 s) as Hcapped.
  { eapply capped_steps; [apply coherent_init|apply capped_init; cbn; lia|done]. }
  pose proof (outstanding_le_pending cfg1 s Hc) as Hout.
  pose proof (cap_le cfg1 s Hcapped) as Hle. cbn in Hle.
  split; [lia|].
  intros Hrun. pose proof (cap_running cfg1 s Hcapped) as Hlt. rewrite Hrun in Hlt.
  cbn in Hlt. apply nil_length_inv. lia.
Qed.

Lemma runLoadTest_serial_below_two_witness :
  exists s,
    steps (with_concurrency 0 scenario_cfg) (init 0)
          [LoopStep;
           Complete 0 {| status := Error; tenant_id := "a"; dataset := "sales";
                         rows := None; bytes := None; metadata_latency_ms := None;
                         transfer_latency_ms := None; total_latency_ms := 12;
                         error := Some "14 UNAVAILABLE" |};
           RunJob 0; RunJob 0; RunJob 0; LoopStep] = Some s /\
    i s = 2 /\ length (outstanding s) <= 1.
Proof.
  destruct (steps (with_concurrency 0 scenario_cfg) (init 0) _) as [s|] eqn:E;
    [|vm_compute in E; discriminate E].
  exists s. split; [reflexivity|].
  split; [vm_compute in E; injection E as <-; reflexivity|].
  pose proof (runLoadTest_serial_below_two (with_concurrency 0 scenario_cfg) 0 _ s
                ltac:(vm_compute; discriminate) E) as (_ & H & _).
  exact H.
Defined.

(** X23.  With a negative [totalRequests], as with 0, no request is ever
    admitted, and the metrics returned count nothing. *)
Theorem runLoadTest_nonpositive_total (cfg : config) (now : Q) (schedule : list label)
        (s : state) :
  (totalRequests cfg <= 0)%Z ->
  steps cfg (init now) schedule = Some s ->
  i s = 0 /\ allPromises s = [] /\ results s = [] /\
  (forall m, ctl s = Finished m ->
             total_requests m = 0 /\ successful m = 0 /\ failed m = 0) /\
  exists now' m, runLoadTest cfg now [LoopStep; RunJob now'] = Some m.
Proof.
  intros Hneg Hsteps. pose proof (reachable_coherent cfg now schedule s Hsteps) as Hc.
  pose proof (coh_bound cfg s Hc) as Hbound.
  assert (i s = 0) as Hi by lia.
  pose proof (coh_length cfg s Hc) as Hlen. rewrite Hi in Hlen.
  pose proof (coh_results cfg s Hc) as Hsum. rewrite Hlen in Hsum.
  assert (results s = []) as Hres by (apply nil_length_inv; lia).
  split; [done|]. split; [by apply nil_length_inv|]. split; [done|]. split.
  - intros m Hfin. destruct (coh_finished cfg s Hc m Hfin) as [_ [d ->]].
    rewrite Hres. done.
  - exists 0%Q. unfold runLoadTest, steps, step, init, loop_step. cbn [ctl i].
    replace (Z.of_nat 0 <? totalRequests cfg)%Z with false
      by (symmetry; apply Z.ltb_ge; lia).
    cbn. eauto.
Qed.

Lemma runLoadTest_nonpositive_total_witness :
  exists m,
    runLoadTest {| totalRequests := -3; tenants := ["a"]; dataset_name := "sales";
                   rows_limit := None; concurrency := 3 |} 0 [LoopStep; RunJob 250] = Some m /\
    total_requests m = 0.
Proof.
  destruct (steps {| totalRequests := -3; tenants := ["a"]; dataset_name := "sales";
                     rows_limit := None; concurrency := 3 |} (init 0) [LoopStep; RunJob 250])
    as [s|] eqn:E; [|vm_compute in E; discriminate E].
  destruct (ctl s) as [| | |m] eqn:Hctl;
    [vm_compute in E; injection E as <-; vm_compute in Hctl; discriminate Hctl..|].
  exists m. split.
  - unfold runLoadTest. rewrite E, Hctl. reflexivity.
  - destruct (runLoadTest_nonpositive_total
                {| totalRequests := -3; tenants := ["a"]; dataset_name := "sales";
                   rows_limit := None; concurrency := 3 |} 0 [LoopStep; RunJob 250] s
                ltac:(vm_compute; discriminate) E)
      as (_ & _ & _ & Hm & _).
    exact (proj1 (Hm m Hctl)).
Defined.

(** X24.  With an empty tenant list the run proceeds as usual, and every
    request is issued with an undefined tenant. *)
Theorem runLoadTest_empty_tenants (cfg : config) (now : Q) (schedule : list label)
        (s : state) :
  tenants cfg = [] ->
  steps cfg (init now) schedule = Some s ->
  forall p, p < i s -> req_tenant <$> allPromises s !! p = Some None.
Proof.
  intros Hnil Hsteps p Hp.
  pose proof (reachable_coherent cfg now schedule s Hsteps) as Hc.
  rewrite (coh_tenant cfg s Hc p Hp), Hnil. done.
Qed.

Lemma runLoadTest_empty_tenants_witness :
  exists s,
    steps {| totalRequests := 2; tenants := []; dataset_name := "sales";
             rows_limit := None; concurrency := 3 |} (init 0) [LoopStep; LoopStep] = Some s /\
    i s = 2 /\
    req_tenant <$> allPromises s !! 1 = Some None.
Proof.
  destruct (steps {| totalRequests := 2; tenants := []; dataset_name := "sales";
                     rows_limit := None; concurrency := 3 |} (init 0) [LoopStep; LoopStep])
    as [s|] eqn:E; [|vm_compute in E; discriminate E].
  exists s. split; [reflexivity|].
  assert (i s = 2) as Hi by (vm_compute in E; injection E as <-; reflexivity).
  split; [exact Hi|].
  apply (runLoadTest_empty_tenants
           {| totalRequests := 2; tenants := []; dataset_name := "sales";
              rows_limit := None; concurrency := 3 |} 0 [LoopStep; LoopStep] s eq_refl E).
  lia.
Defined.

Lemma answers_scenario :
  answers (example_gateway [{| endpoint_ticket := {| ticket := "t1" |} |}]) scenario_cfg.
Proof.
  intros p _.
  assert (p mod 2 = 0 \/ p mod 2 = 1) as [Hp|Hp]
      by (pose proof (Nat.mod_upper_bound p 2); lia).
  - eexists "a", example_world, _. cbn [tenants scenario_cfg length]. rewrite Hp.
    split; [reflexivity|vm_compute; reflexivity].
  - eexists "b", example_world, _. cbn [tenants scenario_cfg length]. rewrite Hp.
    split; [reflexivity|vm_compute; reflexivity].
Qed.

Lemma runLoadTest_returns_witness :
  exists s more m,
    steps scenario_cfg (init 0) (take 3 scenario_schedule) = Some s /\
    runLoadTest scenario_cfg 0 (take 3 scenario_schedule ++ more) = Some m /\
    served (example_gateway [{| endpoint_ticket := {| ticket := "t1" |} |}])
           scenario_cfg s more.
Proof.
  destruct (steps scenario_cfg (init 0) (take 3 scenario_schedule)) as [s|] eqn:E;
    [|vm_compute in E; discriminate E].
  destruct (runLoadTest_returns
              (example_gateway [{| endpoint_ticket := {| ticket := "t1" |} |}])
              scenario_cfg 0 (take 3 scenario_schedule) s answers_scenario E)
    as (more & m & H).
  exists s, more, m. split; [reflexivity|exact H].
Defined.

Lemma singleRequest_queryDataset (gateway : Gateway) (tenantId ds : string)
      (limit : option row_limit) (w : world) :
  singleRequest (inr gateway) tenantId ds limit w = queryDataset gateway tenantId ds limit w.
Proof.
  unfold singleRequest, new_FlightClient, mbind, M_bind, mret, M_ret.
  by destruct (queryDataset gateway tenantId ds limit w) as [[r|e|] w'].
Qed.

Lemma loop_step_i (cfg : config) (s : state) : i s <= i (loop_step cfg s).
Proof.
  unfold loop_step.
  destruct (Z.of_nat (i s) <? totalRequests cfg)%Z.
  - destruct (then_ _ _ _) as [all1 jobs1].
    destruct (concurrency cfg <=? _)%Z; [destruct (Promise_race _ _ _) as [all2 jobs2]|];
      cbn; lia.
  - destruct (Promise_all _) as [all1 jobs1]. cbn. lia.
Qed.

Lemma run_job_i (now : Q) (j : job) (rest : list job) (s : state) :
  i (run_job now j rest s) = i s.
Proof.
  unfold run_job.
  destruct j as [p|r p|p|], (ctl s) as [|r' [|]|[|n]|m]; cbn; try done;
    by destruct (decide _).
Qed.

(** X25.  When every completion delivers what [singleRequest] returns
    for its request, every collected result names the dataset of the
    run and the tenant that the index of some admitted request
    selects from the tenant list. *)
Theorem runLoadTest_results_name_their_request (gateway : Gateway) (cfg : config)
        (now : Q) (schedule : list label) (s : state) :
  served gateway cfg (init now) schedule ->
  steps cfg (init now) schedule = Some s ->
  forall r, r ∈ results s ->
    dataset r = dataset_name cfg /\
    exists p, p < i s /\
              tenants cfg !! (p mod length (tenants cfg)) = Some (tenant_id r).
Proof.
  intros Hserved Hsteps.
  assert (forall s0,
             coherent cfg s0 ->
             (forall r, r ∈ results s0 ->
                dataset r = dataset_name cfg /\
                exists p, p < i s0 /\
                          tenants cfg !! (p mod length (tenants cfg)) = Some (tenant_id r)) ->
             served gateway cfg s0 schedule ->
             steps cfg s0 schedule = Some s ->
             forall r, r ∈ results s ->
                dataset r = dataset_name cfg /\
                exists p, p < i s /\
                          tenants cfg !! (p mod length (tenants cfg)) = Some (tenant_id r))
    as Hgen.
  { clear Hserved Hsteps.
    induction schedule as [|l ls IH]; intros s0 Hc Hinv Hserved Hsteps; cbn in Hsteps.
    { by injection Hsteps as <-. }
    destruct Hserved as [Hl Hrest].
    destruct (step cfg s0 l) as [s1|] eqn:Hstep; [|done].
    apply (IH s1); [by eapply coherent_step| |done|done].
    clear IH Hrest Hsteps.
    unfold step in Hstep. destruct l as [|now'|p result].
    - destruct (ctl s0); try done. injection Hstep as <-.
      rewrite (proj1 (loop_step_keeps cfg s0)). intros r Hr.
      destruct (Hinv r Hr) as (Hd & p & Hp & Ht). split; [done|].
      exists p. split; [|done]. pose proof (loop_step_i cfg s0). lia.
    - assert (exists j rest, s1 = run_job now' j rest s0) as (j & rest & ->).
      { destruct (ctl s0); try done; destruct (jobs s0) as [|j rest]; try done;
          injection Hstep as <-; by exists j, rest. }
      rewrite (proj1 (run_job_keeps now' j rest s0)), run_job_i. done.
    - assert (complete p result s0 = Some s1) as Hcomp by (by destruct (ctl s0)).
      apply complete_inv in Hcomp as (t & rs & Hreq & ->). cbn [results i].
      intros r Hr. apply elem_of_app in Hr as [Hr|Hr]; [by apply Hinv|].
      apply list_elem_of_singleton in Hr as ->.
      destruct Hl as (t' & w & Ht' & Hret).
      rewrite singleRequest_queryDataset in Hret.
      pose proof (queryDataset_outcome gateway t' (dataset_name cfg) (rows_limit cfg) w) as Hq.
      rewrite Hret in Hq. destruct Hq as (Htid & Hds & _).
      split; [done|]. exists p.
      assert (p < i s0) as Hp.
      { apply lookup_lt_Some in Hreq. by rewrite (coh_length cfg s0 Hc) in Hreq. }
      split; [done|].
      pose proof (coh_tenant cfg s0 Hc p Hp) as Hten.
      rewrite Ht' in Hten. injection Hten as Hten. by rewrite <- Hten, Htid. }
  apply (Hgen (init now)); [apply coherent_init| |done|done].
  intros r Hr. by apply elem_of_nil in Hr.
Qed.

Lemma runLoadTest_results_name_their_request_witness :
  exists s,
    steps (with_concurrency 1 scenario_cfg) (init 0)
          [LoopStep;
           Complete 0 {| status := Success; tenant_id := "a"; dataset := "sales";
                         rows := Some 6%Z; bytes := Some 8%Z;
                         metadata_latency_ms := Some (2 - 1)%Q;
                         transfer_latency_ms := Some (4 - 3)%Q;
                         total_latency_ms := (5 - 0)%Q; error := None |}] = Some s /\
    forall r, r ∈ results s -> dataset r = "sales".
Proof.
  destruct (steps (with_concurrency 1 scenario_cfg) (init 0) _) as [s|] eqn:E;
    [|vm_compute in E; discriminate E].
  exists s. split; [reflexivity|]. intros r Hr.
  refine (proj1 (runLoadTest_results_name_their_request
                   (example_gateway [{| endpoint_ticket := {| ticket := "t1" |} |}])
                   (with_concurrency 1 scenario_cfg) 0 _ s _ E r Hr)).
  split; [exact I|]. cbn. split.
  - exists "a", example_world. split; reflexivity.
  - exact I.
Defined.

Lemma length_pending_le (cfg : config) (s : state) :
  coherent cfg s -> length (pending s) <= i s.
Proof.
  intros Hc.
  assert (length (pending s) <= length (seq 0 (i s))) as H; [|by rewrite length_seq in H].
  apply submseteq_length, NoDup_submseteq; [apply (coh_nodup cfg s Hc)|].
  intros p Hp. apply elem_of_seq. pose proof (coh_pending_lt cfg s Hc p Hp). lia.
Qed.

Lemma filter_all_of_length {A : Type} (P : A -> Prop) `{!forall x, Decision (P x)}
      (l : list A) :
  length (filter P l) = length l -> filter P l = l.
Proof.
  induction l as [|x l IH]; [done|].
  rewrite filter_cons. destruct (decide (P x)); cbn.
  - intros [= Hl]. by rewrite IH.
  - intros Hl. pose proof (length_filter P l). lia.
Qed.

(** X22.  With a cap above the number of requests the loop never waits
    at [Promise.race]: every request is admitted before anything else
    happens. *)
Theorem runLoadTest_never_waits_below_cap (cfg : config) (now : Q) (schedule : list label)
        (s : state) :
  (totalRequests cfg < concurrency cfg)%Z ->
  steps cfg (init now) schedule = Some s ->
  (ctl s = Running \/ loop_exited (ctl s)) /\
  (ctl s = Running ->
   schedule = replicate (i s) LoopStep /\ outstanding s = seq 0 (i s)).
Proof.
  intros Hcap Hsteps.
  assert (forall s0 sched,
             steps cfg (init now) sched = Some s0 ->
             (ctl s0 = Running \/ loop_exited (ctl s0)) /\
             (ctl s0 = Running ->
              sched = replicate (i s0) LoopStep /\
              length (outstanding s0) = i s0)) as Hgen.
  { intros s0 sched. revert s0.
    induction sched as [|l ls IH] using rev_ind; intros s0 Hs0.
    { cbn in Hs0. injection Hs0 as <-. cbn. split; [by left|done]. }
    rewrite steps_app in Hs0.
    destruct (steps cfg (init now) ls) as [s1|] eqn:Hpre; [|done].
    cbn [steps] in Hs0. destruct (step cfg s1 l) as [s2|] eqn:Hstep; [|done].
    injection Hs0 as ->.
    pose proof (reachable_coherent cfg now ls s1 Hpre) as Hc.
    destruct (IH s1 eq_refl) as [Hctl Hrun].
    unfold step in Hstep. destruct l as [|now'|p result].
    - destruct (ctl s1) eqn:Hc1; try done. injection Hstep as <-.
      destruct (Hrun eq_refl) as [-> Hout].
      destruct (decide (Z.of_nat (i s1) < totalRequests cfg)%Z) as [Hi|Hi].
      + destruct (loop_step_admit cfg s1 (loop_step cfg s1) Hi (coh_length cfg s1 Hc)
                    (coh_pending_lt cfg s1 Hc) (coh_nodup cfg s1 Hc)
                    (fun p rs H => proj1 (coh_reactions cfg s1 Hc p rs H)) eq_refl)
          as (Hi' & _ & _ & _ & _ & _ & _ & _ & _ & _ & _ & Hctl').
        assert (cap_reached cfg s1 = false) as Hno.
        { unfold cap_reached. apply Z.leb_gt. rewrite length_app. cbn.
          pose proof (length_pending_le cfg s1 Hc). lia. }
        rewrite Hno in Hctl'. split; [by left|]. intros _.
        rewrite Hi'. split; [by rewrite replicate_S_end|].
        assert (coherent cfg (loop_step cfg s1)) as Hc'.
        { apply (coherent_step cfg s1 (loop_step cfg s1) LoopStep Hc).
          unfold step. by rewrite Hc1. }
        pose proof (coh_results cfg _ Hc') as Hres.
        pose proof (coh_length cfg _ Hc') as Hlen.
        pose proof (coh_results cfg _ Hc) as Hres1.
        pose proof (coh_length cfg _ Hc) as Hlen1.
        rewrite (proj1 (loop_step_keeps cfg s1)) in Hres. lia.
      + destruct (loop_step_exit cfg s1 (loop_step cfg s1) Hi eq_refl)
          as (_ & _ & _ & _ & _ & _ & _ & _ & _ & Hctl').
        rewrite Hctl'. split; [by right|done].
    - destruct Hctl as [Hr|Hex]; [by rewrite Hr in Hstep|].
      destruct (ctl s1) as [| |n|m] eqn:Hc1; try done.
      destruct (jobs s1) as [|j rest]; [done|]. injection Hstep as <-.
      unfold run_job. rewrite Hc1.
      destruct j as [q|r q|q|], n as [|n]; cbn; split; (by right) || done.
    - destruct Hctl as [Hr|Hex]; [by rewrite Hr in Hstep|].
      assert (complete p result s1 = Some s0) as Hcomp by (by destruct (ctl s1)).
      apply complete_inv in Hcomp as (t & rs & _ & ->). cbn [ctl].
      split; [by right|]. intros Hr. rewrite Hr in Hex. done. }
  destruct (Hgen s schedule Hsteps) as [Hctl Hrun]. split; [done|].
  intros Hr. destruct (Hrun Hr) as [Hsched Hlen]. split; [done|].
  pose proof (reachable_coherent cfg now _ s Hsteps) as Hc.
  unfold outstanding in *. rewrite (coh_length cfg s Hc) in *.
  apply filter_all_of_length. by rewrite length_seq.
Qed.

Lemma runLoadTest_never_waits_below_cap_witness :
  exists s,
    steps (with_concurrency 11 scenario_cfg) (init 0) (replicate 10 LoopStep) = Some s /\
    ctl s = Running /\
    outstanding s = seq 0 10.
Proof.
  destruct (steps (with_concurrency 11 scenario_cfg) (init 0) (replicate 10 LoopStep))
    as [s|] eqn:E; [|vm_compute in E; discriminate E].
  exists s. split; [reflexivity|].
  assert (ctl s = Running) as Hrun by (vm_compute in E; injection E as <-; reflexivity).
  assert (i s = 10) as Hi by (vm_compute in E; injection E as <-; reflexivity).
  split; [exact Hrun|].
  destruct (runLoadTest_never_waits_below_cap (with_concurrency 11 scenario_cfg) 0
              (replicate 10 LoopStep) s ltac:(vm_compute; reflexivity) E) as [_ H].
  destruct (H Hrun) as [_ Hout]. rewrite Hout, Hi. reflexivity.
Defined.

(* ===================================================================== *)
(** * Properties of the command line                                      *)
(* ===================================================================== *)

Lemma String_split_nonempty (sep : ascii) (s : string) : String_split sep s <> [].
Proof.
  destruct s as [|c rest]; cbn; [done|].
  destruct (Ascii.eqb c sep); [done|]. by destruct (String_split sep rest).
Qed.

Lemma String_split_join (sep : ascii) (s : string) :
  Array_join (String sep "") (String_split sep s) = s.
Proof.
  unfold Array_join. induction s as [|c rest IH]; [done|].
  cbn [String_split]. pose proof (String_split_nonempty sep rest) as Hne.
  destruct (Ascii.eqb_spec c sep) as [->|Hc].
  - destruct (String_split sep rest) as [|p ps]; [done|].
    cbn [String.concat]. cbn. by rewrite <- IH.
  - destruct (String_split sep rest) as [|p ps]; [done|].
    rewrite <- IH. destruct ps; cbn; done.
Qed.

Lemma String_split_pieces (sep : ascii) (s : string) :
  Forall (fun piece => occurs sep piece = false) (String_split sep s) /\
  length (String_split sep s) = S (occurrences sep s).
Proof.
  induction s as [|c rest [IH1 IH2]]; cbn [String_split occurrences].
  - split; [by repeat constructor|done].
  - pose proof (String_split_nonempty sep rest) as Hne.
    destruct (Ascii.eqb c sep) eqn:Hc.
    + split; [by constructor|]. cbn. by rewrite IH2.
    + destruct (String_split sep rest) as [|p ps]; [done|].
      apply Forall_cons in IH1 as [Hp Hps].
      split; [|by cbn in *].
      constructor; [|done]. cbn. by rewrite Hc, Hp.
Qed.

Lemma String_split_piece (sep : ascii) (piece : string) (rest : string) :
  occurs sep piece = false ->
  String_split sep (piece +:+ String sep rest) = piece :: String_split sep rest.
Proof.
  induction piece as [|c piece IH]; cbn [occurs].
  - intros _. change ("" +:+ String sep rest) with (String sep rest).
    cbn [String_split]. by rewrite Ascii.eqb_refl.
  - intros H. apply orb_false_iff in H as [Hc Hp].
    change (String c piece +:+ String sep rest) with (String c (piece +:+ String sep rest)).
    cbn [String_split]. rewrite Hc, IH by done. done.
Qed.

Lemma String_split_single (sep : ascii) (piece : string) :
  occurs sep piece = false -> String_split sep piece = [piece].
Proof.
  induction piece as [|c piece IH]; cbn [occurs]; [done|].
  intros H. apply orb_false_iff in H as [Hc Hp].
  cbn [String_split]. rewrite Hc, IH by done. done.
Qed.

(** X26.  Splitting a tenant list at its commas loses nothing: joining
    the pieces with commas gives the text back, there is one piece
    more than there are commas, no piece holds a comma, and pieces
    without commas are recovered from their join. *)
Theorem String_split_round_trip (sep : ascii) :
  (forall s,
      Array_join (String sep "") (String_split sep s) = s /\
      length (String_split sep s) = S (occurrences sep s) /\
      Forall (fun piece => occurs sep piece = false) (String_split sep s)) /\
  (forall pieces,
      pieces <> [] ->
      Forall (fun piece => occurs sep piece = false) pieces ->
      String_split sep (Array_join (String sep "") pieces) = pieces).
Proof.
  split.
  - intros s. split; [apply String_split_join|].
    destruct (String_split_pieces sep s). done.
  - intros pieces Hne Hall. unfold Array_join.
    induction Hall as [|p ps Hp Hps IH]; [done|].
    destruct ps as [|q ps].
    + cbn. by apply String_split_single.
    + change (String.concat (String sep "") (p :: q :: ps))
        with (p +:+ String sep "" +:+ String.concat (String sep "") (q :: ps)).
      change (String sep "" +:+ ?x) with (String sep x).
      rewrite String_split_piece by done. f_equal. by apply IH.
Qed.

Lemma String_split_round_trip_witness :
  String_split "," "acme,globex,initech" = ["acme"; "globex"; "initech"].
Proof.
  apply (proj2 (String_split_round_trip ",") ["acme"; "globex"; "initech"]).
  - discriminate.
  - repeat constructor.
Defined.

Lemma filler_zero_cur (n : nat) : filler n "0" "0" = filler n "0" "".
Proof. by destruct n. Qed.

Lemma filler_zero_length (n : nat) : String.length (filler n "0" "") = n.
Proof. induction n as [|n IH]; [done|]. cbn. by rewrite IH. Qed.

Lemma length_append (a b : string) :
  String.length (a +:+ b) = String.length a + String.length b.
Proof.
  induction a as [|c a IH]; [done|].
  change (String c a +:+ b) with (String c (a +:+ b)). cbn. by rewrite IH.
Qed.

Lemma padStart_length (s : string) : 3 <= String.length (padStart 3 "0" s).
Proof.
  unfold padStart. rewrite length_append, filler_zero_cur, filler_zero_length. lia.
Qed.

Lemma pretty_N_go_head (x : N) (s : string) :
  (0 < x)%N -> exists c t, pretty_N_go x s = String c t /\ c <> "0"%char.
Proof.
  revert s. induction (N.lt_wf_0 x) as [x _ IH]; intros s Hx.
  rewrite pretty_N_go_step by done.
  destruct (decide (x `div` 10 = 0)%N) as [Hz|Hnz].
  - rewrite Hz, pretty_N_go_0. eexists _, _. split; [done|].
    assert (x < 10)%N as Hlt by (apply N.div_small_iff in Hz; lia).
    rewrite N.mod_small by done.
    assert (x = 1 \/ x = 2 \/ x = 3 \/ x = 4 \/ x = 5 \/ x = 6 \/ x = 7 \/ x = 8 \/ x = 9)%N
      as Hcases by lia.
    destruct Hcases as [->|[->|[->|[->|[->|[->|[->|[->| ->]]]]]]]]; done.
  - apply IH; [apply N.div_lt; lia|by apply N.neq_0_lt_0].
Qed.

Lemma pretty_succ_head (k : nat) :
  exists c t, pretty (k + 1) = String c t /\ c <> "0"%char.
Proof.
  unfold pretty, pretty_nat, pretty, pretty_N.
  rewrite decide_False by lia. apply pretty_N_go_head. lia.
Qed.

Lemma zeros_prefix_inj (m n : nat) (a b : string) :
  (exists c t, a = String c t /\ c <> "0"%char) ->
  (exists c t, b = String c t /\ c <> "0"%char) ->
  filler m "0" "" +:+ a = filler n "0" "" +:+ b -> a = b.
Proof.
  intros (ca & ta & -> & Ha) (cb & tb & -> & Hb). revert n.
  induction m as [|m IH]; intros [|n]; cbn [filler].
  - done.
  - change ("" +:+ ?x) with x. change (String ?c ?x +:+ ?y) with (String c (x +:+ y)).
    intros [= -> _]. done.
  - change ("" +:+ ?x) with x. change (String ?c ?x +:+ ?y) with (String c (x +:+ y)).
    intros [= <- _]. done.
  - change (String ?c ?x +:+ ?y) with (String c (x +:+ y)).
    intros [= H]. by apply IH in H.
Qed.

Lemma tenant_name_inj (j k : nat) : tenant_name j = tenant_name k -> j = k.
Proof.
  unfold tenant_name, padStart. intros H. apply (inj (String.app "tenant_")) in H.
  rewrite !filler_zero_cur in H.
  apply zeros_prefix_inj in H; [|apply pretty_succ_head..].
  apply (inj pretty) in H. lia.
Qed.

(** X27.  Without a tenant list, a count [n] below 2^32 gives [n]
    tenant names, pairwise distinct, the k-th made from [k + 1] in at
    least three digits; a count that is NaN, zero or negative gives no
    tenant at all; a count of 2^32 or more is an error. *)
Theorem loadTest_tenants_generated (tenantsList : option string) :
  tenantsList = None \/ tenantsList = Some "" ->
  (forall n,
      (n < 2 ^ 32)%Z ->
      exists ts,
        loadTest_tenants tenantsList (RowsInt n) = inr ts /\
        length ts = Z.to_nat n /\
        NoDup ts /\
        (forall k, k < Z.to_nat n -> ts !! k = Some (tenant_name k)) /\
        Forall (fun t => 10 <= String.length t) ts) /\
  loadTest_tenants tenantsList RowsNaN = inr [] /\
  (forall n, (n <= 0)%Z -> loadTest_tenants tenantsList (RowsInt n) = inr []) /\
  (forall n, (2 ^ 32 <= n)%Z ->
             exists err, loadTest_tenants tenantsList (RowsInt n) = inl err).
Proof.
  intros Hlist.
  assert (forall count, loadTest_tenants tenantsList count =
                        Array_from_length count tenant_name) as Hgen.
  { intros count. by destruct Hlist as [-> | ->]. }
  split; [|split; [|split]].
  - intros n Hn. exists (tenant_name <$> seq 0 (Z.to_nat n)).
    rewrite Hgen. unfold Array_from_length.
    rewrite (proj2 (Z.ltb_lt n (2 ^ 32))) by done.
    split; [done|]. split; [by rewrite length_fmap, length_seq|].
    split; [|split].
    + apply NoDup_fmap_2; [|apply NoDup_seq]. intros j k. apply tenant_name_inj.
    + intros k Hk. by rewrite list_lookup_fmap, lookup_seq_lt.
    + apply Forall_fmap, Forall_forall. intros k _. cbn.
      unfold tenant_name. rewrite length_append.
      pose proof (padStart_length (pretty (k + 1))). cbn. lia.
  - by rewrite Hgen.
  - intros n Hn. rewrite Hgen. unfold Array_from_length.
    rewrite (proj2 (Z.ltb_lt n (2 ^ 32))) by lia.
    by rewrite Z2Nat.nonpos.
  - intros n Hn. rewrite Hgen. unfold Array_from_length.
    rewrite (proj2 (Z.ltb_ge n (2 ^ 32))) by lia. eauto.
Qed.

Lemma loadTest_tenants_generated_witness :
  loadTest_tenants None (RowsInt 5) =
    inr ["tenant_001"; "tenant_002"; "tenant_003"; "tenant_004"; "tenant_005"] /\
  NoDup ["tenant_001"; "tenant_002"; "tenant_003"; "tenant_004"; "tenant_005"].
Proof.
  destruct (proj1 (loadTest_tenants_generated None (or_introl eq_refl)) 5%Z)
    as (ts & Hts & _ & Hnd & _); [done|].
  vm_compute in Hts. injection Hts as <-. split; [vm_compute; reflexivity|exact Hnd].
Defined.

(** X28.  A tenant list that is given and not empty is used whatever the
    count: the tenants are its comma-separated fields, there is at
    least one, and none holds a comma. *)
Theorem loadTest_tenants_listed (tenantsList : string) (tenantsCount : row_limit) :
  tenantsList <> "" ->
  exists ts,
    loadTest_tenants (Some tenantsList) tenantsCount = inr ts /\
    ts <> [] /\
    length ts = S (occurrences "," tenantsList) /\
    Array_join "," ts = tenantsList /\
    Forall (fun t => occurs "," t = false) ts.
Proof.
  intros Hne. exists (String_split "," tenantsList).
  destruct (String_split_pieces "," tenantsList) as [Hall Hlen].
  split; [by destruct tenantsList|]. split; [apply String_split_nonempty|].
  split; [done|]. split; [apply String_split_join|done].
Qed.

Lemma loadTest_tenants_listed_witness :
  exists ts,
    loadTest_tenants (Some "acme,,globex") (RowsInt 5) = inr ts /\
    ts = ["acme"; ""; "globex"].
Proof.
  destruct (loadTest_tenants_listed "acme,,globex" (RowsInt 5) ltac:(discriminate))
    as (ts & Hts & _).
  exists ts. split; [exact Hts|].
  vm_compute in Hts. by injection Hts as <-.
Defined.

Lemma checkHealth_after_data (datas : list FlightData) (after : list health_event) :
  checkHealth ((Stream ∘ OnData <$> datas) ++ Stream OnEnd :: after) = Fulfilled true /\
  (forall err, checkHealth ((Stream ∘ OnData <$> datas) ++ Stream (OnError err) :: after)
               = Fulfilled false) /\
  checkHealth ((Stream ∘ OnData <$> datas) ++ Timeout :: after)
  = Fulfilled (bool_decide (datas <> [])).
Proof.
  unfold checkHealth, checkHealth_run. split; [|split; [intros err|]];
    rewrite fold_left_app, fold_health_data; simpl; by rewrite answer_final.
Qed.

(** X29.  When the probe finds the gateway unhealthy (its stream fails
    before it ends, or the timer fires before any response unit),
    [cmdQuery] writes the banner, the announcement and one error line
    naming the gateway, and exits with code 1 without issuing any
    call. *)
Theorem cmdQuery_unhealthy_gateway (gateway : Gateway) (probe : list health_event)
        (render : QueryResult -> string) (tenant dataset : string)
        (options : query_options) (w : world) :
  (exists datas err after,
      probe = (Stream ∘ OnData <$> datas) ++ Stream (OnError err) :: after) \/
  (exists after, probe = Timeout :: after) ->
  cmdQuery gateway probe render tenant dataset options w =
    {| run_ending := Exited 1;
       run_output :=
         query_header tenant dataset ++
         [ConsoleError ("Error: Could not connect to Gateway at " +:+ opt_gateway options)];
       run_world := w |}.
Proof.
  intros Hprobe. unfold cmdQuery.
  assert (checkHealth probe = Fulfilled false) as ->; [|done].
  destruct Hprobe as [(datas & err & after & ->)|(after & ->)].
  - apply checkHealth_after_data.
  - apply (checkHealth_after_data [] after).
Qed.

Lemma cmdQuery_unhealthy_gateway_witness :
  run_ending (cmdQuery (example_gateway []) [Stream (OnError (mkError "14 UNAVAILABLE"))]
                       (fun _ => "") "tenant_001" "sales"
                       {| opt_gateway := "localhost:8815"; opt_rows := None |}
                       example_world) = Exited 1 /\
  last (run_output (cmdQuery (example_gateway []) [Stream (OnError (mkError "14 UNAVAILABLE"))]
                       (fun _ => "") "tenant_001" "sales"
                       {| opt_gateway := "localhost:8815"; opt_rows := None |}
                       example_world)) =
    Some (ConsoleError "Error: Could not connect to Gateway at localhost:8815").
Proof.
  rewrite (cmdQuery_unhealthy_gateway (example_gateway [])
             [Stream (OnError (mkError "14 UNAVAILABLE"))] (fun _ => "") "tenant_001" "sales"
             {| opt_gateway := "localhost:8815"; opt_rows := None |} example_world).
  - split; reflexivity.
  - left. by exists [], (mkError "14 UNAVAILABLE"), [].
Defined.

(** X30.  With a healthy gateway [cmdQuery] never exits with a failure
    code and lets no exception escape: it stays suspended exactly when
    the query does, and otherwise returns after one more line, the
    table of a successful result on the standard output or
    "Error: <message>" on the standard error. *)
Theorem cmdQuery_reports_query_errors (gateway : Gateway) (probe : list health_event)
        (render : QueryResult -> string) (tenant dataset : string)
        (options : query_options) (w : world) :
  checkHealth probe = Fulfilled true ->
  let run := cmdQuery gateway probe render tenant dataset options w in
  let query := queryDataset gateway tenant dataset (opt_rows options) w in
  run_world run = query.2 /\
  match run_ending run with
  | Returned =>
      exists result,
        query.1 = Return result /\
        run_output run =
          query_header tenant dataset ++
          [match status result with
           | Success => ConsoleLog (render result)
           | Error => ConsoleError (error_line result)
           end] /\
        (status result = Error -> is_Some (error result))
  | Suspended => query.1 = Never /\ run_output run = query_header tenant dataset
  | Exited _ | Threw _ => False
  end.
Proof.
  intros Hprobe run query.
  pose proof (queryDataset_outcome gateway tenant dataset (opt_rows options) w) as Hq.
  unfold run, cmdQuery. rewrite Hprobe. fold query. fold query in Hq.
  destruct query as [[result|e|] w']; cbn in *; [|done|done].
  split; [done|]. exists result. by destruct Hq as (_ & _ & Herr).
Qed.

Lemma cmdQuery_reports_query_errors_witness :
  exists result,
    (queryDataset broken_gateway "tenant_001" "sales" None example_world).1 = Return result /\
    status result = Error /\
    run_output (cmdQuery broken_gateway [Stream OnEnd] (fun _ => "") "tenant_001" "sales"
                         {| opt_gateway := "localhost:8815"; opt_rows := None |}
                         example_world) =
      query_header "tenant_001" "sales" ++ [ConsoleError "Error: 14 UNAVAILABLE"].
Proof.
  pose proof (cmdQuery_reports_query_errors broken_gateway [Stream OnEnd] (fun _ => "")
                "tenant_001" "sales"
                {| opt_gateway := "localhost:8815"; opt_rows := None |} example_world
                eq_refl) as [_ H].
  change (run_ending _) with Returned in H.
  destruct H as (result & Hres & Hout & _).
  exists result. split; [exact Hres|].
  cbn [opt_rows] in Hres. vm_compute in Hres. injection Hres as <-.
  split; [reflexivity|]. rewrite Hout. reflexivity.
Defined.
